(** * Verification of the R-Tree index of [Proyecto.py]

    The development embeds the spatial index of the program (classes
    [Point], [Rectangle], [RTreeNode] and [RTree]) and proves properties of
    its insertion, split and query procedures, and of the two handlers of
    the window that call the queries.

    Modelling choices.
    - Coordinates are exact integers ([Z]): the program as it runs on [int]
      coordinates.  The index only adds, subtracts, multiplies and compares
      coordinates, which Python does exactly on [int] values.
    - [math.sqrt] of an exact integer is kept symbolic ([Sqrt v]) and ordered
      by its radicand; [surd_val] gives its value as a real number.  The
      float that [math.sqrt] returns is the rounded value; module [Rounded]
      computes it, and the two orders agree for integer coordinates of
      magnitude at most [2 ^ 23] (predicate [small]).
    - The declared type of the coordinates is [float].  Module [Float]
      embeds the insertion path a second time on binary64 numbers
      (module [Binary64]), where areas can be infinite and enlargements
      infinite or NaN.
    - [RTreeNode] and [Rectangle] objects are mutable and shared in the
      program (an entry of the root holds the very rectangle object that is
      the child's [mbr]), so both live in a store addressed by object
      identity.  [Point] objects and entry tuples are never mutated and are
      plain values.
    - A Python exception (or an unbounded recursion) is the result [None] of
      a computation in the monad [Heap.M]. *)

From Stdlib Require Import ZArith Lia String.
From Stdlib Require Import Rbase Rfunctions R_sqrt.
From Stdlib Require Import Floats.SpecFloat.
From stdpp Require Import base option list sorting.

Local Open Scope Z_scope.

(** ** Numbers *)

(** The exact square root of the integer [v], of which [math.sqrt v]
    returns the rounding to a float. *)
Inductive surd : Type := Sqrt (radicand : Z).

Definition radicand (d : surd) : Z := let 'Sqrt v := d in v.

(** [a < b] on exact square roots.  The floats that [math.sqrt] returns
    are in the same order for radicands below [2 ^ 52], and can be equal
    for distinct radicands above. *)
Definition surd_ltb (a b : surd) : bool := radicand a <? radicand b.

(** The real number a symbolic square root stands for. *)
Definition surd_val (d : surd) : R := sqrt (IZR (radicand d)).

(** [float('inf')] joined to the exact integers, which are all below it. *)
Inductive ext : Type := Fin (z : Z) | Inf.

(** [z < e] for an exact [z]. *)
Definition lt_ext (z : Z) (e : ext) : bool :=
  match e with
  | Inf => true
  | Fin m => z <? m
  end.

(** Python's [min] and [max] over a non-empty sequence of numbers
    ([None] stands for the [ValueError] on an empty one). *)
Definition py_min (l : list Z) : option Z :=
  match l with
  | [] => None
  | a :: l' => Some (foldl Z.min a l')
  end.

Definition py_max (l : list Z) : option Z :=
  match l with
  | [] => None
  | a :: l' => Some (foldl Z.max a l')
  end.

(** ** class Point *)
Module Point.

Record t : Type := mk { x : Z; y : Z; name : string; category : string }.

Definition distance_to (self other : t) : surd :=
  Sqrt ((x self - x other) ^ 2 + (y self - y other) ^ 2).

End Point.

(** ** class Rectangle *)
Module Rectangle.

Record t : Type := mk { min_x : Z; min_y : Z; max_x : Z; max_y : Z }.

Definition area (self : t) : Z :=
  (max_x self - min_x self) * (max_y self - min_y self).

Definition contains_point (self : t) (point : Point.t) : bool :=
  (min_x self <=? Point.x point) && (Point.x point <=? max_x self) &&
  ((min_y self <=? Point.y point) && (Point.y point <=? max_y self)).

Definition intersects (self other : t) : bool :=
  negb ((max_x other <? min_x self) || (min_x other >? max_x self) ||
        (max_y other <? min_y self) || (min_y other >? max_y self)).

Definition enlargement_needed (self : t) (point : Point.t) : Z :=
  let new_min_x := Z.min (min_x self) (Point.x point) in
  let new_min_y := Z.min (min_y self) (Point.y point) in
  let new_max_x := Z.max (max_x self) (Point.x point) in
  let new_max_y := Z.max (max_y self) (Point.y point) in
  let new_area := (new_max_x - new_min_x) * (new_max_y - new_min_y) in
  new_area - area self.

(** The field values [expand_to_include] leaves in [self]; the update in
    place is [Heap.update_rect] applied to this function. *)
Definition expand_to_include (point : Point.t) (self : t) : t :=
  {| min_x := Z.min (min_x self) (Point.x point);
     min_y := Z.min (min_y self) (Point.y point);
     max_x := Z.max (max_x self) (Point.x point);
     max_y := Z.max (max_y self) (Point.y point) |}.

End Rectangle.

(** ** class RTreeNode: the object and its pure method *)
Module RTreeNode.

(** The second component of an entry: a [Point] in a leaf, a reference to
    an [RTreeNode] object in an internal node. *)
Inductive data : Type :=
| DPoint (p : Point.t)
| DNode (n : nat).

(** An entry [(rect, data)]; [rect] is a reference to a [Rectangle]
    object, or Python's [None]. *)
Definition entry : Type := option nat * data.

Record t : Type := mk {
  is_leaf : bool;
  max_entries : Z;
  entries : list entry;
  mbr : option nat
}.

(** [__init__] *)
Definition init (is_leaf : bool) (max_entries : Z) : t :=
  {| is_leaf := is_leaf; max_entries := max_entries; entries := []; mbr := None |}.

Definition is_full (self : t) : bool :=
  Z.of_nat (length (entries self)) >=? max_entries self.

Definition set_entries (es : list entry) (self : t) : t :=
  {| is_leaf := is_leaf self; max_entries := max_entries self;
     entries := es; mbr := mbr self |}.

Definition set_mbr (m : option nat) (self : t) : t :=
  {| is_leaf := is_leaf self; max_entries := max_entries self;
     entries := entries self; mbr := m |}.

End RTreeNode.

(** ** The object store and the monad of computations over it *)
Module Heap.

Record t : Type := mk {
  nodes : list RTreeNode.t;
  rects : list Rectangle.t
}.

Definition empty : t := {| nodes := []; rects := [] |}.

Definition M (A : Type) : Type := t -> option (A * t).

Definition ret {A} (a : A) : M A := fun h => Some (a, h).

Definition bind {A B} (m : M A) (k : A -> M B) : M B :=
  fun h => match m h with
           | Some (a, h') => k a h'
           | None => None
           end.

(** A raised exception. *)
Definition raise {A} : M A := fun _ => None.

Definition lift {A} (o : option A) : M A :=
  fun h => match o with Some a => Some (a, h) | None => None end.

(** Number of node objects ever created: no path without a cycle is
    longer, so it bounds every terminating descent. *)
Definition depth_bound : M nat := fun h => Some (length (nodes h), h).

Definition get_node (n : nat) : M RTreeNode.t :=
  fun h => lift (nodes h !! n) h.

Definition update_node (n : nat) (f : RTreeNode.t -> RTreeNode.t) : M unit :=
  fun h => match nodes h !! n with
           | Some nd => Some (tt, {| nodes := <[n := f nd]> (nodes h); rects := rects h |})
           | None => None
           end.

Definition new_node (nd : RTreeNode.t) : M nat :=
  fun h => Some (length (nodes h), {| nodes := nodes h ++ [nd]; rects := rects h |}).

(** Reading through a rectangle reference; [None] has no attributes. *)
Definition get_rect (r : option nat) : M Rectangle.t :=
  fun h => lift (r ≫= fun i => rects h !! i) h.

Definition update_rect (r : option nat) (f : Rectangle.t -> Rectangle.t) : M unit :=
  fun h => match r with
           | Some i =>
               match rects h !! i with
               | Some v => Some (tt, {| nodes := nodes h; rects := <[i := f v]> (rects h) |})
               | None => None
               end
           | None => None
           end.

Definition new_rect (v : Rectangle.t) : M nat :=
  fun h => Some (length (rects h), {| nodes := nodes h; rects := rects h ++ [v] |}).

(** A [for] loop with an accumulator. *)
Fixpoint for_each {A B} (l : list A) (body : B -> A -> M B) (acc : B) : M B :=
  match l with
  | [] => ret acc
  | a :: l' => bind (body acc a) (for_each l' body)
  end.

End Heap.

Notation "'let*' x ':=' m 'in' k" := (Heap.bind m (fun x => k))
  (at level 10, x pattern, m at level 100, k at level 200).
Notation "m ';;' k" := (Heap.bind m (fun _ => k))
  (at level 100, k at level 200, right associativity).

(** ** RTreeNode.calculate_mbr *)

Definition entry_rects (es : list RTreeNode.entry) : Heap.M (list Rectangle.t) :=
  Heap.for_each es (fun acc e => let* r := Heap.get_rect e.1 in Heap.ret (acc ++ [r])) [].

Definition calculate_mbr (self : nat) : Heap.M unit :=
  let* nd := Heap.get_node self in
  match RTreeNode.entries nd with
  | [] => Heap.ret tt
  | _ =>
      let* rs := entry_rects (RTreeNode.entries nd) in
      let* min_x := Heap.lift (py_min (Rectangle.min_x <$> rs)) in
      let* min_y := Heap.lift (py_min (Rectangle.min_y <$> rs)) in
      let* max_x := Heap.lift (py_max (Rectangle.max_x <$> rs)) in
      let* max_y := Heap.lift (py_max (Rectangle.max_y <$> rs)) in
      let* m := Heap.new_rect (Rectangle.mk min_x min_y max_x max_y) in
      Heap.update_node self (RTreeNode.set_mbr (Some m))
  end.

(** ** class RTree *)
Module RTree.

Record t : Type := mk { root : nat; max_entries : Z; size : Z; height : Z }.

(** [__init__] *)
Definition init (max_entries : Z) : Heap.M t :=
  let* r := Heap.new_node (RTreeNode.init true max_entries) in
  Heap.ret {| root := r; max_entries := max_entries; size := 0; height := 1 |}.

(** The body of the [for] loop of [_choose_leaf]; the accumulator is
    [(min_enlargement, best_entry)]. *)
Definition scan_entry (rect : nat) (acc : ext * option RTreeNode.entry)
    (e : RTreeNode.entry) : Heap.M (ext * option RTreeNode.entry) :=
  let '(min_enlargement, best_entry) := acc in
  let '(entry_rect, child_node) := e in
  let* er := Heap.get_rect entry_rect in
  let* r := Heap.get_rect (Some rect) in
  let enlargement :=
    Rectangle.enlargement_needed er
      (Point.mk (Rectangle.min_x r) (Rectangle.min_y r) "" "") in
  if lt_ext enlargement min_enlargement
  then Heap.ret (Fin enlargement, Some (entry_rect, child_node))
  else Heap.ret (min_enlargement, best_entry).

Fixpoint _choose_leaf (fuel : nat) (node : nat) (rect : nat) : Heap.M nat :=
  match fuel with
  | O => Heap.raise
  | S fuel' =>
      let* nd := Heap.get_node node in
      if RTreeNode.is_leaf nd then Heap.ret node
      else
        let* best := Heap.for_each (RTreeNode.entries nd) (scan_entry rect) (Inf, None) in
        match best.2 with
        | None => Heap.raise
        | Some (entry_rect, child_node) =>
            let* r := Heap.get_rect (Some rect) in
            Heap.update_rect entry_rect
              (Rectangle.expand_to_include
                 (Point.mk (Rectangle.min_x r) (Rectangle.min_y r) "" "")) ;;
            let* r := Heap.get_rect (Some rect) in
            Heap.update_rect entry_rect
              (Rectangle.expand_to_include
                 (Point.mk (Rectangle.max_x r) (Rectangle.max_y r) "" "")) ;;
            match child_node with
            | RTreeNode.DNode c => _choose_leaf fuel' c rect
            | RTreeNode.DPoint _ => Heap.raise
            end
        end
  end.

Definition _split_node (self : t) (node : nat) : Heap.M t :=
  let* nd := Heap.get_node node in
  let entries := RTreeNode.entries nd in
  let mid := (length entries / 2)%nat in
  let* new_node := Heap.new_node (RTreeNode.init (RTreeNode.is_leaf nd) (max_entries self)) in
  Heap.update_node new_node (RTreeNode.set_entries (drop mid entries)) ;;
  Heap.update_node node (RTreeNode.set_entries (take mid entries)) ;;
  calculate_mbr node ;;
  calculate_mbr new_node ;;
  if Nat.eqb node (root self) then
    let* new_root := Heap.new_node (RTreeNode.init false (max_entries self)) in
    let* nd := Heap.get_node node in
    let* nn := Heap.get_node new_node in
    Heap.update_node new_root
      (RTreeNode.set_entries
         [(RTreeNode.mbr nd, RTreeNode.DNode node);
          (RTreeNode.mbr nn, RTreeNode.DNode new_node)]) ;;
    calculate_mbr new_root ;;
    Heap.ret {| root := new_root; max_entries := max_entries self;
                size := size self; height := height self + 1 |}
  else Heap.ret self.

Definition insert (self : t) (point : Point.t) : Heap.M t :=
  let* rect := Heap.new_rect
    (Rectangle.mk (Point.x point) (Point.y point) (Point.x point) (Point.y point)) in
  let* fuel := Heap.depth_bound in
  let* leaf := _choose_leaf fuel (root self) rect in
  Heap.update_node leaf
    (fun nd => RTreeNode.set_entries
                 (RTreeNode.entries nd ++ [(Some rect, RTreeNode.DPoint point)]) nd) ;;
  calculate_mbr leaf ;;
  let self := {| root := root self; max_entries := max_entries self;
                 size := size self + 1; height := height self |} in
  let* nd := Heap.get_node leaf in
  if RTreeNode.is_full nd &&
     (Z.of_nat (length (RTreeNode.entries nd)) >? max_entries self)
  then _split_node self leaf
  else Heap.ret self.

Fixpoint _range_search (fuel : nat) (node : nat) (query_rect : Rectangle.t)
    (results : list Point.t) : Heap.M (list Point.t) :=
  match fuel with
  | O => Heap.raise
  | S fuel' =>
      let* nd := Heap.get_node node in
      Heap.for_each (RTreeNode.entries nd)
        (fun results e =>
           let* entry_rect := Heap.get_rect e.1 in
           if negb (Rectangle.intersects entry_rect query_rect) then Heap.ret results
           else if RTreeNode.is_leaf nd then
             match e.2 with
             | RTreeNode.DPoint point =>
                 if Rectangle.contains_point query_rect point
                 then Heap.ret (results ++ [point])
                 else Heap.ret results
             | RTreeNode.DNode _ => Heap.raise
             end
           else
             match e.2 with
             | RTreeNode.DNode c => _range_search fuel' c query_rect results
             | RTreeNode.DPoint _ => Heap.raise
             end)
        results
  end.

Definition range_query (self : t) (query_rect : Rectangle.t) : Heap.M (list Point.t) :=
  let* fuel := Heap.depth_bound in
  _range_search fuel (root self) query_rect [].

Fixpoint _collect_all_points (fuel : nat) (node : nat) (points : list Point.t)
    : Heap.M (list Point.t) :=
  match fuel with
  | O => Heap.raise
  | S fuel' =>
      let* nd := Heap.get_node node in
      Heap.for_each (RTreeNode.entries nd)
        (fun points e =>
           if RTreeNode.is_leaf nd then
             match e.2 with
             | RTreeNode.DPoint p => Heap.ret (points ++ [p])
             | RTreeNode.DNode n => Heap.raise
             end
           else
             match e.2 with
             | RTreeNode.DNode c => _collect_all_points fuel' c points
             | RTreeNode.DPoint _ => Heap.raise
             end)
        points
  end.

(** [distances.sort(key=lambda x: x[1])]: Python's sort is stable and
    compares keys with [<] only.  The result of a stable sort is unique;
    it is computed here by insertion from the right. *)
Fixpoint sort_insert (e : Point.t * surd) (l : list (Point.t * surd))
    : list (Point.t * surd) :=
  match l with
  | [] => [e]
  | h :: l' => if surd_ltb h.2 e.2 then h :: sort_insert e l' else e :: h :: l'
  end.

Definition sort_by_distance (l : list (Point.t * surd)) : list (Point.t * surd) :=
  foldr sort_insert [] l.

(** The slice [l[:k]] of a list. *)
Definition slice_to {A} (k : Z) (l : list A) : list A :=
  if 0 <=? k then take (Z.to_nat k) l
  else take (Z.to_nat (Z.of_nat (length l) + k)) l.

Definition knn_query (self : t) (query_point : Point.t) (k : Z)
    : Heap.M (list (Point.t * surd)) :=
  let* fuel := Heap.depth_bound in
  let* all_points := _collect_all_points fuel (root self) [] in
  let distances := (fun p => (p, Point.distance_to query_point p)) <$> all_points in
  Heap.ret (slice_to k (sort_by_distance distances)).

End RTree.

(** ** Building an index

    [rtree = RTree(max_entries); for point in points: rtree.insert(point)],
    as [PerformanceAnalyzer.measure_insertion_time] does, run in the empty
    store. *)
Definition insert_all (self : RTree.t) (points : list Point.t) : Heap.M RTree.t :=
  Heap.for_each points RTree.insert self.

Definition build (max_entries : Z) (points : list Point.t) : option (RTree.t * Heap.t) :=
  (let* rtree := RTree.init max_entries in insert_all rtree points) Heap.empty.

(** Points with the given coordinates, for examples. *)
Definition pt (x y : Z) : Point.t := Point.mk x y "" "".

(** The result of a query on a built index. *)
Definition run {A} (m : RTree.t -> Heap.M A) (s : option (RTree.t * Heap.t)) : option A :=
  match s with
  | Some (t, h) => fst <$> m t h
  | None => None
  end.

(** ** class PerformanceAnalyzer: the timed queries

    The clock readings are left out; what remains of each method is the
    call that it times. *)
Module PerformanceAnalyzer.

Definition measure_range_query_time (rtree : RTree.t) (query_rect : Rectangle.t)
    : Heap.M (list Point.t) :=
  RTree.range_query rtree query_rect.

Definition measure_knn_query_time (rtree : RTree.t) (query_point : Point.t) (k : Z)
    : Heap.M (list (Point.t * surd)) :=
  RTree.knn_query rtree query_point k.

End PerformanceAnalyzer.

(** ** class GeoSpatialGUI: the two query handlers

    Of the window object the handlers read [rtree] and assign
    [query_results], [query_rect] and [query_point].  What they write to the
    results panel is returned as data; the widgets, the drawing on the
    canvas and the formatting of numbers are left out.  The coordinates of
    a mouse event are integers. *)
Module GeoSpatialGUI.

Record t := mk {
  rtree : RTree.t;
  query_results : list Point.t;
  query_rect : option Rectangle.t;
  query_point : option Point.t }.

(** [by_category], a dict from category to list of points: its items in the
    order in which the keys were first set. *)
Definition dict := list (string * list Point.t).

(** [if point.category not in by_category: by_category[point.category] = []]
    followed by [by_category[point.category].append(point)]. *)
Fixpoint dict_append (by_category : dict) (point : Point.t) : dict :=
  match by_category with
  | [] => [(Point.category point, [point])]
  | (category, points) :: rest =>
      if String.eqb category (Point.category point)
      then (category, points ++ [point]) :: rest
      else (category, points) :: dict_append rest point
  end.

Definition group_by_category (results : list Point.t) : dict :=
  foldl dict_append [] results.

(** [sorted(by_category.items())]: the keys of a dict are distinct, so the
    order of two items is the order of their categories, and strings are
    ordered position by position. *)
Fixpoint sorted_insert (item : string * list Point.t) (l : dict) : dict :=
  match l with
  | [] => [item]
  | h :: l' => if String.ltb h.1 item.1 then h :: sorted_insert item l' else item :: h :: l'
  end.

Definition sorted_items (by_category : dict) : dict :=
  foldr sorted_insert [] by_category.

(** The part of the panel that belongs to one category: the title with the
    number of points, the lines of [points[:10]], and the number in the line
    [... y N más], which is written when [len(points) > 10]. *)
Record block := mk_block {
  category : string;
  count : nat;
  shown : list Point.t;
  more : option nat }.

Definition block_of (item : string * list Point.t) : block :=
  let '(category, points) := item in
  mk_block category (length points) (take 10 points)
    (if (10 <? length points)%nat then Some (length points - 10)%nat else None).

(** The panel after a range query: [Puntos encontrados] and the blocks. *)
Definition perform_range_query (self : t) (x1 y1 x2 y2 : Z)
    : Heap.M (t * (nat * list block)) :=
  let min_x := Z.min x1 x2 in
  let max_x := Z.max x1 x2 in
  let min_y := Z.min y1 y2 in
  let max_y := Z.max y1 y2 in
  let query_rect := Rectangle.mk min_x min_y max_x max_y in
  let* results := PerformanceAnalyzer.measure_range_query_time (rtree self) query_rect in
  let self := mk (rtree self) results (Some query_rect) (query_point self) in
  let by_category := group_by_category results in
  Heap.ret (self, (length results, block_of <$> sorted_items by_category)).

(** The two error dialogs of [perform_knn_query]. *)
Inductive knn_error :=
| K_not_positive   (* "K debe ser mayor que 0" *)
| K_not_a_number.  (* "Ingrese un valor valido para K" *)

(** [k_var] is the outcome of [int(self.k_var.get())]: the integer, or
    [None] when the conversion raises [ValueError].  The neighbours are
    written to the panel in the order of [results]. *)
Definition perform_knn_query (self : t) (k_var : option Z) (x y : Z)
    : Heap.M (t * (knn_error + list (Point.t * surd))) :=
  match k_var with
  | None => Heap.ret (self, inl K_not_a_number)
  | Some k =>
      if k <=? 0 then Heap.ret (self, inl K_not_positive)
      else
        let query_point := Point.mk x y "Query Point" "" in
        let* results :=
          PerformanceAnalyzer.measure_knn_query_time (rtree self) query_point k in
        let self := mk (rtree self) (fst <$> results) (query_rect self) (Some query_point) in
        Heap.ret (self, inr results)
  end.

End GeoSpatialGUI.

(** * The insertion path on coordinates of type [float]

    [Point] and [Rectangle] declare their coordinates as [float].  On
    floats the arithmetic of [area] and [enlargement_needed] rounds to
    binary64 and can reach infinity and NaN, which exact integers never do.
    The classes are therefore embedded a second time, method by method, on
    binary64 numbers, for the methods that [insert] runs. *)

(** ** Numbers: binary64, rounding to nearest even *)
Module Binary64.

Definition float : Type := spec_float.

Definition prec : Z := 53.
Definition emax : Z := 1024.

(** [float('inf')] *)
Definition inf : float := S754_infinity false.


(** [float(z)] for an [int] within the range of the finite floats. *)
Definition of_Z (z : Z) : float := binary_normalize prec emax z 0 false.

Definition sub (a b : float) : float := SFsub prec emax a b.
Definition mul (a b : float) : float := SFmul prec emax a b.

(** [a < b], [a <= b], [a > b] and [a >= b]: false when either side is
    NaN. *)
Definition ltb (a b : float) : bool := SFltb a b.
Definition gtb (a b : float) : bool := SFltb b a.

Definition is_finite (a : float) : bool :=
  match a with S754_zero _ | S754_finite _ _ _ => true | _ => false end.

(** [min(a, b)] and [max(a, b)]: the first argument is kept unless the
    second compares below (above) it. *)
Definition min (a b : float) : float := if ltb b a then b else a.
Definition max (a b : float) : float := if gtb b a then b else a.

(** [min] and [max] over a sequence ([None] stands for the [ValueError] on
    an empty one). *)
Definition py_min (l : list float) : option float :=
  match l with
  | [] => None
  | a :: l' => Some (foldl min a l')
  end.

Definition py_max (l : list float) : option float :=
  match l with
  | [] => None
  | a :: l' => Some (foldl max a l')
  end.

End Binary64.

Module Float.

(** ** class Point *)
Module Point.

Record t : Type := mk {
  x : Binary64.float; y : Binary64.float; name : string; category : string }.

End Point.

(** ** class Rectangle *)
Module Rectangle.

Record t : Type := mk {
  min_x : Binary64.float; min_y : Binary64.float;
  max_x : Binary64.float; max_y : Binary64.float }.

Definition area (self : t) : Binary64.float :=
  Binary64.mul (Binary64.sub (max_x self) (min_x self))
               (Binary64.sub (max_y self) (min_y self)).

Definition enlargement_needed (self : t) (point : Point.t) : Binary64.float :=
  let new_min_x := Binary64.min (min_x self) (Point.x point) in
  let new_min_y := Binary64.min (min_y self) (Point.y point) in
  let new_max_x := Binary64.max (max_x self) (Point.x point) in
  let new_max_y := Binary64.max (max_y self) (Point.y point) in
  let new_area :=
    Binary64.mul (Binary64.sub new_max_x new_min_x) (Binary64.sub new_max_y new_min_y) in
  Binary64.sub new_area (area self).

Definition expand_to_include (point : Point.t) (self : t) : t :=
  {| min_x := Binary64.min (min_x self) (Point.x point);
     min_y := Binary64.min (min_y self) (Point.y point);
     max_x := Binary64.max (max_x self) (Point.x point);
     max_y := Binary64.max (max_y self) (Point.y point) |}.

End Rectangle.

(** ** class RTreeNode *)
Module RTreeNode.

Inductive data : Type :=
| DPoint (p : Point.t)
| DNode (n : nat).

Definition entry : Type := option nat * data.

Record t : Type := mk {
  is_leaf : bool;
  max_entries : Z;
  entries : list entry;
  mbr : option nat
}.

Definition init (is_leaf : bool) (max_entries : Z) : t :=
  {| is_leaf := is_leaf; max_entries := max_entries; entries := []; mbr := None |}.

Definition is_full (self : t) : bool :=
  Z.of_nat (length (entries self)) >=? max_entries self.

Definition set_entries (es : list entry) (self : t) : t :=
  {| is_leaf := is_leaf self; max_entries := max_entries self;
     entries := es; mbr := mbr self |}.

Definition set_mbr (m : option nat) (self : t) : t :=
  {| is_leaf := is_leaf self; max_entries := max_entries self;
     entries := entries self; mbr := m |}.

End RTreeNode.

(** ** The object store *)
Module Heap.

Record t : Type := mk {
  nodes : list RTreeNode.t;
  rects : list Rectangle.t
}.

Definition empty : t := {| nodes := []; rects := [] |}.

Definition M (A : Type) : Type := t -> option (A * t).

Definition ret {A} (a : A) : M A := fun h => Some (a, h).

Definition bind {A B} (m : M A) (k : A -> M B) : M B :=
  fun h => match m h with
           | Some (a, h') => k a h'
           | None => None
           end.

Definition raise {A} : M A := fun _ => None.

Definition lift {A} (o : option A) : M A :=
  fun h => match o with Some a => Some (a, h) | None => None end.

Definition depth_bound : M nat := fun h => Some (length (nodes h), h).

Definition get_node (n : nat) : M RTreeNode.t :=
  fun h => lift (nodes h !! n) h.

Definition update_node (n : nat) (f : RTreeNode.t -> RTreeNode.t) : M unit :=
  fun h => match nodes h !! n with
           | Some nd => Some (tt, {| nodes := <[n := f nd]> (nodes h); rects := rects h |})
           | None => None
           end.

Definition new_node (nd : RTreeNode.t) : M nat :=
  fun h => Some (length (nodes h), {| nodes := nodes h ++ [nd]; rects := rects h |}).

Definition get_rect (r : option nat) : M Rectangle.t :=
  fun h => lift (r ≫= fun i => rects h !! i) h.

Definition update_rect (r : option nat) (f : Rectangle.t -> Rectangle.t) : M unit :=
  fun h => match r with
           | Some i =>
               match rects h !! i with
               | Some v => Some (tt, {| nodes := nodes h; rects := <[i := f v]> (rects h) |})
               | None => None
               end
           | None => None
           end.

Definition new_rect (v : Rectangle.t) : M nat :=
  fun h => Some (length (rects h), {| nodes := nodes h; rects := rects h ++ [v] |}).

Fixpoint for_each {A B} (l : list A) (body : B -> A -> M B) (acc : B) : M B :=
  match l with
  | [] => ret acc
  | a :: l' => bind (body acc a) (for_each l' body)
  end.

End Heap.

Declare Scope float_heap_scope.
Notation "'let*' x ':=' m 'in' k" := (Heap.bind m (fun x => k))
  (at level 10, x pattern, m at level 100, k at level 200) : float_heap_scope.
Notation "m ';;' k" := (Heap.bind m (fun _ => k))
  (at level 100, k at level 200, right associativity) : float_heap_scope.
Local Open Scope float_heap_scope.

(** ** RTreeNode.calculate_mbr *)

Definition entry_rects (es : list RTreeNode.entry) : Heap.M (list Rectangle.t) :=
  Heap.for_each es (fun acc e => let* r := Heap.get_rect e.1 in Heap.ret (acc ++ [r])) [].

Definition calculate_mbr (self : nat) : Heap.M unit :=
  let* nd := Heap.get_node self in
  match RTreeNode.entries nd with
  | [] => Heap.ret tt
  | _ =>
      let* rs := entry_rects (RTreeNode.entries nd) in
      let* min_x := Heap.lift (Binary64.py_min (Rectangle.min_x <$> rs)) in
      let* min_y := Heap.lift (Binary64.py_min (Rectangle.min_y <$> rs)) in
      let* max_x := Heap.lift (Binary64.py_max (Rectangle.max_x <$> rs)) in
      let* max_y := Heap.lift (Binary64.py_max (Rectangle.max_y <$> rs)) in
      let* m := Heap.new_rect (Rectangle.mk min_x min_y max_x max_y) in
      Heap.update_node self (RTreeNode.set_mbr (Some m))
  end.

(** ** class RTree *)
Module RTree.

Record t : Type := mk { root : nat; max_entries : Z; size : Z; height : Z }.

Definition init (max_entries : Z) : Heap.M t :=
  let* r := Heap.new_node (RTreeNode.init true max_entries) in
  Heap.ret {| root := r; max_entries := max_entries; size := 0; height := 1 |}.

(** The body of the [for] loop of [_choose_leaf]; the accumulator is
    [(min_enlargement, best_entry)]. *)
Definition scan_entry (rect : nat) (acc : Binary64.float * option RTreeNode.entry)
    (e : RTreeNode.entry) : Heap.M (Binary64.float * option RTreeNode.entry) :=
  let '(min_enlargement, best_entry) := acc in
  let '(entry_rect, child_node) := e in
  let* er := Heap.get_rect entry_rect in
  let* r := Heap.get_rect (Some rect) in
  let enlargement :=
    Rectangle.enlargement_needed er
      (Point.mk (Rectangle.min_x r) (Rectangle.min_y r) "" "") in
  if Binary64.ltb enlargement min_enlargement
  then Heap.ret (enlargement, Some (entry_rect, child_node))
  else Heap.ret (min_enlargement, best_entry).

(** Unpacking [best_entry] when it is still [None] raises [TypeError]. *)
Fixpoint _choose_leaf (fuel : nat) (node : nat) (rect : nat) : Heap.M nat :=
  match fuel with
  | O => Heap.raise
  | S fuel' =>
      let* nd := Heap.get_node node in
      if RTreeNode.is_leaf nd then Heap.ret node
      else
        let* best :=
          Heap.for_each (RTreeNode.entries nd) (scan_entry rect) (Binary64.inf, None) in
        match best.2 with
        | None => Heap.raise
        | Some (entry_rect, child_node) =>
            let* r := Heap.get_rect (Some rect) in
            Heap.update_rect entry_rect
              (Rectangle.expand_to_include
                 (Point.mk (Rectangle.min_x r) (Rectangle.min_y r) "" "")) ;;
            let* r := Heap.get_rect (Some rect) in
            Heap.update_rect entry_rect
              (Rectangle.expand_to_include
                 (Point.mk (Rectangle.max_x r) (Rectangle.max_y r) "" "")) ;;
            match child_node with
            | RTreeNode.DNode c => _choose_leaf fuel' c rect
            | RTreeNode.DPoint _ => Heap.raise
            end
        end
  end.

Definition _split_node (self : t) (node : nat) : Heap.M t :=
  let* nd := Heap.get_node node in
  let entries := RTreeNode.entries nd in
  let mid := (length entries / 2)%nat in
  let* new_node := Heap.new_node (RTreeNode.init (RTreeNode.is_leaf nd) (max_entries self)) in
  Heap.update_node new_node (RTreeNode.set_entries (drop mid entries)) ;;
  Heap.update_node node (RTreeNode.set_entries (take mid entries)) ;;
  calculate_mbr node ;;
  calculate_mbr new_node ;;
  if Nat.eqb node (root self) then
    let* new_root := Heap.new_node (RTreeNode.init false (max_entries self)) in
    let* nd := Heap.get_node node in
    let* nn := Heap.get_node new_node in
    Heap.update_node new_root
      (RTreeNode.set_entries
         [(RTreeNode.mbr nd, RTreeNode.DNode node);
          (RTreeNode.mbr nn, RTreeNode.DNode new_node)]) ;;
    calculate_mbr new_root ;;
    Heap.ret {| root := new_root; max_entries := max_entries self;
                size := size self; height := height self + 1 |}
  else Heap.ret self.

Definition insert (self : t) (point : Point.t) : Heap.M t :=
  let* rect := Heap.new_rect
    (Rectangle.mk (Point.x point) (Point.y point) (Point.x point) (Point.y point)) in
  let* fuel := Heap.depth_bound in
  let* leaf := _choose_leaf fuel (root self) rect in
  Heap.update_node leaf
    (fun nd => RTreeNode.set_entries
                 (RTreeNode.entries nd ++ [(Some rect, RTreeNode.DPoint point)]) nd) ;;
  calculate_mbr leaf ;;
  let self := {| root := root self; max_entries := max_entries self;
                 size := size self + 1; height := height self |} in
  let* nd := Heap.get_node leaf in
  if RTreeNode.is_full nd &&
     (Z.of_nat (length (RTreeNode.entries nd)) >? max_entries self)
  then _split_node self leaf
  else Heap.ret self.

End RTree.

(** ** Building an index, as [PerformanceAnalyzer.measure_insertion_time] *)
Definition insert_all (self : RTree.t) (points : list Point.t) : Heap.M RTree.t :=
  Heap.for_each points RTree.insert self.

Definition build (max_entries : Z) (points : list Point.t) : option (RTree.t * Heap.t) :=
  (let* rtree := RTree.init max_entries in insert_all rtree points) Heap.empty.

(** Points with the given integer coordinates, as floats. *)
Definition pt (x y : Z) : Point.t := Point.mk (Binary64.of_Z x) (Binary64.of_Z y) "" "".

Close Scope float_heap_scope.

End Float.

(** * Distances as [math.sqrt] rounds them

    On [int] coordinates [distance_to] computes the sum of squares exactly
    and passes it to [math.sqrt], which converts it to a float
    ([OverflowError] beyond the finite floats) and returns the square root
    rounded to binary64.  [knn_query] sorts by these floats. *)
Module Rounded.

Definition math_sqrt (v : Z) : option Binary64.float :=
  if v <? 0 then None
  else if Binary64.is_finite (Binary64.of_Z v)
       then Some (SFsqrt Binary64.prec Binary64.emax (Binary64.of_Z v))
       else None.

Definition distance_to (self other : Point.t) : option Binary64.float :=
  math_sqrt ((Point.x self - Point.x other) ^ 2 + (Point.y self - Point.y other) ^ 2).

Fixpoint sort_insert (e : Point.t * Binary64.float) (l : list (Point.t * Binary64.float))
    : list (Point.t * Binary64.float) :=
  match l with
  | [] => [e]
  | h :: l' => if Binary64.ltb h.2 e.2 then h :: sort_insert e l' else e :: h :: l'
  end.

Definition sort_by_distance (l : list (Point.t * Binary64.float))
    : list (Point.t * Binary64.float) :=
  foldr sort_insert [] l.

Definition knn_query (self : RTree.t) (query_point : Point.t) (k : Z)
    : Heap.M (list (Point.t * Binary64.float)) :=
  let* fuel := Heap.depth_bound in
  let* all_points := RTree._collect_all_points fuel (RTree.root self) [] in
  let* distances :=
    Heap.lift (mapM (fun p => d ← distance_to query_point p; Some (p, d)) all_points) in
  Heap.ret (RTree.slice_to k (sort_by_distance distances)).

End Rounded.

(** * Vocabulary of the specification and of the proofs *)

Definition well_formed (r : Rectangle.t) : Prop :=
  Rectangle.min_x r <= Rectangle.max_x r /\ Rectangle.min_y r <= Rectangle.max_y r.

Definition inverted (r : Rectangle.t) : Prop :=
  Rectangle.min_x r > Rectangle.max_x r \/ Rectangle.min_y r > Rectangle.max_y r.

(** The degenerate rectangle [insert] wraps a point in. *)
Definition point_rect (p : Point.t) : Rectangle.t :=
  Rectangle.mk (Point.x p) (Point.y p) (Point.x p) (Point.y p).


(** The rectangle an entry refers to, if any. *)
Definition rect_of (rs : list Rectangle.t) (e : RTreeNode.entry) : option Rectangle.t :=
  e.1 ≫= fun i => rs !! i.

(** [reads rs es vs]: the rectangle references of the entries [es] lead to
    the rectangles [vs] in the store [rs]. *)
Definition reads (rs : list Rectangle.t) (es : list RTreeNode.entry)
    (vs : list Rectangle.t) : Prop :=
  Forall2 (fun e v => rect_of rs e = Some v) es vs.

(** Component-wise minimum and maximum of a sequence of rectangles, as
    [calculate_mbr] computes them. *)
Definition bounding (vs : list Rectangle.t) : option Rectangle.t :=
  min_x ← py_min (Rectangle.min_x <$> vs);
  min_y ← py_min (Rectangle.min_y <$> vs);
  max_x ← py_max (Rectangle.max_x <$> vs);
  max_y ← py_max (Rectangle.max_y <$> vs);
  Some (Rectangle.mk min_x min_y max_x max_y).

(** The entries of a leaf whose points are [rps.*2], wrapped in the
    rectangle objects [rps.*1]. *)
Definition leaf_entries (rps : list (nat * Point.t)) : list RTreeNode.entry :=
  (fun rp => (Some rp.1, RTreeNode.DPoint rp.2)) <$> rps.

(** The rectangle object of a leaf entry is the degenerate rectangle of its
    point. *)
Definition stored (rs : list Rectangle.t) (rp : nat * Point.t) : Prop :=
  rs !! rp.1 = Some (point_rect rp.2).

(** The branch of [_split_node] that replaces the root. *)
Definition promote_root (self : RTree.t) (node new_node : nat) : Heap.M RTree.t :=
  let* new_root := Heap.new_node (RTreeNode.init false (RTree.max_entries self)) in
  let* nd := Heap.get_node node in
  let* nn := Heap.get_node new_node in
  Heap.update_node new_root
    (RTreeNode.set_entries
       [(RTreeNode.mbr nd, RTreeNode.DNode node);
        (RTreeNode.mbr nn, RTreeNode.DNode new_node)]) ;;
  calculate_mbr new_root ;;
  Heap.ret {| RTree.root := new_root; RTree.max_entries := RTree.max_entries self;
              RTree.size := RTree.size self; RTree.height := RTree.height self + 1 |}.

(** [insert] after the leaf has been chosen. *)
Definition insert_tail (self : RTree.t) (leaf rect : nat) (point : Point.t) : Heap.M RTree.t :=
  Heap.update_node leaf
    (fun nd => RTreeNode.set_entries
                 (RTreeNode.entries nd ++ [(Some rect, RTreeNode.DPoint point)]) nd) ;;
  calculate_mbr leaf ;;
  let self := {| RTree.root := RTree.root self; RTree.max_entries := RTree.max_entries self;
                 RTree.size := RTree.size self + 1; RTree.height := RTree.height self |} in
  let* nd := Heap.get_node leaf in
  if RTreeNode.is_full nd &&
     (Z.of_nat (length (RTreeNode.entries nd)) >? RTree.max_entries self)
  then RTree._split_node self leaf
  else Heap.ret self.

(** The tree object after one more point was counted. *)
Definition counted (t : RTree.t) : RTree.t :=
  {| RTree.root := RTree.root t; RTree.max_entries := RTree.max_entries t;
     RTree.size := RTree.size t + 1; RTree.height := RTree.height t |}.

Definition covers (b : Rectangle.t) (rps : list (nat * Point.t)) : Prop :=
  Forall (fun rp => Rectangle.contains_point b rp.2 = true) rps.

(** The point [_choose_leaf] passes to the rectangle methods. *)
Definition corner (p : Point.t) : Point.t := Point.mk (Point.x p) (Point.y p) "" "".

(** The entry rectangle after both calls of [expand_to_include]. *)
Definition expanded (p : Point.t) (r : Rectangle.t) : Rectangle.t :=
  Rectangle.expand_to_include (corner p) (Rectangle.expand_to_include (corner p) r).

(** The loop of [_choose_leaf] without the store: one step on an entry
    paired with the rectangle its reference leads to. *)
Definition scan_pure (p : Point.t) (acc : ext * option RTreeNode.entry)
    (ev : RTreeNode.entry * Rectangle.t) : ext * option RTreeNode.entry :=
  if lt_ext (Rectangle.enlargement_needed ev.2 p) acc.1
  then (Fin (Rectangle.enlargement_needed ev.2 p), Some ev.1)
  else acc.

(** What [_choose_leaf] does with the entry it selected: both in-place
    expansions of the entry's rectangle, then the call on the entry's child
    alone. *)
Definition descend (fuel : nat) (rect : nat) (e : RTreeNode.entry) : Heap.M nat :=
  let '(entry_rect, child_node) := e in
  let* r := Heap.get_rect (Some rect) in
  Heap.update_rect entry_rect
    (Rectangle.expand_to_include
       (Point.mk (Rectangle.min_x r) (Rectangle.min_y r) "" "")) ;;
  let* r := Heap.get_rect (Some rect) in
  Heap.update_rect entry_rect
    (Rectangle.expand_to_include
       (Point.mk (Rectangle.max_x r) (Rectangle.max_y r) "" "")) ;;
  match child_node with
  | RTreeNode.DNode c => RTree._choose_leaf fuel c rect
  | RTreeNode.DPoint _ => Heap.raise
  end.

(** The two shapes a tree built by insertions can have: a single leaf, or
    an internal root (object 2) over the two leaves (objects 0 and 1) made
    by the only split that is ever attached.  The last index lists the
    points the leaves hold, in the order of the entries. *)
Inductive shape (M : Z) : RTree.t -> Heap.t -> list Point.t -> Prop :=
| shape_leaf sz rps m rs :
    Forall (stored rs) rps ->
    shape M (RTree.mk 0 M sz 1)
      (Heap.mk [RTreeNode.mk true M (leaf_entries rps) m] rs)
      rps.*2
| shape_split sz rpsA rpsB mA mB mR ra rb Ra Rb rest rs :
    Forall (stored rs) rpsA -> Forall (stored rs) rpsB ->
    rs !! ra = Some Ra -> rs !! rb = Some Rb ->
    Forall (fun rp => rp.1 <> ra /\ rp.1 <> rb) (rpsA ++ rpsB) ->
    covers Ra rpsA -> covers Rb rpsB ->
    shape M (RTree.mk 2 M sz 2)
      (Heap.mk
         (RTreeNode.mk true M (leaf_entries rpsA) mA ::
          RTreeNode.mk true M (leaf_entries rpsB) mB ::
          RTreeNode.mk false M
            [(Some ra, RTreeNode.DNode 0%nat); (Some rb, RTreeNode.DNode 1%nat)] mR ::
          rest)
         rs)
      (rpsA.*2 ++ rpsB.*2).


(** A store to try the operations on: the index of three points with
    capacity 2, whose root has just been promoted. *)
Definition three_points : list Point.t := [pt 0 0; pt 1 1; pt 2 2].

Definition three_nodes : list RTreeNode.t :=
  Eval vm_compute in
    match build 2 three_points with Some (_, h) => Heap.nodes h | None => [] end.

Definition three_rects : list Rectangle.t :=
  Eval vm_compute in
    match build 2 three_points with Some (_, h) => Heap.rects h | None => [] end.

Definition three_tree : RTree.t := RTree.mk 2 2 3 2.

(** [refers_to c nd]: some entry of [nd] holds the node object [c]. *)
Definition refers_to (c : nat) (nd : RTreeNode.t) : bool :=
  existsb (fun e : RTreeNode.entry =>
             match e.2 with RTreeNode.DNode c' => Nat.eqb c' c | RTreeNode.DPoint _ => false end)
          (RTreeNode.entries nd).

(** Every node object an entry holds exists: true of every Python heap. *)
Definition closed (ns : list RTreeNode.t) : bool :=
  forallb (fun nd =>
             forallb (fun e : RTreeNode.entry =>
                        match e.2 with
                        | RTreeNode.DNode c => Nat.ltb c (length ns)
                        | RTreeNode.DPoint _ => true
                        end)
                     (RTreeNode.entries nd))
          ns.

(** Node [b] can be reached from node [a] through entries. *)
Inductive reachable (h : Heap.t) (a : nat) : nat -> Prop :=
| reach_here : reachable h a a
| reach_child b c nd :
    reachable h a b -> Heap.nodes h !! b = Some nd -> refers_to c nd = true ->
    reachable h a c.

(** The point [p] is held by an entry of a node reachable from node [a]. *)
Definition point_reachable (h : Heap.t) (a : nat) (p : Point.t) : Prop :=
  exists (n : nat) (nd : RTreeNode.t) (r : option nat),
    reachable h a n /\ Heap.nodes h !! n = Some nd /\
    (r, RTreeNode.DPoint p) ∈ RTreeNode.entries nd.

(** The rectangle [nd.mbr] refers to. *)
Definition cached_mbr (h : Heap.t) (nd : RTreeNode.t) : option Rectangle.t :=
  RTreeNode.mbr nd ≫= fun i => Heap.rects h !! i.

(** The component-wise minimum and maximum over the rectangles of the
    entries of [nd], as they are now. *)
Definition entries_bound (h : Heap.t) (nd : RTreeNode.t) : option Rectangle.t :=
  mapM (rect_of (Heap.rects h)) (RTreeNode.entries nd) ≫= bounding.

(** [encloses a b]: the rectangle [a] reaches at least as far as [b] on
    all four sides. *)
Definition encloses (a b : Rectangle.t) : Prop :=
  Rectangle.min_x a <= Rectangle.min_x b /\ Rectangle.min_y a <= Rectangle.min_y b /\
  Rectangle.max_x b <= Rectangle.max_x a /\ Rectangle.max_y b <= Rectangle.max_y a.

(** The store is the same and the list was only appended to, by elements
    that satisfy [P]. *)
Definition appended (P : Point.t -> Prop) (x y : list Point.t * Heap.t) : Prop :=
  y.2 = x.2 /\ exists found, y.1 = x.1 ++ found /\ Forall P found.

(** [grown h h']: the node objects are the same, and the rectangle objects
    are the same in number and each encloses what it was. *)
Definition grown (h h' : Heap.t) : Prop :=
  Heap.nodes h' = Heap.nodes h /\
  Forall2 (fun r r' => encloses r' r) (Heap.rects h) (Heap.rects h').

(** The store did not change. *)
Definition same_store {B} (x y : B * Heap.t) : Prop := y.2 = x.2.

(** What a leaf below the root holds after an insertion chose it: all its
    entries and the new one, or their first half when that overflows. *)
Definition after_insert (M : Z) (rps : list (nat * Point.t)) (rect : nat) (p : Point.t)
    : list (nat * Point.t) :=
  let rps1 := rps ++ [(rect, p)] in
  if Z.of_nat (length rps1) <=? M then rps1 else take (length rps1 / 2) rps1.

(** The second shape, with the entries of the two leaves named. *)
Definition split_state (M : Z) (rpsA rpsB : list (nat * Point.t))
    (t : RTree.t) (h : Heap.t) : Prop :=
  exists sz mA mB mR ra rb Ra Rb rest rs,
    t = RTree.mk 2 M sz 2 /\
    h = Heap.mk
          (RTreeNode.mk true M (leaf_entries rpsA) mA ::
           RTreeNode.mk true M (leaf_entries rpsB) mB ::
           RTreeNode.mk false M
             [(Some ra, RTreeNode.DNode 0%nat); (Some rb, RTreeNode.DNode 1%nat)] mR ::
           rest)
          rs /\
    Forall (stored rs) rpsA /\ Forall (stored rs) rpsB /\
    rs !! ra = Some Ra /\ rs !! rb = Some Rb /\
    Forall (fun rp => rp.1 <> ra /\ rp.1 <> rb) (rpsA ++ rpsB) /\
    covers Ra rpsA /\ covers Rb rpsB.

(** The items of a dict in strictly ascending order of their keys. *)
Definition ascending (items : GeoSpatialGUI.dict) : Prop :=
  StronglySorted (fun a b => String.ltb a.1 b.1 = true) items.

(** The points of one category, in the order of the list. *)
Definition of_category (c : string) (ps : list Point.t) : list Point.t :=
  List.filter (fun p => String.eqb c (Point.category p)) ps.

(** What the loop over [results] keeps of [by_category]: distinct keys,
    under each key the points of that category in their order, no key
    without a point and no point without its key. *)
Definition grouped (results : list Point.t) (d : GeoSpatialGUI.dict) : Prop :=
  NoDup d.*1 /\
  Forall (fun it => it.2 = of_category it.1 results /\ it.2 <> []) d /\
  (forall p, p ∈ results -> Point.category p ∈ d.*1) /\
  concat d.*2 ≡ₚ results.


(** * Properties *)

(** ** The scenarios of the specification *)

Example scenario_five_points :
  exists t h nd,
    build 4 [pt 0 0; pt 1 1; pt 2 2; pt 3 3; pt 4 4] = Some (t, h) /\
    RTree.size t = 5 /\ RTree.height t = 2 /\
    Heap.nodes h !! RTree.root t = Some nd /\ RTreeNode.is_leaf nd = false.
Proof.
  destruct (build 4 _) as [[t h]|] eqn:Hb; vm_compute in Hb; [|discriminate].
  injection Hb as <- <-. by eexists _, _, _.
Qed.

Example scenario_range_query :
  run (fun t => RTree.range_query t (Rectangle.mk 0 0 2 2))
      (build 4 [pt 0 0; pt 1 1; pt 2 2; pt 3 3; pt 4 4])
  = Some [pt 0 0; pt 1 1; pt 2 2].
Proof. vm_compute. reflexivity. Qed.

Example scenario_knn_query :
  run (fun t => RTree.knn_query t (pt 0 0) 2)
      (build 4 [pt 0 0; pt 1 1; pt 2 2; pt 3 3; pt 4 4])
  = Some [(pt 0 0, Sqrt 0); (pt 1 1, Sqrt 2)].
Proof. vm_compute. reflexivity. Qed.

(** A split below the root: with capacity 2 the fourth insertion overflows
    the second leaf, and the points (2,2) and (5,5) moved to the new node
    are no longer found, while [size] counts them. *)
Example non_root_split_loses_points :
  run (fun t => let* fuel := Heap.depth_bound in
                let* all := RTree._collect_all_points fuel (RTree.root t) [] in
                Heap.ret (RTree.size t, all))
      (build 2 [pt 0 0; pt 1 1; pt 2 2; pt 5 5])
  = Some (4, [pt 0 0; pt 1 1]).
Proof. vm_compute. reflexivity. Qed.

(** ** Geometry *)

Lemma contains_point_spec r p :
  Rectangle.contains_point r p = true <->
  Rectangle.min_x r <= Point.x p <= Rectangle.max_x r /\
  Rectangle.min_y r <= Point.y p <= Rectangle.max_y r.
Proof.
  unfold Rectangle.contains_point.
  rewrite !andb_true_iff, !Z.leb_le. tauto.
Qed.

Lemma intersects_spec a b :
  Rectangle.intersects a b = true <->
  Rectangle.min_x a <= Rectangle.max_x b /\ Rectangle.min_x b <= Rectangle.max_x a /\
  Rectangle.min_y a <= Rectangle.max_y b /\ Rectangle.min_y b <= Rectangle.max_y a.
Proof.
  unfold Rectangle.intersects.
  rewrite negb_true_iff, !orb_false_iff, !Z.ltb_ge, !Z.gtb_ltb, !Z.ltb_ge. tauto.
Qed.

Lemma intersects_point_rect q p :
  Rectangle.intersects (point_rect p) q = Rectangle.contains_point q p.
Proof.
  apply eq_true_iff_eq. rewrite intersects_spec, contains_point_spec.
  simpl. tauto.
Qed.

Lemma contains_intersects r q p :
  Rectangle.contains_point r p = true ->
  Rectangle.contains_point q p = true ->
  Rectangle.intersects r q = true.
Proof.
  rewrite intersects_spec, !contains_point_spec. lia.
Qed.




(** C8 as stated fails: a rectangle inverted along x intersects a
    well-formed rectangle that spans both of its x bounds. *)
Lemma inverted_rectangle_intersects :
  let Q := Rectangle.mk 1 0 0 0 in
  let R := Rectangle.mk (-5) (-5) 5 5 in
  inverted Q /\ Rectangle.intersects Q R = true /\ Rectangle.intersects R Q = true.
Proof.
  unfold inverted. simpl. repeat split. left. lia.
Qed.

(** C8, amended: a rectangle [Q] inverted along an axis does not intersect a
    rectangle [R] whose extent along that axis is smaller than the gap
    between the swapped bounds of [Q]; in particular it intersects no
    degenerate (point) rectangle.  Both orders of the test agree. *)
Theorem inverted_never_intersects_narrow (Q R : Rectangle.t) :
  (Rectangle.min_x Q > Rectangle.max_x Q /\
   Rectangle.max_x R - Rectangle.min_x R < Rectangle.min_x Q - Rectangle.max_x Q) \/
  (Rectangle.min_y Q > Rectangle.max_y Q /\
   Rectangle.max_y R - Rectangle.min_y R < Rectangle.min_y Q - Rectangle.max_y Q) ->
  Rectangle.intersects Q R = false /\ Rectangle.intersects R Q = false.
Proof.
  intros H. split; apply not_true_is_false; rewrite intersects_spec; lia.
Qed.

Lemma inverted_never_intersects_narrow_witness :
  Rectangle.intersects (Rectangle.mk 4 0 1 9) (Rectangle.mk 2 3 3 5) = false /\
  Rectangle.intersects (Rectangle.mk 2 3 3 5) (Rectangle.mk 4 0 1 9) = false.
Proof.
  apply inverted_never_intersects_narrow. left. simpl. lia.
Defined.

(** ** Distances and the sort of [knn_query] *)



Lemma sort_insert_perm e l : RTree.sort_insert e l ≡ₚ e :: l.
Proof.
  induction l as [|h l IH]; simpl; [done|].
  destruct (surd_ltb h.2 e.2); [|done].
  rewrite IH. apply Permutation_swap.
Qed.

Lemma sort_by_distance_perm l : RTree.sort_by_distance l ≡ₚ l.
Proof.
  induction l as [|e l IH]; simpl; [done|].
  by rewrite sort_insert_perm, IH.
Qed.



(** The sort is stable: pairs of equal distance keep their order. *)
Lemma sort_insert_stable (v : Z) e l :
  filter (fun a : Point.t * surd => radicand a.2 = v) (RTree.sort_insert e l) =
  filter (fun a : Point.t * surd => radicand a.2 = v) (e :: l).
Proof.
  induction l as [|h l IH]; simpl; [done|].
  unfold surd_ltb. destruct (Z.ltb_spec (radicand h.2) (radicand e.2)) as [Hlt|Hge]; [|done].
  rewrite !filter_cons, IH, !filter_cons.
  repeat case_decide; try done; lia.
Qed.

Lemma sort_by_distance_stable (v : Z) l :
  filter (fun a : Point.t * surd => radicand a.2 = v) (RTree.sort_by_distance l) =
  filter (fun a : Point.t * surd => radicand a.2 = v) l.
Proof.
  induction l as [|e l IH]; simpl; [done|].
  rewrite sort_insert_stable, !filter_cons, IH. done.
Qed.

(** ** The store: loops and [calculate_mbr] *)

Lemma bind_run {A B} (m : Heap.M A) (k : A -> Heap.M B) h a h' :
  m h = Some (a, h') -> Heap.bind m k h = k a h'.
Proof. unfold Heap.bind. by intros ->. Qed.

Lemma run_ret {A B} (a : A) (k : A -> Heap.M B) h : Heap.bind (Heap.ret a) k h = k a h.
Proof. done. Qed.

Lemma bind_assoc {A B C} (m : Heap.M A) (f : A -> Heap.M B) (g : B -> Heap.M C) h :
  Heap.bind (Heap.bind m f) g h = Heap.bind m (fun a => Heap.bind (f a) g) h.
Proof. unfold Heap.bind. by destruct (m h) as [[a h']|]. Qed.

Lemma for_each_app {A B} (l1 l2 : list A) (body : B -> A -> Heap.M B) acc h :
  Heap.for_each (l1 ++ l2) body acc h =
  Heap.bind (Heap.for_each l1 body acc) (Heap.for_each l2 body) h.
Proof.
  revert acc h. induction l1 as [|a l1 IH]; intros acc h; simpl; [done|].
  rewrite bind_assoc. unfold Heap.bind at 1 2.
  destruct (body acc a h) as [[b h']|]; [|done].
  apply IH.
Qed.

Lemma entry_rects_acc ns rs es vs acc :
  reads rs es vs ->
  Heap.for_each es
    (fun acc e => let* r := Heap.get_rect e.1 in Heap.ret (acc ++ [r])) acc (Heap.mk ns rs)
  = Some (acc ++ vs, Heap.mk ns rs).
Proof.
  intros H. revert acc. induction H as [|e v es vs He _ IH]; intros acc; simpl.
  - by rewrite app_nil_r.
  - unfold rect_of in He. unfold Heap.bind at 1 2, Heap.get_rect. simpl. rewrite He. simpl.
    rewrite IH. by rewrite <- app_assoc.
Qed.

Lemma entry_rects_spec ns rs es vs :
  reads rs es vs -> entry_rects es (Heap.mk ns rs) = Some (vs, Heap.mk ns rs).
Proof. intros H. unfold entry_rects. by rewrite (entry_rects_acc _ _ _ vs). Qed.

Lemma bounding_cons v vs : is_Some (bounding (v :: vs)).
Proof. by eexists. Qed.

Lemma foldl_min_le a l : foldl Z.min a l <= a /\ Forall (fun b => foldl Z.min a l <= b) l.
Proof.
  revert a. induction l as [|b l IH]; intros a; simpl; [split; [lia|constructor]|].
  destruct (IH (Z.min a b)) as [H1 H2]. split; [lia|].
  constructor; [lia|done].
Qed.

Lemma foldl_max_ge a l : a <= foldl Z.max a l /\ Forall (fun b => b <= foldl Z.max a l) l.
Proof.
  revert a. induction l as [|b l IH]; intros a; simpl; [split; [lia|constructor]|].
  destruct (IH (Z.max a b)) as [H1 H2]. split; [lia|].
  constructor; [lia|done].
Qed.

Lemma py_min_le l m a : py_min l = Some m -> a ∈ l -> m <= a.
Proof.
  destruct l as [|b l]; [done|]. intros [= <-] Hin.
  destruct (foldl_min_le b l) as [H1 H2].
  apply elem_of_cons in Hin as [->|Hin]; [done|].
  by eapply Forall_forall in H2.
Qed.

Lemma py_max_ge l m a : py_max l = Some m -> a ∈ l -> a <= m.
Proof.
  destruct l as [|b l]; [done|]. intros [= <-] Hin.
  destruct (foldl_max_ge b l) as [H1 H2].
  apply elem_of_cons in Hin as [->|Hin]; [done|].
  by eapply Forall_forall in H2.
Qed.

Lemma bounding_covers vs b v p :
  bounding vs = Some b -> v ∈ vs ->
  Rectangle.contains_point v p = true -> Rectangle.contains_point b p = true.
Proof.
  unfold bounding. intros Hb Hin. simplify_option_eq.
  rewrite !contains_point_spec. simpl. intros Hv.
  pose proof (py_min_le _ _ (Rectangle.min_x v) Heqo ltac:(by apply list_elem_of_fmap_2)).
  pose proof (py_min_le _ _ (Rectangle.min_y v) Heqo0 ltac:(by apply list_elem_of_fmap_2)).
  pose proof (py_max_ge _ _ (Rectangle.max_x v) Heqo1 ltac:(by apply list_elem_of_fmap_2)).
  pose proof (py_max_ge _ _ (Rectangle.max_y v) Heqo2 ltac:(by apply list_elem_of_fmap_2)).
  lia.
Qed.

Lemma calculate_mbr_empty ns rs n nd :
  ns !! n = Some nd -> RTreeNode.entries nd = [] ->
  calculate_mbr n (Heap.mk ns rs) = Some (tt, Heap.mk ns rs).
Proof.
  intros Hn He. unfold calculate_mbr, Heap.bind, Heap.get_node. simpl.
  rewrite Hn. simpl. by rewrite He.
Qed.

Lemma calculate_mbr_spec ns rs n nd vs :
  ns !! n = Some nd -> RTreeNode.entries nd <> [] -> reads rs (RTreeNode.entries nd) vs ->
  exists b, bounding vs = Some b /\
    calculate_mbr n (Heap.mk ns rs) =
    Some (tt, Heap.mk (<[n := RTreeNode.set_mbr (Some (length rs)) nd]> ns) (rs ++ [b])).
Proof.
  intros Hn He Hr.
  assert (exists v vs', vs = v :: vs') as (v & vs' & ->).
  { destruct Hr; [done|eauto]. }
  destruct (bounding_cons v vs') as [b Hb]. exists b. split; [done|].
  unfold calculate_mbr, Heap.bind at 1, Heap.get_node. simpl. rewrite Hn. simpl.
  destruct (RTreeNode.entries nd) as [|e es] eqn:Hes; [done|].
  erewrite bind_run; [|by apply entry_rects_spec].
  unfold bounding in Hb. simplify_option_eq.
  unfold Heap.bind, Heap.update_node. simpl. by rewrite Hn.
Qed.

(** ** Shape of the trees that insertion builds *)

Lemma stored_app rs rs' rp : stored rs rp -> stored (rs ++ rs') rp.
Proof.
  unfold stored. intros H. rewrite lookup_app_l; [done|]. by eapply lookup_lt_Some.
Qed.

Lemma stored_insert rs i v rp : rp.1 <> i -> stored rs rp -> stored (<[i := v]> rs) rp.
Proof. unfold stored. intros Hne H. by rewrite list_lookup_insert_ne. Qed.

Lemma reads_leaf rs rps :
  Forall (stored rs) rps -> reads rs (leaf_entries rps) (point_rect <$> rps.*2).
Proof.
  induction 1 as [|rp rps H _ IH]; simpl; [constructor|].
  constructor; [|done]. simpl. exact H.
Qed.

Lemma leaf_entries_app rps rps' :
  leaf_entries (rps ++ rps') = leaf_entries rps ++ leaf_entries rps'.
Proof. unfold leaf_entries. by rewrite fmap_app. Qed.

Lemma leaf_entries_take k rps : take k (leaf_entries rps) = leaf_entries (take k rps).
Proof. unfold leaf_entries. by rewrite fmap_take. Qed.

Lemma leaf_entries_drop k rps : drop k (leaf_entries rps) = leaf_entries (drop k rps).
Proof. unfold leaf_entries. by rewrite fmap_drop. Qed.

Lemma leaf_entries_length rps : length (leaf_entries rps) = length rps.
Proof. unfold leaf_entries. by rewrite length_fmap. Qed.

Lemma set_mbr_id nd : RTreeNode.set_mbr (RTreeNode.mbr nd) nd = nd.
Proof. by destruct nd. Qed.

(** What [calculate_mbr] leaves behind, in both of its branches. *)
Lemma calculate_mbr_post ns rs n nd vs :
  ns !! n = Some nd -> reads rs (RTreeNode.entries nd) vs ->
  exists m rs',
    calculate_mbr n (Heap.mk ns rs) =
      Some (tt, Heap.mk (<[n := RTreeNode.set_mbr m nd]> ns) (rs ++ rs')) /\
    ((RTreeNode.entries nd = [] /\ m = RTreeNode.mbr nd /\ rs' = []) \/
     (RTreeNode.entries nd <> [] /\
      exists b, bounding vs = Some b /\ m = Some (length rs) /\ rs' = [b])).
Proof.
  intros Hn Hr. destruct (RTreeNode.entries nd) as [|e es] eqn:He.
  - exists (RTreeNode.mbr nd), []. split; [|by left].
    rewrite set_mbr_id, list_insert_id, app_nil_r by done.
    by eapply calculate_mbr_empty.
  - destruct (calculate_mbr_spec ns rs n nd vs) as (b & Hb & Hc); [done|by rewrite He|by rewrite He|].
    exists (Some (length rs)), [b]. split; [done|]. right. split; [done|]. by exists b.
Qed.

(** *** One step of a computation at a time *)

Section Steps.
Context {B : Type}.
Variables (ns : list RTreeNode.t) (rs : list Rectangle.t).
Variable k_node : RTreeNode.t -> Heap.M B.
Variable k_unit : unit -> Heap.M B.
Variable k_ref : nat -> Heap.M B.
Variable k_rect : Rectangle.t -> Heap.M B.

Lemma run_get_node n nd :
  ns !! n = Some nd ->
  Heap.bind (Heap.get_node n) k_node (Heap.mk ns rs) = k_node nd (Heap.mk ns rs).
Proof. intros H. apply bind_run. unfold Heap.get_node. simpl. by rewrite H. Qed.

Lemma run_update_node n f nd :
  ns !! n = Some nd ->
  Heap.bind (Heap.update_node n f) k_unit (Heap.mk ns rs) =
  k_unit tt (Heap.mk (<[n := f nd]> ns) rs).
Proof. intros H. apply bind_run. unfold Heap.update_node. simpl. by rewrite H. Qed.

Lemma run_new_node nd :
  Heap.bind (Heap.new_node nd) k_ref (Heap.mk ns rs) =
  k_ref (length ns) (Heap.mk (ns ++ [nd]) rs).
Proof. done. Qed.

Lemma run_get_rect r v :
  rs !! r = Some v ->
  Heap.bind (Heap.get_rect (Some r)) k_rect (Heap.mk ns rs) = k_rect v (Heap.mk ns rs).
Proof. intros H. apply bind_run. unfold Heap.get_rect. simpl. by rewrite H. Qed.

Lemma run_update_rect r f v :
  rs !! r = Some v ->
  Heap.bind (Heap.update_rect (Some r) f) k_unit (Heap.mk ns rs) =
  k_unit tt (Heap.mk ns (<[r := f v]> rs)).
Proof. intros H. apply bind_run. unfold Heap.update_rect. simpl. by rewrite H. Qed.

Lemma run_new_rect v :
  Heap.bind (Heap.new_rect v) k_ref (Heap.mk ns rs) =
  k_ref (length rs) (Heap.mk ns (rs ++ [v])).
Proof. done. Qed.

Lemma run_depth_bound :
  Heap.bind Heap.depth_bound k_ref (Heap.mk ns rs) = k_ref (length ns) (Heap.mk ns rs).
Proof. done. Qed.
End Steps.

Lemma insert_last {A} (l : list A) (x y : A) : <[length l := y]> (l ++ [x]) = l ++ [y].
Proof. rewrite insert_app_r_alt by lia. by rewrite Nat.sub_diag. Qed.

Lemma lookup_last {A} (l : list A) (x : A) : (l ++ [x]) !! length l = Some x.
Proof. by apply list_lookup_middle. Qed.

Lemma reads_app rs rs' es vs : reads rs es vs -> reads (rs ++ rs') es vs.
Proof.
  unfold reads, rect_of. intros H0. eapply Forall2_impl; [exact H0|].
  intros [[i|] d] v; simpl; [|done].
  intros H. rewrite lookup_app_l; [done|]. by eapply lookup_lt_Some.
Qed.

(** [_split_node] up to its test [node == self.root]: the node keeps the
    first half of its entries and a new node, allocated last, holds the
    second half. *)
Lemma split_node_halves t ns rs node nd vs :
  ns !! node = Some nd -> reads rs (RTreeNode.entries nd) vs ->
  let es := RTreeNode.entries nd in
  let mid := (length es / 2)%nat in
  exists m1 m2 rs',
    RTree._split_node t node (Heap.mk ns rs) =
      (if Nat.eqb node (RTree.root t) then promote_root t node (length ns) else Heap.ret t)
        (Heap.mk
           (<[node := RTreeNode.mk (RTreeNode.is_leaf nd) (RTreeNode.max_entries nd) (take mid es) m1]> ns
            ++ [RTreeNode.mk (RTreeNode.is_leaf nd) (RTree.max_entries t) (drop mid es) m2])
           (rs ++ rs')) /\
    ((take mid es = [] /\ m1 = RTreeNode.mbr nd) \/
     (exists i b, m1 = Some i /\ bounding (take mid vs) = Some b /\
                  (rs ++ rs') !! i = Some b /\ (length rs <= i)%nat)) /\
    ((drop mid es = [] /\ m2 = None) \/
     (exists i b, m2 = Some i /\ bounding (drop mid vs) = Some b /\
                  (rs ++ rs') !! i = Some b /\ (length rs <= i)%nat)).
Proof.
  intros Hn Hr es mid.
  pose proof (lookup_lt_Some _ _ _ Hn) as Hlt.
  set (nd1 := RTreeNode.set_entries (take mid es) nd).
  set (sib := RTreeNode.set_entries (drop mid es)
                (RTreeNode.init (RTreeNode.is_leaf nd) (RTree.max_entries t))).
  set (ns1 := <[node := nd1]> ns ++ [sib]).
  assert (Hn1 : ns1 !! node = Some nd1).
  { subst ns1. rewrite lookup_app_l by (by rewrite length_insert).
    by apply list_lookup_insert_eq. }
  destruct (calculate_mbr_post ns1 rs node nd1 (take mid vs) Hn1)
    as (m1 & rs1 & Hc1 & Hm1); [by apply Forall2_take|].
  set (ns2 := <[node := RTreeNode.set_mbr m1 nd1]> ns1) in *.
  assert (Hn2 : ns2 !! length ns = Some sib).
  { subst ns2 ns1. rewrite list_lookup_insert_ne by lia.
    rewrite <- (length_insert ns node nd1). apply lookup_last. }
  destruct (calculate_mbr_post ns2 (rs ++ rs1) (length ns) sib (drop mid vs) Hn2)
    as (m2 & rs2 & Hc2 & Hm2); [by apply reads_app, Forall2_drop|].
  exists m1, m2, (rs1 ++ rs2). split; [|split].
  - unfold RTree._split_node.
    rewrite (run_get_node _ _ _ _ _ Hn), run_new_node.
    rewrite (run_update_node _ _ _ _ _ _ (lookup_last _ _)), insert_last.
    rewrite (run_update_node _ _ _ node _ nd) by (by rewrite lookup_app_l).
    rewrite insert_app_l by done. fold es mid nd1 sib ns1.
    rewrite (bind_run _ _ _ _ _ Hc1). fold ns2.
    replace (length (<[node:=nd1]> ns)) with (length ns) by (by rewrite length_insert).
    rewrite (bind_run _ _ _ _ _ Hc2).
    rewrite app_assoc. do 2 f_equal.
    subst ns2 ns1.
    rewrite insert_app_l by (by rewrite length_insert).
    rewrite list_insert_insert_eq.
    rewrite <- (length_insert ns node (RTreeNode.set_mbr m1 nd1)) at 1.
    rewrite insert_last.
    done.
  - destruct Hm1 as [(He & -> & _)|(He & b & Hb & -> & ->)]; [by left|right].
    exists (length rs), b. repeat split; [done| |lia].
    by apply (list_lookup_middle rs rs2 b).
  - destruct Hm2 as [(He & -> & _)|(He & b & Hb & -> & ->)]; [by left|right].
    exists (length (rs ++ rs1)), b. repeat split; [done| |rewrite length_app; lia].
    rewrite app_assoc. apply lookup_last.
Qed.

Lemma insert_unfold self point :
  RTree.insert self point =
  (let* rect := Heap.new_rect (point_rect point) in
   let* fuel := Heap.depth_bound in
   let* leaf := RTree._choose_leaf fuel (RTree.root self) rect in
   insert_tail self leaf rect point).
Proof. done. Qed.

Lemma contains_point_rect p : Rectangle.contains_point (point_rect p) p = true.
Proof. rewrite contains_point_spec. simpl. lia. Qed.

Lemma bounding_covers_points rps b :
  bounding (point_rect <$> rps.*2) = Some b -> covers b rps.
Proof.
  intros Hb. apply Forall_forall. intros rp Hin.
  eapply bounding_covers; [exact Hb| |apply contains_point_rect].
  apply list_elem_of_fmap_2. by apply list_elem_of_fmap_2.
Qed.

Lemma bounding_fmap_take k (rps : list (nat * Point.t)) :
  take k (point_rect <$> rps.*2) = point_rect <$> (take k rps).*2.
Proof. by rewrite <- !fmap_take. Qed.

Lemma bounding_fmap_drop k (rps : list (nat * Point.t)) :
  drop k (point_rect <$> rps.*2) = point_rect <$> (drop k rps).*2.
Proof. by rewrite <- !fmap_drop. Qed.

Lemma insert_tail_spec t ns rs leaf rect p rps m M :
  ns !! leaf = Some (RTreeNode.mk true M (leaf_entries rps) m) ->
  RTree.max_entries t = M ->
  Forall (stored rs) rps ->
  rs !! rect = Some (point_rect p) ->
  let rps1 := rps ++ [(rect, p)] in
  let mid := (length rps1 / 2)%nat in
  (Z.of_nat (length rps1) <= M /\
   exists b,
     insert_tail t leaf rect p (Heap.mk ns rs) =
     Some (counted t,
           Heap.mk (<[leaf := RTreeNode.mk true M (leaf_entries rps1) (Some (length rs))]> ns)
                   (rs ++ [b])))
  \/
  (M < Z.of_nat (length rps1) /\
   exists i1 b1 i2 b2 m2 rs',
     insert_tail t leaf rect p (Heap.mk ns rs) =
       (if Nat.eqb leaf (RTree.root t)
        then promote_root (counted t) leaf (length ns)
        else Heap.ret (counted t))
         (Heap.mk
            (<[leaf := RTreeNode.mk true M (leaf_entries (take mid rps1)) (Some i1)]> ns
             ++ [RTreeNode.mk true M (leaf_entries (drop mid rps1)) m2])
            (rs ++ rs')) /\
     (rs ++ rs') !! i1 = Some b1 /\ (length rs <= i1)%nat /\ covers b1 (take mid rps1) /\
     m2 = Some i2 /\
     (rs ++ rs') !! i2 = Some b2 /\ (length rs <= i2)%nat /\ covers b2 (drop mid rps1)).
Proof.
  intros Hn HM Hst Hrect rps1 mid.
  pose proof (lookup_lt_Some _ _ _ Hn) as Hlt.
  assert (Hst1 : Forall (stored rs) rps1).
  { apply Forall_app. split; [done|]. by constructor. }
  set (nd1 := RTreeNode.mk true M (leaf_entries rps1) m).
  set (vs := point_rect <$> rps1.*2).
  assert (Hne : RTreeNode.entries nd1 <> []).
  { simpl. unfold rps1. rewrite leaf_entries_app. by destruct (leaf_entries rps). }
  destruct (calculate_mbr_spec (<[leaf := nd1]> ns) rs leaf nd1 vs) as (b & Hb & Hc);
    [by apply list_lookup_insert_eq|done|by apply reads_leaf|].
  rewrite list_insert_insert_eq in Hc.
  set (nd2 := RTreeNode.mk true M (leaf_entries rps1) (Some (length rs))).
  change (RTreeNode.set_mbr (Some (length rs)) nd1) with nd2 in Hc.
  assert (Hrun : insert_tail t leaf rect p (Heap.mk ns rs) =
    (if RTreeNode.is_full nd2 &&
        (Z.of_nat (length (RTreeNode.entries nd2)) >? RTree.max_entries (counted t))
     then RTree._split_node (counted t) leaf
     else Heap.ret (counted t)) (Heap.mk (<[leaf := nd2]> ns) (rs ++ [b]))).
  { unfold insert_tail. rewrite (run_update_node _ _ _ _ _ _ Hn).
    cbv beta.
    replace (RTreeNode.set_entries _ _) with nd1
      by (unfold nd1, rps1; by rewrite leaf_entries_app).
    rewrite (bind_run _ _ _ _ _ Hc).
    cbv zeta. fold (counted t).
    by rewrite (run_get_node _ _ _ leaf nd2) by (by apply list_lookup_insert_eq). }
  assert (Hcond : RTreeNode.is_full nd2 &&
        (Z.of_nat (length (RTreeNode.entries nd2)) >? RTree.max_entries (counted t))
        = (M <? Z.of_nat (length rps1))).
  { unfold RTreeNode.is_full, nd2. simpl. rewrite leaf_entries_length, HM, Z.geb_leb, Z.gtb_ltb.
    destruct (Z.ltb_spec M (Z.of_nat (length rps1))), (Z.leb_spec M (Z.of_nat (length rps1)));
      simpl; done || lia. }
  rewrite Hrun, Hcond. clear Hrun Hcond.
  destruct (Z.ltb_spec M (Z.of_nat (length rps1))) as [Hgt|Hle].
  - right. split; [done|].
    destruct (split_node_halves (counted t) (<[leaf := nd2]> ns) (rs ++ [b]) leaf nd2 vs)
      as (m1 & m2 & rs' & Hs & Hm1 & Hm2);
      [by apply list_lookup_insert_eq|by apply reads_app, reads_leaf|].
    simpl RTreeNode.entries in *. simpl RTreeNode.is_leaf in *.
    simpl RTreeNode.max_entries in *. simpl RTree.root in *.
    rewrite leaf_entries_length, leaf_entries_take, leaf_entries_drop in *.
    fold mid in Hs, Hm1, Hm2.
    change (RTree.max_entries (counted t)) with (RTree.max_entries t) in Hs.
    change (RTree.root (counted t)) with (RTree.root t) in Hs.
    rewrite list_insert_insert_eq, length_insert, HM, <- app_assoc in Hs.
    unfold vs in Hm1, Hm2. rewrite bounding_fmap_take in Hm1. rewrite bounding_fmap_drop in Hm2.
    rewrite <- !app_assoc in Hm1, Hm2. rewrite !length_app in Hm1, Hm2.
    assert (exists i1 b1, m1 = Some i1 /\ (rs ++ [b] ++ rs') !! i1 = Some b1 /\
                          (length rs <= i1)%nat /\ covers b1 (take mid rps1))
      as (i1 & b1 & -> & Hi1 & Hge1 & Hcov1).
    { destruct Hm1 as [[He ->]|(i & b1 & -> & Hb1 & Hi & Hge)].
      - exists (length rs), b. split; [done|].
        split; [by apply (list_lookup_middle rs rs' b)|].
        split; [lia|].
        apply bounding_covers_points in Hb. by apply Forall_take.
      - exists i, b1. repeat split; [done|lia|by apply bounding_covers_points]. }
    assert (exists i2 b2, m2 = Some i2 /\ (rs ++ [b] ++ rs') !! i2 = Some b2 /\
                          (length rs <= i2)%nat /\ covers b2 (drop mid rps1))
      as (i2 & b2 & -> & Hi2 & Hge2 & Hcov2).
    { destruct Hm2 as [[He ->]|(i & b2 & -> & Hb2 & Hi & Hge)].
      - exfalso. apply (f_equal length) in He.
        rewrite leaf_entries_length, length_drop in He. simpl in He.
        assert (0 < length rps1)%nat by (unfold rps1; rewrite length_app; simpl; lia).
        pose proof (Nat.div_lt (length rps1) 2 ltac:(lia) ltac:(lia)). fold mid in H0. lia.
      - exists i, b2. repeat split; [done|lia|by apply bounding_covers_points]. }
    exists i1, b1, i2, b2, (Some i2), ([b] ++ rs').
    by repeat split.
  - left. split; [done|]. by exists b.
Qed.

Lemma expanded_contains p r : Rectangle.contains_point (expanded p r) p = true.
Proof. rewrite contains_point_spec. simpl. lia. Qed.

Lemma expanded_mono p r q :
  Rectangle.contains_point r q = true -> Rectangle.contains_point (expanded p r) q = true.
Proof. rewrite !contains_point_spec. simpl. lia. Qed.

(** *** Leaf selection *)

Lemma choose_leaf_S fuel node rect :
  RTree._choose_leaf (S fuel) node rect =
  (let* nd := Heap.get_node node in
   if RTreeNode.is_leaf nd then Heap.ret node
   else
     let* best := Heap.for_each (RTreeNode.entries nd) (RTree.scan_entry rect) (Inf, None) in
     match best.2 with
     | None => Heap.raise
     | Some e => descend fuel rect e
     end).
Proof. done. Qed.

Lemma choose_leaf_leaf fuel ns rs node nd rect :
  ns !! node = Some nd -> RTreeNode.is_leaf nd = true ->
  RTree._choose_leaf (S fuel) node rect (Heap.mk ns rs) = Some (node, Heap.mk ns rs).
Proof.
  intros Hn Hl. rewrite choose_leaf_S, (run_get_node _ _ _ _ _ Hn). by rewrite Hl.
Qed.

Lemma scan_loop ns rs rect q es vs acc :
  reads rs es vs -> rs !! rect = Some q ->
  Heap.for_each es (RTree.scan_entry rect) acc (Heap.mk ns rs) =
  Some (foldl (scan_pure (Point.mk (Rectangle.min_x q) (Rectangle.min_y q) "" "")) acc
          (zip es vs),
        Heap.mk ns rs).
Proof.
  intros Hr Hq. revert acc.
  induction Hr as [|[er cd] v es vs He _ IH]; intros [m best]; [done|].
  cbn [Heap.for_each zip zip_with foldl]. unfold RTree.scan_entry at 1.
  unfold rect_of in He. destruct er as [er|]; [|done]. simpl in He.
  rewrite bind_assoc, (run_get_rect _ _ _ _ _ He).
  rewrite bind_assoc, (run_get_rect _ _ _ _ _ Hq).
  unfold scan_pure at 2. simpl fst. simpl snd.
  destruct (lt_ext _ m); rewrite (bind_run _ _ _ _ _ eq_refl); apply IH.
Qed.

(** The loop keeps the first entry among those of least enlargement. *)
Lemma scan_first_min p (l : list (RTreeNode.entry * Rectangle.t)) :
  let enl (v : Rectangle.t) := Rectangle.enlargement_needed v p in
  (l = [] /\ foldl (scan_pure p) (Inf, None) l = (Inf, None)) \/
  exists i e v,
    l !! i = Some (e, v) /\
    foldl (scan_pure p) (Inf, None) l = (Fin (enl v), Some e) /\
    (forall j e' w, l !! j = Some (e', w) -> enl v <= enl w) /\
    (forall j e' w, (j < i)%nat -> l !! j = Some (e', w) -> enl v < enl w).
Proof.
  intros enl. induction l as [|[e' w] l IH] using rev_ind; [by left|].
  right. rewrite foldl_snoc.
  destruct IH as [[-> ->]|(i & e & v & Hi & -> & Hmin & Hfirst)].
  - exists 0%nat, e', w. repeat split; [|intros; lia].
    intros [|j] e'' w' Hj; [|done]. simpl in Hj. injection Hj as <- <-. lia.
  - unfold scan_pure at 1. simpl fst. simpl snd. cbn [lt_ext]. fold (enl w) (enl v).
    destruct (Z.ltb_spec (enl w) (enl v)) as [Hlt|Hge].
    + exists (length l), e', w. split; [apply lookup_last|]. split; [done|]. split.
      * intros j e'' w' Hj. apply lookup_snoc_Some in Hj as [[_ Hj]|[_ [= <- <-]]]; [|lia].
        specialize (Hmin _ _ _ Hj). lia.
      * intros j e'' w' Hlt' Hj. rewrite lookup_app_l in Hj by done.
        specialize (Hmin _ _ _ Hj). lia.
    + pose proof (lookup_lt_Some _ _ _ Hi) as Hlt.
      exists i, e, v. split; [by rewrite lookup_app_l|]. split; [done|]. split.
      * intros j e'' w' Hj. apply lookup_snoc_Some in Hj as [[_ Hj]|[_ [= <- <-]]]; [|lia].
        by eapply Hmin.
      * intros j e'' w' Hlt' Hj. rewrite lookup_app_l in Hj by lia. by eapply Hfirst.
Qed.

(** One step of [_choose_leaf] at an internal node. *)
Lemma choose_leaf_step fuel ns rs node nd rect q vs :
  ns !! node = Some nd -> RTreeNode.is_leaf nd = false ->
  RTreeNode.entries nd <> [] ->
  reads rs (RTreeNode.entries nd) vs -> rs !! rect = Some q ->
  let enl (v : Rectangle.t) :=
    Rectangle.enlargement_needed v
      (Point.mk (Rectangle.min_x q) (Rectangle.min_y q) "" "") in
  exists i e v,
    RTreeNode.entries nd !! i = Some e /\ vs !! i = Some v /\
    (forall j w, vs !! j = Some w -> enl v <= enl w) /\
    (forall j w, (j < i)%nat -> vs !! j = Some w -> enl v < enl w) /\
    RTree._choose_leaf (S fuel) node rect (Heap.mk ns rs) =
    descend fuel rect e (Heap.mk ns rs).
Proof.
  intros Hn Hl Hne Hr Hq enl.
  assert (Hlen : length (RTreeNode.entries nd) = length vs)
    by apply (Forall2_length _ _ _ Hr).
  destruct (scan_first_min (Point.mk (Rectangle.min_x q) (Rectangle.min_y q) "" "")
              (zip (RTreeNode.entries nd) vs))
    as [[Hnil _]|(i & e & v & Hi & Hfold & Hmin & Hfirst)].
  { apply (f_equal length) in Hnil. rewrite length_zip, <- Hlen, Nat.min_id in Hnil.
    by destruct (RTreeNode.entries nd). }
  apply lookup_zip_with_Some in Hi as (e0 & v0 & [= <- <-] & He & Hv).
  exists i, e, v. split; [done|]. split; [done|]. split; [|split].
  - intros j w Hj.
    destruct (lookup_lt_is_Some_2 (RTreeNode.entries nd) j) as [e' He'].
    { rewrite Hlen. by eapply lookup_lt_Some. }
    apply (Hmin j e' w). apply lookup_zip_with_Some. by exists e', w.
  - intros j w Hlt Hj.
    destruct (lookup_lt_is_Some_2 (RTreeNode.entries nd) j) as [e' He'].
    { rewrite Hlen. by eapply lookup_lt_Some. }
    apply (Hfirst j e' w Hlt). apply lookup_zip_with_Some. by exists e', w.
  - rewrite choose_leaf_S, (run_get_node _ _ _ _ _ Hn), Hl.
    rewrite (bind_run _ _ _ _ _ (scan_loop _ _ _ _ _ _ _ Hr Hq)). by rewrite Hfold.
Qed.

Lemma descend_spec fuel ns rs rect p er R c :
  rs !! rect = Some (point_rect p) -> rs !! er = Some R -> rect <> er ->
  descend fuel rect (Some er, RTreeNode.DNode c) (Heap.mk ns rs) =
  RTree._choose_leaf fuel c rect (Heap.mk ns (<[er := expanded p R]> rs)).
Proof.
  intros Hrect Her Hne. pose proof (lookup_lt_Some _ _ _ Her) as Hlt.
  unfold descend.
  rewrite (run_get_rect _ _ _ _ _ Hrect), (run_update_rect _ _ _ _ _ _ Her).
  rewrite (run_get_rect _ _ _ rect (point_rect p)) by (by rewrite list_lookup_insert_ne).
  rewrite (run_update_rect _ _ _ er _ (Rectangle.expand_to_include (corner p) R))
    by (by apply list_lookup_insert_eq).
  by rewrite list_insert_insert_eq.
Qed.

(** [_choose_leaf] at an internal root with two leaf children. *)
Lemma choose_leaf_two fuel ns rs rect p ra rb Ra Rb A B mR M rest :
  ns = A :: B :: RTreeNode.mk false M
         [(Some ra, RTreeNode.DNode 0%nat); (Some rb, RTreeNode.DNode 1%nat)] mR :: rest ->
  RTreeNode.is_leaf A = true -> RTreeNode.is_leaf B = true ->
  rs !! ra = Some Ra -> rs !! rb = Some Rb ->
  rs !! rect = Some (point_rect p) -> rect <> ra -> rect <> rb ->
  RTree._choose_leaf (S (S fuel)) 2 rect (Heap.mk ns rs) =
    Some (0%nat, Heap.mk ns (<[ra := expanded p Ra]> rs)) \/
  RTree._choose_leaf (S (S fuel)) 2 rect (Heap.mk ns rs) =
    Some (1%nat, Heap.mk ns (<[rb := expanded p Rb]> rs)).
Proof.
  intros -> HA HB Hra Hrb Hrect Hna Hnb.
  set (top := RTreeNode.mk false M
                [(Some ra, RTreeNode.DNode 0%nat); (Some rb, RTreeNode.DNode 1%nat)] mR).
  destruct (choose_leaf_step (S fuel) (A :: B :: top :: rest) rs 2%nat top rect
              (point_rect p) [Ra; Rb])
    as (i & e & v & He & Hv & _ & _ & Heq); [done|done|done| |done|].
  { repeat constructor; simpl; done. }
  rewrite Heq. clear Heq.
  destruct i as [|[|i]]; [| |done]; simpl in He, Hv;
    injection He as <-; injection Hv as <-.
  - left. rewrite (descend_spec _ _ _ _ p ra Ra) by done.
    by apply (choose_leaf_leaf _ _ _ _ A).
  - right. rewrite (descend_spec _ _ _ _ p rb Rb) by done.
    by apply (choose_leaf_leaf _ _ _ _ B).
Qed.

Lemma insert_tail_nonroot t ns rs leaf rect p rps m M :
  ns !! leaf = Some (RTreeNode.mk true M (leaf_entries rps) m) ->
  RTree.max_entries t = M ->
  Forall (stored rs) rps ->
  rs !! rect = Some (point_rect p) ->
  leaf <> RTree.root t ->
  exists k m' more rs',
    insert_tail t leaf rect p (Heap.mk ns rs) =
    Some (counted t,
          Heap.mk (<[leaf := RTreeNode.mk true M
                               (leaf_entries (take k (rps ++ [(rect, p)]))) m']> ns ++ more)
                  (rs ++ rs')).
Proof.
  intros Hn HM Hst Hrect Hne.
  destruct (insert_tail_spec t ns rs leaf rect p rps m M Hn HM Hst Hrect)
    as [(_ & b & ->)|(_ & i1 & b1 & i2 & b2 & m2 & rs' & -> & _)].
  - exists (length (rps ++ [(rect, p)])), (Some (length rs)), [], [b].
    by rewrite firstn_all, app_nil_r.
  - apply Nat.eqb_neq in Hne. rewrite Hne. by eexists _, _, _, _.
Qed.

Lemma promote_root_spec t A B i1 i2 b1 b2 rs :
  RTreeNode.mbr A = Some i1 -> RTreeNode.mbr B = Some i2 ->
  rs !! i1 = Some b1 -> rs !! i2 = Some b2 ->
  exists b,
    promote_root t 0 1 (Heap.mk [A; B] rs) =
    Some ({| RTree.root := 2; RTree.max_entries := RTree.max_entries t;
             RTree.size := RTree.size t; RTree.height := RTree.height t + 1 |},
          Heap.mk [A; B;
                   RTreeNode.mk false (RTree.max_entries t)
                     [(Some i1, RTreeNode.DNode 0%nat); (Some i2, RTreeNode.DNode 1%nat)]
                     (Some (length rs))]
                  (rs ++ [b])).
Proof.
  intros HA HB H1 H2.
  set (top := RTreeNode.mk false (RTree.max_entries t)
                [(Some i1, RTreeNode.DNode 0%nat); (Some i2, RTreeNode.DNode 1%nat)] None).
  destruct (calculate_mbr_spec [A; B; top] rs 2 top [b1; b2]) as (b & _ & Hc);
    [done|done| |].
  { repeat constructor; simpl; done. }
  exists b. unfold promote_root.
  rewrite run_new_node.
  erewrite (run_get_node _ _ _ 0%nat A) by reflexivity.
  erewrite (run_get_node _ _ _ 1%nat B) by reflexivity.
  erewrite (run_update_node _ _ _ 2%nat) by reflexivity. rewrite HA, HB.
  by rewrite (bind_run _ _ _ _ _ Hc).
Qed.

Lemma shape_init M : exists t h, RTree.init M Heap.empty = Some (t, h) /\ shape M t h [] /\
  RTree.size t = 0 /\ RTree.height t = 1.
Proof.
  eexists _, _. split; [reflexivity|]. split; [|done].
  apply (shape_leaf M 0 [] None []). constructor.
Qed.

(** An insertion into a tree that is a single leaf: the leaf takes the
    entry, and is split under a new root when it overflows. *)
Lemma insert_leaf_run M sz rps m rs p :
  Forall (stored rs) rps ->
  let rps1 := rps ++ [(length rs, p)] in
  let mid := (length rps1 / 2)%nat in
  let t := RTree.mk 0 M sz 1 in
  let h := Heap.mk [RTreeNode.mk true M (leaf_entries rps) m] rs in
  (Z.of_nat (length rps1) <= M /\
   exists m' rs',
     RTree.insert t p h =
       Some (RTree.mk 0 M (sz + 1) 1,
             Heap.mk [RTreeNode.mk true M (leaf_entries rps1) m'] rs') /\
     Forall (stored rs') rps1)
  \/
  (M < Z.of_nat (length rps1) /\
   exists i1 b1 i2 b2 mR rs',
     RTree.insert t p h =
       Some (RTree.mk 2 M (sz + 1) 2,
             Heap.mk [RTreeNode.mk true M (leaf_entries (take mid rps1)) (Some i1);
                      RTreeNode.mk true M (leaf_entries (drop mid rps1)) (Some i2);
                      RTreeNode.mk false M
                        [(Some i1, RTreeNode.DNode 0%nat); (Some i2, RTreeNode.DNode 1%nat)]
                        mR]
                     rs') /\
     Forall (stored rs') rps1 /\
     rs' !! i1 = Some b1 /\ rs' !! i2 = Some b2 /\
     Forall (fun rp : nat * Point.t => rp.1 <> i1 /\ rp.1 <> i2) rps1 /\
     covers b1 (take mid rps1) /\ covers b2 (drop mid rps1)).
Proof.
  intros Hst rps1 mid t h.
  set (nd := RTreeNode.mk true M (leaf_entries rps) m).
  set (rect := length rs) in *. set (rs1 := rs ++ [point_rect p]).
  assert (Hrect : rs1 !! rect = Some (point_rect p)) by apply lookup_last.
  assert (Hst1 : Forall (stored rs1) rps).
  { eapply Forall_impl; [exact Hst|]. intros rp. apply stored_app. }
  assert (Hst2 : Forall (stored rs1) rps1).
  { apply Forall_app. split; [done|]. by constructor. }
  assert (Hrun : RTree.insert t p h = insert_tail t 0 rect p (Heap.mk [nd] rs1)).
  { unfold h. rewrite insert_unfold, run_new_rect, run_depth_bound. fold rect rs1.
    by rewrite (bind_run _ _ _ _ _ (choose_leaf_leaf 0 [nd] rs1 0 nd rect eq_refl eq_refl)). }
  rewrite Hrun. clear Hrun.
  destruct (insert_tail_spec t [nd] rs1 0 rect p rps m M eq_refl eq_refl Hst1 Hrect)
    as [(Hle & b & ->)|(Hgt & i1 & b1 & i2 & b2 & m2 & rs' & -> & Hi1 & Hge1 & Hc1 &
                        -> & Hi2 & Hge2 & Hc2)].
  - left. split; [done|]. eexists _, _. split; [reflexivity|].
    eapply Forall_impl; [exact Hst2|]. intros rp. apply stored_app.
  - right. split; [done|].
    cbn [Nat.eqb RTree.root t]. cbn [list_insert insert app length].
    edestruct (promote_root_spec (counted t)) as (b & ->); [..|exact Hi1|exact Hi2|];
      [reflexivity|reflexivity|].
    exists i1, b1, i2, b2. eexists _, _. split; [reflexivity|].
    split; [|split; [|split; [|split; [|done]]]].
    + eapply Forall_impl; [exact Hst2|]. intros rp H. by do 2 apply stored_app.
    + rewrite lookup_app_l; [done|]. by eapply lookup_lt_Some.
    + rewrite lookup_app_l; [done|]. by eapply lookup_lt_Some.
    + eapply Forall_impl; [exact Hst2|]. intros rp H.
      apply lookup_lt_Some in H. lia.
Qed.

Lemma insert_shape_leaf M sz rps m rs p :
  Forall (stored rs) rps ->
  exists t' h' pts',
    RTree.insert (RTree.mk 0 M sz 1) p
      (Heap.mk [RTreeNode.mk true M (leaf_entries rps) m] rs) = Some (t', h') /\
    shape M t' h' pts' /\ RTree.size t' = sz + 1 /\ pts' = rps.*2 ++ [p].
Proof.
  intros Hst.
  destruct (insert_leaf_run M sz rps m rs p Hst)
    as [(_ & m' & rs' & -> & Hst')
       |(_ & i1 & b1 & i2 & b2 & mR & rs' & -> & Hst' & Hi1 & Hi2 & Hd & Hc1 & Hc2)].
  - eexists _, _, _. split; [reflexivity|]. split; [|split; [done|]].
    + by apply shape_leaf.
    + by rewrite fmap_app.
  - eexists _, _, _. split; [reflexivity|]. split; [|split; [done|]].
    + apply (shape_split M (sz + 1) _ _ _ _ _ i1 i2 b1 b2 []); try done.
      * by apply Forall_take.
      * by apply Forall_drop.
      * by rewrite take_drop.
    + by rewrite <- fmap_app, take_drop, fmap_app.
Qed.

(** The store after [_choose_leaf] expanded the rectangle [r] and later
    steps allocated [rs']. *)
Lemma stored_after rs p r R rs' rps :
  Forall (stored rs) rps -> Forall (fun rp : nat * Point.t => rp.1 <> r) rps ->
  Forall (stored (<[r := expanded p R]> (rs ++ [point_rect p]) ++ rs')) rps.
Proof.
  intros Hst Hne. apply Forall_forall. intros rp Hin.
  apply stored_app, stored_insert, stored_app.
  - by eapply Forall_forall in Hne.
  - by eapply Forall_forall in Hst.
Qed.

Lemma covers_after rs p r R rs' r' R' rps :
  rs !! r = Some R -> rs !! r' = Some R' -> covers R' rps ->
  exists R'', (<[r := expanded p R]> (rs ++ [point_rect p]) ++ rs') !! r' = Some R'' /\
              covers R'' rps /\ (r' = r -> R'' = expanded p R).
Proof.
  intros Hr Hr' Hc.
  pose proof (lookup_lt_Some _ _ _ Hr) as Hlt.
  pose proof (lookup_lt_Some _ _ _ Hr') as Hlt'.
  destruct (decide (r' = r)) as [->|Hne].
  - exists (expanded p R). split; [|split; [|done]].
    + rewrite lookup_app_l by (rewrite length_insert, length_app; lia).
      apply list_lookup_insert_eq. rewrite length_app. lia.
    + assert (R' = R) as -> by congruence.
      eapply Forall_impl; [exact Hc|]. intros rp. apply expanded_mono.
  - exists R'. split; [|split; [done|done]].
    rewrite lookup_app_l by (rewrite length_insert, length_app; lia).
    rewrite list_lookup_insert_ne by done. by rewrite lookup_app_l.
Qed.

Lemma take_snoc_points k (rps : list (nat * Point.t)) rect p :
  (take k (rps ++ [(rect, p)])).*2 ⊆+ rps.*2 ++ [p].
Proof.
  change (rps.*2 ++ [p]) with (rps.*2 ++ [(rect, p)].*2). rewrite <- fmap_app.
  apply fmap_submseteq, submseteq_take.
Qed.

Lemma insert_shape_split M sz rpsA rpsB mA mB mR ra rb Ra Rb rest rs p :
  Forall (stored rs) rpsA -> Forall (stored rs) rpsB ->
  rs !! ra = Some Ra -> rs !! rb = Some Rb ->
  Forall (fun rp => rp.1 <> ra /\ rp.1 <> rb) (rpsA ++ rpsB) ->
  covers Ra rpsA -> covers Rb rpsB ->
  exists t' h' pts',
    RTree.insert (RTree.mk 2 M sz 2) p
      (Heap.mk
         (RTreeNode.mk true M (leaf_entries rpsA) mA ::
          RTreeNode.mk true M (leaf_entries rpsB) mB ::
          RTreeNode.mk false M
            [(Some ra, RTreeNode.DNode 0%nat); (Some rb, RTreeNode.DNode 1%nat)] mR ::
          rest)
         rs) = Some (t', h') /\
    shape M t' h' pts' /\ RTree.size t' = sz + 1 /\ RTree.height t' = 2 /\
    pts' ⊆+ (rpsA.*2 ++ rpsB.*2) ++ [p].
Proof.
  intros HstA HstB Hra Hrb Hdis HcA HcB.
  apply Forall_app in Hdis as [HdA HdB].
  set (t := RTree.mk 2 M sz 2).
  set (A := RTreeNode.mk true M (leaf_entries rpsA) mA).
  set (B := RTreeNode.mk true M (leaf_entries rpsB) mB).
  set (top := RTreeNode.mk false M _ mR).
  set (rect := length rs). set (rs1 := rs ++ [point_rect p]).
  pose proof (lookup_lt_Some _ _ _ Hra) as Hlta.
  pose proof (lookup_lt_Some _ _ _ Hrb) as Hltb.
  assert (Hrect : rs1 !! rect = Some (point_rect p)) by apply lookup_last.
  assert (Hra1 : rs1 !! ra = Some Ra) by (by unfold rs1; rewrite lookup_app_l).
  assert (Hrb1 : rs1 !! rb = Some Rb) by (by unfold rs1; rewrite lookup_app_l).
  assert (Hna : rect <> ra) by (unfold rect; lia).
  assert (Hnb : rect <> rb) by (unfold rect; lia).
  rewrite insert_unfold, run_new_rect, run_depth_bound. fold rect rs1. cbn [length].
  destruct (choose_leaf_two (S (length rest)) (A :: B :: top :: rest) rs1 rect p
              ra rb Ra Rb A B mR M rest eq_refl eq_refl eq_refl Hra1 Hrb1 Hrect Hna Hnb)
    as [Hch|Hch]; rewrite (bind_run _ _ _ _ _ Hch); clear Hch.
  - set (rs2 := <[ra := expanded p Ra]> rs1).
    assert (Hrect2 : rs2 !! rect = Some (point_rect p))
      by (by unfold rs2; rewrite list_lookup_insert_ne).
    assert (HstA2 : Forall (stored rs2) rpsA).
    { rewrite <- (app_nil_r rs2). apply stored_after; [done|].
      eapply Forall_impl; [exact HdA|]. by intros rp []. }
    destruct (insert_tail_nonroot t (A :: B :: top :: rest) rs2 0 rect p rpsA mA M
                eq_refl eq_refl HstA2 Hrect2 ltac:(done))
      as (k & m' & more & rs' & ->).
    cbn [list_insert insert app].
    destruct (covers_after rs p ra Ra rs' ra Ra rpsA Hra Hra HcA) as (Ra' & HRa' & _ & HeqA).
    specialize (HeqA eq_refl). subst Ra'.
    destruct (covers_after rs p ra Ra rs' rb Rb rpsB Hra Hrb HcB) as (Rb' & HRb' & HcB' & _).
    eexists _, _, _. split; [reflexivity|]. split; [|split; [done|split; [done|]]].
    + apply (shape_split M (sz + 1) (take k (rpsA ++ [(rect, p)])) rpsB m' mB mR
               ra rb (expanded p Ra) Rb' (rest ++ more) (rs2 ++ rs')).
      * apply Forall_take, Forall_app. split.
        -- apply stored_after; [done|]. eapply Forall_impl; [exact HdA|]. by intros rp [].
        -- constructor; [|done]. by apply stored_app.
      * apply stored_after; [done|]. eapply Forall_impl; [exact HdB|]. by intros rp [].
      * done.
      * done.
      * apply Forall_app. split; [|done].
        apply Forall_take, Forall_app. split; [done|]. by constructor.
      * apply Forall_take, Forall_app. split.
        -- eapply Forall_impl; [exact HcA|]. intros rp. apply expanded_mono.
        -- constructor; [|done]. apply expanded_contains.
      * done.
    + rewrite <- (assoc_L (++)), (comm (++) (rpsB.*2) [p]), (assoc_L (++)).
      apply submseteq_app; [|done]. apply take_snoc_points.
  - set (rs2 := <[rb := expanded p Rb]> rs1).
    assert (Hrect2 : rs2 !! rect = Some (point_rect p))
      by (by unfold rs2; rewrite list_lookup_insert_ne).
    assert (HstB2 : Forall (stored rs2) rpsB).
    { rewrite <- (app_nil_r rs2). apply stored_after; [done|].
      eapply Forall_impl; [exact HdB|]. by intros rp []. }
    destruct (insert_tail_nonroot t (A :: B :: top :: rest) rs2 1 rect p rpsB mB M
                eq_refl eq_refl HstB2 Hrect2 ltac:(done))
      as (k & m' & more & rs' & ->).
    cbn [list_insert insert app].
    destruct (covers_after rs p rb Rb rs' rb Rb rpsB Hrb Hrb HcB) as (Rb' & HRb' & _ & HeqB).
    specialize (HeqB eq_refl). subst Rb'.
    destruct (covers_after rs p rb Rb rs' ra Ra rpsA Hrb Hra HcA) as (Ra' & HRa' & HcA' & _).
    eexists _, _, _. split; [reflexivity|]. split; [|split; [done|split; [done|]]].
    + apply (shape_split M (sz + 1) rpsA (take k (rpsB ++ [(rect, p)])) mA m' mR
               ra rb Ra' (expanded p Rb) (rest ++ more) (rs2 ++ rs')).
      * apply stored_after; [done|]. eapply Forall_impl; [exact HdA|]. by intros rp [].
      * apply Forall_take, Forall_app. split.
        -- apply stored_after; [done|]. eapply Forall_impl; [exact HdB|]. by intros rp [].
        -- constructor; [|done]. by apply stored_app.
      * done.
      * done.
      * apply Forall_app. split; [done|].
        apply Forall_take, Forall_app. split; [done|]. by constructor.
      * done.
      * apply Forall_take, Forall_app. split.
        -- eapply Forall_impl; [exact HcB|]. intros rp. apply expanded_mono.
        -- constructor; [|done]. apply expanded_contains.
    + rewrite <- (assoc_L (++)).
      apply submseteq_app; [done|]. apply take_snoc_points.
Qed.

Lemma insert_shape M t h pts p :
  shape M t h pts ->
  exists t' h' pts',
    RTree.insert t p h = Some (t', h') /\ shape M t' h' pts' /\
    RTree.size t' = RTree.size t + 1 /\ pts' ⊆+ pts ++ [p].
Proof.
  destruct 1 as [sz rps m rs Hst|sz rpsA rpsB mA mB mR ra rb Ra Rb rest rs HA HB Hra Hrb Hd HcA HcB].
  - destruct (insert_shape_leaf M sz rps m rs p Hst) as (t' & h' & pts' & Hi & Hs & Hsz & ->).
    by exists t', h', (rps.*2 ++ [p]).
  - destruct (insert_shape_split M sz rpsA rpsB mA mB mR ra rb Ra Rb rest rs p)
      as (t' & h' & pts' & Hi & Hs & Hsz & _ & Hsub); try done.
    by exists t', h', pts'.
Qed.

Lemma insert_all_shape M ps : forall t h pts,
  shape M t h pts ->
  exists t' h' pts',
    insert_all t ps h = Some (t', h') /\ shape M t' h' pts' /\
    RTree.size t' = RTree.size t + Z.of_nat (length ps) /\ pts' ⊆+ pts ++ ps.
Proof.
  induction ps as [|p ps IH]; intros t h pts Hs.
  - exists t, h, pts. rewrite app_nil_r. simpl. repeat split; [done|lia|done].
  - destruct (insert_shape M t h pts p Hs) as (t1 & h1 & pts1 & Hi & Hs1 & Hsz1 & Hsub1).
    destruct (IH t1 h1 pts1 Hs1) as (t' & h' & pts' & Hi' & Hs' & Hsz' & Hsub').
    exists t', h', pts'. split; [|split; [done|split]].
    + unfold insert_all in *. cbn [Heap.for_each]. by rewrite (bind_run _ _ _ _ _ Hi).
    + rewrite Hsz', Hsz1, length_cons. lia.
    + etrans; [exact Hsub'|]. rewrite (cons_middle p pts ps), (assoc_L (++)).
      by apply submseteq_app.
Qed.

(** Every index built by insertions exists (no insertion raises) and has
    one of the two shapes; its leaves hold some of the inserted points. *)
Lemma build_shape M ps :
  exists t h pts,
    build M ps = Some (t, h) /\ shape M t h pts /\
    RTree.size t = Z.of_nat (length ps) /\ pts ⊆+ ps.
Proof.
  destruct (shape_init M) as (t0 & h0 & Hi & Hs & Hsz & _).
  destruct (insert_all_shape M ps t0 h0 [] Hs) as (t & h & pts & Hb & Hs' & Hsz' & Hsub).
  exists t, h, pts. split; [|split; [done|split; [lia|done]]].
  unfold build. by rewrite (bind_run _ _ _ _ _ Hi).
Qed.

(** *** The queries on the two shapes *)

Lemma collect_S fuel node points :
  RTree._collect_all_points (S fuel) node points =
  (let* nd := Heap.get_node node in
   Heap.for_each (RTreeNode.entries nd)
     (fun points e =>
        if RTreeNode.is_leaf nd then
          match e.2 with
          | RTreeNode.DPoint p => Heap.ret (points ++ [p])
          | RTreeNode.DNode n => Heap.raise
          end
        else
          match e.2 with
          | RTreeNode.DNode c => RTree._collect_all_points fuel c points
          | RTreeNode.DPoint _ => Heap.raise
          end)
     points).
Proof. done. Qed.

Lemma range_S fuel node q results :
  RTree._range_search (S fuel) node q results =
  (let* nd := Heap.get_node node in
   Heap.for_each (RTreeNode.entries nd)
     (fun results e =>
        let* entry_rect := Heap.get_rect e.1 in
        if negb (Rectangle.intersects entry_rect q) then Heap.ret results
        else if RTreeNode.is_leaf nd then
          match e.2 with
          | RTreeNode.DPoint point =>
              if Rectangle.contains_point q point
              then Heap.ret (results ++ [point])
              else Heap.ret results
          | RTreeNode.DNode _ => Heap.raise
          end
        else
          match e.2 with
          | RTreeNode.DNode c => RTree._range_search fuel c q results
          | RTreeNode.DPoint _ => Heap.raise
          end)
     results).
Proof. done. Qed.

Lemma collect_leaf fuel ns rs node M rps m acc :
  ns !! node = Some (RTreeNode.mk true M (leaf_entries rps) m) ->
  RTree._collect_all_points (S fuel) node acc (Heap.mk ns rs) =
  Some (acc ++ rps.*2, Heap.mk ns rs).
Proof.
  intros Hn. rewrite collect_S, (run_get_node _ _ _ _ _ Hn).
  cbn [RTreeNode.entries RTreeNode.is_leaf]. clear Hn. revert acc.
  induction rps as [|[r p] rps IH]; intros acc; cbn [leaf_entries fmap list_fmap Heap.for_each].
  - by rewrite app_nil_r.
  - cbn [snd]. rewrite (bind_run _ _ _ _ _ eq_refl).
    unfold leaf_entries in IH. rewrite IH. cbn [snd]. by rewrite <- (assoc_L (++)).
Qed.

Lemma range_leaf fuel ns rs node M rps m q acc :
  ns !! node = Some (RTreeNode.mk true M (leaf_entries rps) m) ->
  Forall (stored rs) rps ->
  RTree._range_search (S fuel) node q acc (Heap.mk ns rs) =
  Some (acc ++ List.filter (Rectangle.contains_point q) rps.*2, Heap.mk ns rs).
Proof.
  intros Hn Hst. rewrite range_S, (run_get_node _ _ _ _ _ Hn).
  cbn [RTreeNode.entries RTreeNode.is_leaf]. clear Hn. revert acc.
  induction Hst as [|[r p] rps Hr _ IH]; intros acc;
    cbn [leaf_entries fmap list_fmap Heap.for_each].
  - by rewrite app_nil_r.
  - cbn [fst snd]. unfold stored in Hr. simpl in Hr.
    rewrite bind_assoc, (run_get_rect _ _ _ _ _ Hr). rewrite intersects_point_rect.
    unfold leaf_entries in IH. cbn [List.filter].
    destruct (Rectangle.contains_point q p); cbn [negb];
      rewrite (bind_run _ _ _ _ _ eq_refl), IH; [|done].
    by rewrite <- (assoc_L (++)).
Qed.

Lemma filter_uncovered b q rps :
  covers b rps -> Rectangle.intersects b q = false ->
  List.filter (Rectangle.contains_point q) rps.*2 = [].
Proof.
  intros Hc Hi. induction Hc as [|rp rps Hrp _ IH]; [done|].
  cbn [fmap list_fmap List.filter].
  destruct (Rectangle.contains_point q rp.2) eqn:Hq; [|done].
  by rewrite (contains_intersects b q rp.2) in Hi.
Qed.

Lemma collect_shape M t h pts :
  shape M t h pts ->
  RTree._collect_all_points (length (Heap.nodes h)) (RTree.root t) [] h = Some (pts, h).
Proof.
  destruct 1 as [sz rps m rs Hst|sz rpsA rpsB mA mB mR ra rb Ra Rb rest rs HA HB Hra Hrb Hd HcA HcB];
    cbn [Heap.nodes RTree.root length].
  - by erewrite collect_leaf.
  - rewrite collect_S. erewrite run_get_node by reflexivity.
    cbn [RTreeNode.entries RTreeNode.is_leaf Heap.for_each snd].
    erewrite bind_run by (by eapply collect_leaf).
    erewrite bind_run by (by eapply collect_leaf).
    done.
Qed.

Lemma range_shape M t h pts q :
  shape M t h pts ->
  RTree.range_query t q h = Some (List.filter (Rectangle.contains_point q) pts, h).
Proof.
  destruct 1 as [sz rps m rs Hst|sz rpsA rpsB mA mB mR ra rb Ra Rb rest rs HA HB Hra Hrb Hd HcA HcB];
    unfold RTree.range_query; rewrite run_depth_bound; cbn [RTree.root length].
  - by erewrite range_leaf.
  - rewrite range_S. erewrite run_get_node by reflexivity.
    cbn [RTreeNode.entries RTreeNode.is_leaf Heap.for_each fst snd].
    rewrite List.filter_app.
    rewrite bind_assoc, (run_get_rect _ _ _ _ _ Hra).
    destruct (Rectangle.intersects Ra q) eqn:HiA; cbn [negb].
    + erewrite bind_run by (eapply range_leaf; [reflexivity|done]). cbn [app].
      rewrite bind_assoc, (run_get_rect _ _ _ _ _ Hrb).
      destruct (Rectangle.intersects Rb q) eqn:HiB; cbn [negb].
      * by erewrite bind_run by (eapply range_leaf; [reflexivity|done]).
      * rewrite (filter_uncovered Rb q rpsB) by done.
        by rewrite app_nil_r.
    + rewrite (filter_uncovered Ra q rpsA) by done.
      rewrite run_ret. cbn [app].
      rewrite bind_assoc, (run_get_rect _ _ _ _ _ Hrb).
      destruct (Rectangle.intersects Rb q) eqn:HiB; cbn [negb].
      * by erewrite bind_run by (eapply range_leaf; [reflexivity|done]).
      * by rewrite (filter_uncovered Rb q rpsB) by done.
Qed.

(** *** Which points the traversal reaches *)

Lemma leaf_refers_to c isl M rps m :
  refers_to c (RTreeNode.mk isl M (leaf_entries rps) m) = false.
Proof. unfold refers_to. simpl. by induction rps. Qed.

Lemma leaf_holds_point p (rps : list (nat * Point.t)) :
  (exists r, (r, RTreeNode.DPoint p) ∈ leaf_entries rps) <-> p ∈ rps.*2.
Proof.
  unfold leaf_entries. split.
  - intros (r & Hin). apply list_elem_of_fmap in Hin as ([r' p'] & [= -> ->] & Hin).
    apply list_elem_of_fmap. by exists (r', p').
  - intros Hin. apply list_elem_of_fmap in Hin as ([r' p'] & -> & Hin).
    exists (Some r'). apply list_elem_of_fmap. by exists (r', p').
Qed.

(** The list the full traversal gathers holds exactly the points of the
    nodes that can be reached from the root. *)
Lemma shape_reachable M t h pts p :
  shape M t h pts -> p ∈ pts <-> point_reachable h (RTree.root t) p.
Proof.
  destruct 1 as [sz rps m rs Hst|sz rpsA rpsB mA mB mR ra rb Ra Rb rest rs HA HB Hra Hrb Hd HcA HcB];
    cbn [RTree.root].
  - set (h := Heap.mk _ rs).
    assert (Hreach : forall n, reachable h 0 n -> n = 0%nat).
    { induction 1 as [|b c nd _ -> Hb Href]; [done|].
      injection Hb as <-. by rewrite leaf_refers_to in Href. }
    rewrite <- leaf_holds_point. split.
    + intros (r & Hin). exists 0%nat. eexists _, r. split; [constructor|]. by split.
    + intros (n & nd & r & Hn%Hreach & Hnd & Hin). subst n.
      injection Hnd as <-. by exists r.
  - set (h := Heap.mk _ rs).
    set (top := RTreeNode.mk false M
                  [(Some ra, RTreeNode.DNode 0%nat); (Some rb, RTreeNode.DNode 1%nat)] mR).
    assert (Hreach : forall n, reachable h 2 n -> n = 2%nat \/ n = 0%nat \/ n = 1%nat).
    { induction 1 as [|b c nd _ [ -> | [ -> | -> ]] Hb Href]; [by left|..]; injection Hb as <-.
      - destruct c as [|[|c]]; [by right; left|by right; right|done].
      - by rewrite leaf_refers_to in Href.
      - by rewrite leaf_refers_to in Href. }
    assert (H0 : reachable h 2 0) by (by apply (reach_child h 2 2 0 top); [constructor|..]).
    assert (H1 : reachable h 2 1) by (by apply (reach_child h 2 2 1 top); [constructor|..]).
    rewrite elem_of_app, <- !leaf_holds_point. split.
    + intros [(r & Hin)|(r & Hin)].
      * exists 0%nat. by eexists _, r.
      * exists 1%nat. by eexists _, r.
    + intros (n & nd & r & [ -> | [ -> | -> ]]%Hreach & Hnd & Hin); injection Hnd as <-.
      * cbn [RTreeNode.entries] in Hin.
        apply elem_of_cons in Hin as [[=]|Hin].
        apply elem_of_cons in Hin as [[=]|Hin]. by apply elem_of_nil in Hin.
      * left. by exists r.
      * right. by exists r.
Qed.

(** ** Range queries *)

(** C1: on every index built by insertions, for every query rectangle
    (well-formed or not), [range_query] returns exactly the points that are
    reachable from the root and that the rectangle contains, each as often
    as an entry holds it and in traversal order.  The reachable points are
    the list the full traversal gathers, they are the points held by the
    nodes that can be reached from the root, and they are among the inserted
    ones. *)
Theorem range_query_correct (M : Z) (ps : list Point.t) (q : Rectangle.t) :
  exists t h reachable,
    build M ps = Some (t, h) /\
    RTree._collect_all_points (length (Heap.nodes h)) (RTree.root t) [] h
      = Some (reachable, h) /\
    (forall p, p ∈ reachable <-> point_reachable h (RTree.root t) p) /\
    reachable ⊆+ ps /\
    RTree.range_query t q h
      = Some (List.filter (Rectangle.contains_point q) reachable, h) /\
    forall p, p ∈ List.filter (Rectangle.contains_point q) reachable <->
              p ∈ reachable /\ Rectangle.contains_point q p = true.
Proof.
  destruct (build_shape M ps) as (t & h & pts & Hb & Hs & _ & Hsub).
  exists t, h, pts. split; [done|]. split; [by eapply collect_shape|].
  split; [intros p; by eapply shape_reachable|].
  split; [done|]. split; [by eapply range_shape|].
  intros p. rewrite !list_elem_of_In. apply List.filter_In.
Qed.

(** A query with an inverted rectangle finds nothing: the rectangles of
    leaf entries are degenerate, whatever the root entries do. *)
Lemma range_query_inverted_empty (M : Z) (ps : list Point.t) (q : Rectangle.t) :
  inverted q ->
  exists t h, build M ps = Some (t, h) /\ RTree.range_query t q h = Some ([], h).
Proof.
  intros Hq.
  destruct (build_shape M ps) as (t & h & pts & Hb & Hs & _ & _).
  exists t, h. split; [done|]. rewrite (range_shape M t h pts q Hs). do 2 f_equal.
  clear Hb Hs. induction pts as [|p pts IH]; [done|]. cbn [List.filter].
  destruct (Rectangle.contains_point q p) eqn:Hp; [|done].
  apply contains_point_spec in Hp. unfold inverted in Hq. lia.
Qed.

(** ** Size *)

Lemma float_bind_inv {A B} (m : Float.Heap.M A) (k : A -> Float.Heap.M B) h r :
  Float.Heap.bind m k h = Some r -> exists a h1, m h = Some (a, h1) /\ k a h1 = Some r.
Proof.
  unfold Float.Heap.bind. destruct (m h) as [[a h1]|]; [|done]. intros H. by exists a, h1.
Qed.

Lemma float_split_node_size self node h t' h' :
  Float.RTree._split_node self node h = Some (t', h') ->
  Float.RTree.size t' = Float.RTree.size self.
Proof.
  unfold Float.RTree._split_node. intros H.
  repeat (apply float_bind_inv in H as (? & ? & _ & H)).
  destruct (Nat.eqb _ _).
  - repeat (apply float_bind_inv in H as (? & ? & _ & H)). by injection H as <- _.
  - by injection H as <- _.
Qed.

Lemma float_insert_size t p h t' h' :
  Float.RTree.insert t p h = Some (t', h') ->
  Float.RTree.size t' = Float.RTree.size t + 1.
Proof.
  unfold Float.RTree.insert. intros H.
  repeat (apply float_bind_inv in H as (? & ? & _ & H)).
  destruct (_ && _).
  - by apply float_split_node_size in H.
  - by injection H as <- _.
Qed.

Lemma float_insert_all_size ps : forall t h t' h',
  Float.insert_all t ps h = Some (t', h') ->
  Float.RTree.size t' = Float.RTree.size t + Z.of_nat (length ps).
Proof.
  unfold Float.insert_all.
  induction ps as [|p ps IH]; intros t h t' h' H; cbn [Float.Heap.for_each] in H.
  - injection H as <- _. simpl. lia.
  - apply float_bind_inv in H as (t1 & h1 & H1 & H).
    apply float_insert_size in H1. apply IH in H. rewrite H, H1, length_cons. lia.
Qed.

(** C4 as stated fails on floats.  With capacity 2 the points (0,0), (1,1),
    (2,2) are inserted and [size] is 3; for the point (2^600, 2^600) both
    enlargements computed by [_choose_leaf] are infinite, none is below
    [float('inf')], [best_entry] stays [None] and the call raises before
    [size] is incremented. *)
Lemma float_insert_raises :
  match Float.build 2 [Float.pt 0 0; Float.pt 1 1; Float.pt 2 2] with
  | Some (t, h) =>
      Float.RTree.size t = 3 /\
      Float.Rectangle.enlargement_needed
        (Float.Rectangle.mk (Binary64.of_Z 0) (Binary64.of_Z 0)
                            (Binary64.of_Z 0) (Binary64.of_Z 0))
        (Float.pt (2 ^ 600) (2 ^ 600)) = Binary64.inf /\
      Float.Rectangle.enlargement_needed
        (Float.Rectangle.mk (Binary64.of_Z 1) (Binary64.of_Z 1)
                            (Binary64.of_Z 2) (Binary64.of_Z 2))
        (Float.pt (2 ^ 600) (2 ^ 600)) = Binary64.inf /\
      Binary64.ltb Binary64.inf Binary64.inf = false /\
      Float.Heap.bind
        (Float.Heap.new_rect
           (Float.Rectangle.mk (Binary64.of_Z (2 ^ 600)) (Binary64.of_Z (2 ^ 600))
                               (Binary64.of_Z (2 ^ 600)) (Binary64.of_Z (2 ^ 600))))
        (Float.RTree._choose_leaf 3 (Float.RTree.root t)) h = None /\
      Float.RTree.insert t (Float.pt (2 ^ 600) (2 ^ 600)) h = None
  | None => False
  end.
Proof. vm_compute. repeat split; reflexivity. Qed.

(** C4, amended.  On points with integer coordinates every sequence of N
    insertions into a new tree returns and leaves [size] at N, whatever the
    capacity and wherever splits happened.  On points with binary64
    coordinates every sequence of N insertions that returns has added N to
    [size]; in particular a build that returns has [size] N. *)
Theorem size_counts_inserts :
  (forall (M : Z) (ps : list Point.t),
     exists t h, build M ps = Some (t, h) /\ RTree.size t = Z.of_nat (length ps)) /\
  (forall (t : Float.RTree.t) (ps : list Float.Point.t) (h : Float.Heap.t) t' h',
     Float.insert_all t ps h = Some (t', h') ->
     Float.RTree.size t' = Float.RTree.size t + Z.of_nat (length ps)) /\
  (forall (M : Z) (ps : list Float.Point.t) t h,
     Float.build M ps = Some (t, h) -> Float.RTree.size t = Z.of_nat (length ps)).
Proof.
  split; [|split].
  - intros M ps. destruct (build_shape M ps) as (t & h & pts & Hb & _ & Hsz & _).
    by exists t, h.
  - intros t ps. apply float_insert_all_size.
  - intros M ps t h Hb. unfold Float.build in Hb.
    apply float_bind_inv in Hb as (t0 & h0 & [= <- <-] & Hb).
    by apply float_insert_all_size in Hb.
Qed.

(** ** Nearest neighbours *)

Lemma knn_shape M t h pts q k :
  shape M t h pts ->
  RTree.knn_query t q k h =
  Some (RTree.slice_to k
          (RTree.sort_by_distance ((fun p => (p, Point.distance_to q p)) <$> pts)), h).
Proof.
  intros Hs. unfold RTree.knn_query. destruct h as [ns rs]. rewrite run_depth_bound.
  by rewrite (bind_run _ _ _ _ _ (collect_shape M t _ pts Hs)).
Qed.

Lemma sorted_pairs q pts p d :
  (p, d) ∈ RTree.sort_by_distance ((fun p => (p, Point.distance_to q p)) <$> pts) ->
  p ∈ pts /\ d = Point.distance_to q p.
Proof.
  rewrite sort_by_distance_perm. intros Hin.
  apply list_elem_of_fmap in Hin as (p' & [= -> ->] & Hin). done.
Qed.


(** On the five points of the specification's scenario the rounded
    distances are distinct and the answer is the one with exact distances:
    (0,0) at 0.0 and (1,1) at 1.4142135623730951. *)
Example scenario_knn_query_rounded :
  run (fun t => Rounded.knn_query t (pt 0 0) 2)
      (build 4 [pt 0 0; pt 1 1; pt 2 2; pt 3 3; pt 4 4])
  = Some [(pt 0 0, Binary64.of_Z 0); (pt 1 1, S754_finite false 6369051672525773 (-52))].
Proof. vm_compute. reflexivity. Qed.






(** ** Root promotion *)

Lemma bind_ret_r {A} (m : Heap.M A) h : Heap.bind m Heap.ret h = m h.
Proof. unfold Heap.bind. by destruct (m h) as [[a h']|]. Qed.

Lemma build_snoc M ps p :
  build M (ps ++ [p]) =
  match build M ps with
  | Some (t, h) => RTree.insert t p h
  | None => None
  end.
Proof.
  unfold build, insert_all.
  destruct (shape_init M) as (t0 & h0 & Hi & _).
  rewrite !(bind_run _ _ _ _ _ Hi), for_each_app. unfold Heap.bind at 1.
  destruct (Heap.for_each ps RTree.insert t0 h0) as [[t h]|]; [|done].
  cbn [Heap.for_each]. apply bind_ret_r.
Qed.

(** While no more points were inserted than the capacity, the tree is a
    single leaf holding all of them. *)
Lemma leaf_phase M ps :
  Z.of_nat (length ps) <= M ->
  exists rps m rs,
    build M ps =
      Some (RTree.mk 0 M (Z.of_nat (length ps)) 1,
            Heap.mk [RTreeNode.mk true M (leaf_entries rps) m] rs) /\
    rps.*2 = ps /\ Forall (stored rs) rps.
Proof.
  induction ps as [|p ps IH] using rev_ind; intros Hlen.
  - exists [], None, []. by repeat split.
  - rewrite length_app in Hlen. simpl in Hlen.
    destruct IH as (rps & m & rs & Hb & Hps & Hst); [lia|].
    assert (Hl : length rps = length ps) by (by rewrite <- Hps, length_fmap).
    rewrite build_snoc, Hb.
    destruct (insert_leaf_run M (Z.of_nat (length ps)) rps m rs p Hst)
      as [(_ & m' & rs' & -> & Hst')|(Hgt & _)].
    + exists (rps ++ [(length rs, p)]), m', rs'. split; [|split; [|done]].
      * do 3 f_equal. rewrite length_app. simpl. lia.
      * by rewrite fmap_app, Hps.
    + rewrite length_app in Hgt. simpl in Hgt. lia.
Qed.

(** C6: with capacity [M >= 2], a new tree has height 1 and a leaf root,
    and keeps both through its first [M] insertions; the insertion of point
    [M + 1] raises the height to 2 and leaves a root that is not a leaf and
    has exactly two entries. *)
Theorem root_promotion (M : Z) (ps : list Point.t) :
  2 <= M -> Z.of_nat (length ps) = M + 1 ->
  (forall n, (n <= Z.to_nat M)%nat ->
     exists t h nd,
       build M (take n ps) = Some (t, h) /\ RTree.height t = 1 /\
       Heap.nodes h !! RTree.root t = Some nd /\ RTreeNode.is_leaf nd = true) /\
  exists t h nd,
    build M ps = Some (t, h) /\ RTree.height t = 2 /\
    Heap.nodes h !! RTree.root t = Some nd /\
    RTreeNode.is_leaf nd = false /\ length (RTreeNode.entries nd) = 2%nat.
Proof.
  intros HM Hlen. split.
  - intros n Hn.
    destruct (leaf_phase M (take n ps)) as (rps & m & rs & -> & _ & _).
    { rewrite length_take. lia. }
    by eexists _, _, _.
  - destruct ps as [|p ps _] using rev_ind; [simpl in Hlen; lia|].
    rewrite length_app in Hlen. simpl in Hlen.
    destruct (leaf_phase M ps) as (rps & m & rs & Hb & Hps & Hst); [lia|].
    assert (Hl : length rps = length ps) by (by rewrite <- Hps, length_fmap).
    rewrite build_snoc, Hb.
    destruct (insert_leaf_run M (Z.of_nat (length ps)) rps m rs p Hst)
      as [(Hle & _)|(_ & i1 & b1 & i2 & b2 & mR & rs' & -> & _)].
    + rewrite length_app in Hle. simpl in Hle. lia.
    + by eexists _, _, _.
Qed.

Lemma root_promotion_witness :
  (forall n, (n <= Z.to_nat 2)%nat ->
     exists t h nd,
       build 2 (take n [pt 0 0; pt 1 1; pt 2 2]) = Some (t, h) /\ RTree.height t = 1 /\
       Heap.nodes h !! RTree.root t = Some nd /\ RTreeNode.is_leaf nd = true) /\
  exists t h nd,
    build 2 [pt 0 0; pt 1 1; pt 2 2] = Some (t, h) /\ RTree.height t = 2 /\
    Heap.nodes h !! RTree.root t = Some nd /\
    RTreeNode.is_leaf nd = false /\ length (RTreeNode.entries nd) = 2%nat.
Proof.
  apply (root_promotion 2 [pt 0 0; pt 1 1; pt 2 2]); [lia|reflexivity].
Defined.

(** ** Leaf selection *)

Lemma reads_mapM rs es vs : mapM (rect_of rs) es = Some vs <-> reads rs es vs.
Proof. apply mapM_Some. Qed.

Lemma three_points_built :
  build 2 three_points = Some (three_tree, Heap.mk three_nodes three_rects).
Proof. vm_compute. reflexivity. Qed.




(** ** Splitting a node that is not the root *)

Lemma closed_no_ref ns n nd es :
  closed ns = true -> ns !! n = Some nd -> es ⊆ RTreeNode.entries nd ->
  existsb (fun e : RTreeNode.entry =>
             match e.2 with
             | RTreeNode.DNode c' => Nat.eqb c' (length ns)
             | RTreeNode.DPoint _ => false
             end) es = false.
Proof.
  intros Hc Hn Hsub. apply not_true_is_false. intros Hex.
  apply existsb_exists in Hex as (e & Hin & He).
  unfold closed in Hc. rewrite forallb_forall in Hc.
  specialize (Hc nd). rewrite forallb_forall in Hc.
  assert (Hnd : In nd ns) by (apply list_elem_of_In; by eapply list_elem_of_lookup_2).
  assert (He' : In e (RTreeNode.entries nd)) by (by apply list_elem_of_In, Hsub, list_elem_of_In).
  specialize (Hc Hnd e He').
  destruct e.2 as [|c]; [done|].
  apply Nat.eqb_eq in He. apply Nat.ltb_lt in Hc. lia.
Qed.

(** C2: [_split_node] on a node other than the root (in a heap whose node
    references all exist, and whose entries of the node all have a
    rectangle) returns normally and leaves the tree object as it was, so
    [size], [root] and [height] are unchanged; the node keeps its first
    [len / 2] entries, the entries from index [len / 2] on are in a new node
    object, every other node is untouched, no entry of any node holds the
    new node, and the new node cannot be reached from the root. *)
Theorem split_non_root_detaches (t : RTree.t) (ns : list RTreeNode.t)
    (rs : list Rectangle.t) (node : nat) (nd : RTreeNode.t) (vs : list Rectangle.t) :
  ns !! node = Some nd ->
  node <> RTree.root t -> (RTree.root t < length ns)%nat ->
  closed ns = true ->
  mapM (rect_of rs) (RTreeNode.entries nd) = Some vs ->
  let mid := (length (RTreeNode.entries nd) / 2)%nat in
  let sibling := length ns in
  exists h' kept moved,
    RTree._split_node t node (Heap.mk ns rs) = Some (t, h') /\
    Heap.nodes h' !! node = Some kept /\
    RTreeNode.entries kept = take mid (RTreeNode.entries nd) /\
    Heap.nodes h' !! sibling = Some moved /\
    RTreeNode.entries moved = drop mid (RTreeNode.entries nd) /\
    length (Heap.nodes h') = S sibling /\
    (forall n, n <> node -> (n < sibling)%nat -> Heap.nodes h' !! n = ns !! n) /\
    (forall n nd', Heap.nodes h' !! n = Some nd' -> refers_to sibling nd' = false) /\
    ~ reachable h' (RTree.root t) sibling.
Proof.
  intros Hn Hne Hroot Hc Hr mid sibling. apply reads_mapM in Hr.
  pose proof (lookup_lt_Some _ _ _ Hn) as Hlt.
  destruct (split_node_halves t ns rs node nd vs Hn Hr) as (m1 & m2 & rs' & Hs & _).
  apply Nat.eqb_neq in Hne. rewrite Hne in Hs. fold mid in Hs.
  set (kept := RTreeNode.mk (RTreeNode.is_leaf nd) (RTreeNode.max_entries nd)
                 (take mid (RTreeNode.entries nd)) m1) in *.
  set (moved := RTreeNode.mk (RTreeNode.is_leaf nd) (RTree.max_entries t)
                  (drop mid (RTreeNode.entries nd)) m2) in *.
  assert (Hrefs : forall n nd',
            (<[node := kept]> ns ++ [moved]) !! n = Some nd' -> refers_to sibling nd' = false).
  { intros n nd' Hn'. apply lookup_app_Some in Hn' as [Hn'|[_ Hn']].
    - destruct (decide (n = node)) as [->|Hnn].
      + rewrite list_lookup_insert_eq in Hn' by done. injection Hn' as <-.
        eapply closed_no_ref; [done|exact Hn|]. apply subseteq_take.
      + rewrite list_lookup_insert_ne in Hn' by done.
        by eapply closed_no_ref.
    - apply list_lookup_singleton_Some in Hn' as [_ <-].
      eapply closed_no_ref; [done|exact Hn|]. apply subseteq_drop. }
  eexists _, kept, moved. split; [exact Hs|]. cbn [Heap.nodes].
  split; [|split; [done|split; [|split; [done|split; [|split; [|split]]]]]].
  - rewrite lookup_app_l by (by rewrite length_insert). by apply list_lookup_insert_eq.
  - unfold sibling. rewrite <- (length_insert ns node kept). apply lookup_last.
  - rewrite length_app, length_insert. simpl. unfold sibling. lia.
  - intros n Hnn Hlt'. rewrite lookup_app_l by (by rewrite length_insert).
    by apply list_lookup_insert_ne.
  - exact Hrefs.
  - intros Hreach. inversion Hreach as [Heq|b c nd' _ Hb Href]; subst.
    + unfold sibling in *. lia.
    + cbn [Heap.nodes] in Hb. by rewrite (Hrefs _ _ Hb) in Href.
Qed.

Lemma split_non_root_detaches_witness :
  let nd := RTreeNode.mk true 2
              [(Some 2%nat, RTreeNode.DPoint (pt 1 1)); (Some 4%nat, RTreeNode.DPoint (pt 2 2))]
              (Some 7%nat) in
  exists h' kept moved,
    RTree._split_node three_tree 1 (Heap.mk three_nodes three_rects) = Some (three_tree, h') /\
    Heap.nodes h' !! 1%nat = Some kept /\
    RTreeNode.entries kept = take 1 (RTreeNode.entries nd) /\
    Heap.nodes h' !! 3%nat = Some moved /\
    RTreeNode.entries moved = drop 1 (RTreeNode.entries nd) /\
    length (Heap.nodes h') = 4%nat /\
    (forall n, n <> 1%nat -> (n < 3)%nat -> Heap.nodes h' !! n = three_nodes !! n) /\
    (forall n nd', Heap.nodes h' !! n = Some nd' -> refers_to 3 nd' = false) /\
    ~ reachable h' (RTree.root three_tree) 3.
Proof.
  intros nd.
  apply (split_non_root_detaches three_tree three_nodes three_rects 1 nd
           [Rectangle.mk 1 1 1 1; Rectangle.mk 2 2 2 2]);
    [reflexivity|simpl; lia|simpl; lia|reflexivity|reflexivity].
Defined.

(** ** The cached rectangle of a node *)

(** C5 fails on the root: with capacity 2, after the points (0,0), (1,1),
    (2,2) the root is promoted with [mbr] (0,0)-(2,2); inserting (5,5)
    expands the rectangle of the second root entry in place to (1,1)-(5,5),
    and the [mbr] of the root is not computed again. *)
Theorem root_mbr_stale_after_insert :
  exists t h nd,
    build 2 [pt 0 0; pt 1 1; pt 2 2; pt 5 5] = Some (t, h) /\
    Heap.nodes h !! RTree.root t = Some nd /\
    RTreeNode.entries nd <> [] /\
    cached_mbr h nd = Some (Rectangle.mk 0 0 2 2) /\
    entries_bound h nd = Some (Rectangle.mk 0 0 5 5).
Proof.
  destruct (build 2 [pt 0 0; pt 1 1; pt 2 2; pt 5 5]) as [[t h]|] eqn:Hb;
    vm_compute in Hb; [|discriminate].
  injection Hb as <- <-. eexists _, _, _. split; [reflexivity|].
  split; [reflexivity|]. split; [discriminate|]. split; reflexivity.
Qed.

(** * Further properties of the index *)

(** ** Rectangles and points *)

(** X1: [intersects] gives the same answer in both orders, for all
    rectangles, well-formed or not. *)
Theorem intersects_symmetric (a b : Rectangle.t) :
  Rectangle.intersects a b = Rectangle.intersects b a.
Proof.
  apply eq_true_iff_eq. rewrite !intersects_spec. lia.
Qed.

(** X2: two well-formed rectangles intersect exactly when some point lies
    in both (boundaries included). *)
Theorem intersects_iff_common_point (a b : Rectangle.t) :
  well_formed a -> well_formed b ->
  (Rectangle.intersects a b = true <->
   exists p, Rectangle.contains_point a p = true /\ Rectangle.contains_point b p = true).
Proof.
  intros [Hax Hay] [Hbx Hby]. rewrite intersects_spec. split.
  - intros H.
    exists (Point.mk (Z.max (Rectangle.min_x a) (Rectangle.min_x b))
                     (Z.max (Rectangle.min_y a) (Rectangle.min_y b)) "" "").
    rewrite !contains_point_spec. simpl. lia.
  - intros (p & Ha & Hb). rewrite contains_point_spec in Ha, Hb. lia.
Qed.

Lemma intersects_iff_common_point_witness :
  Rectangle.intersects (Rectangle.mk 0 0 4 4) (Rectangle.mk 4 2 9 3) = true <->
  exists p, Rectangle.contains_point (Rectangle.mk 0 0 4 4) p = true /\
            Rectangle.contains_point (Rectangle.mk 4 2 9 3) p = true.
Proof.
  apply intersects_iff_common_point; unfold well_formed; simpl; lia.
Defined.

(** X3: [expand_to_include] leaves the least rectangle that reaches as far
    as the old one and contains the point: it contains the point, is
    well-formed even when the old one was not, encloses the old one, and is
    enclosed by every rectangle that encloses the old one and contains the
    point. *)
Theorem expand_to_include_least (p : Point.t) (r : Rectangle.t) :
  Rectangle.contains_point (Rectangle.expand_to_include p r) p = true /\
  well_formed (Rectangle.expand_to_include p r) /\
  encloses (Rectangle.expand_to_include p r) r /\
  forall s, encloses s r -> Rectangle.contains_point s p = true ->
            encloses s (Rectangle.expand_to_include p r).
Proof.
  unfold well_formed, encloses. rewrite contains_point_spec. simpl.
  repeat split; try lia; revert H0; rewrite contains_point_spec; lia.
Qed.

(** X4: on integer coordinates, where the arithmetic is exact, a point
    the rectangle already contains costs no enlargement, and expanding to
    it changes nothing. *)
Theorem enlargement_zero_inside (r : Rectangle.t) (p : Point.t) :
  Rectangle.contains_point r p = true ->
  Rectangle.enlargement_needed r p = 0 /\ Rectangle.expand_to_include p r = r.
Proof.
  rewrite contains_point_spec. intros [Hx Hy].
  unfold Rectangle.enlargement_needed, Rectangle.area, Rectangle.expand_to_include.
  destruct r as [a b c d]. simpl in *.
  rewrite !Z.min_l, !Z.max_l by lia. split; [lia|done].
Qed.

Lemma enlargement_zero_inside_witness :
  Rectangle.enlargement_needed (Rectangle.mk 0 0 4 4) (pt 4 1) = 0 /\
  Rectangle.expand_to_include (pt 4 1) (Rectangle.mk 0 0 4 4) = Rectangle.mk 0 0 4 4.
Proof.
  apply enlargement_zero_inside. reflexivity.
Defined.

(** X5: on integer coordinates, where the arithmetic is exact, expanding
    to the same point twice is expanding once, after which the point needs
    no enlargement; and expanding to two points gives the same rectangle in
    either order. *)
Theorem expand_to_include_idempotent (r : Rectangle.t) (p q : Point.t) :
  Rectangle.expand_to_include p (Rectangle.expand_to_include p r)
    = Rectangle.expand_to_include p r /\
  Rectangle.enlargement_needed (Rectangle.expand_to_include p r) p = 0 /\
  Rectangle.expand_to_include p (Rectangle.expand_to_include q r)
    = Rectangle.expand_to_include q (Rectangle.expand_to_include p r).
Proof.
  unfold Rectangle.enlargement_needed, Rectangle.area, Rectangle.expand_to_include.
  destruct r as [a b c d]. cbn [Rectangle.min_x Rectangle.min_y Rectangle.max_x Rectangle.max_y].
  repeat split; f_equal; lia.
Qed.

(** X6: [distance_to] is symmetric, its square root is taken of a number
    that is never negative, and the distance is zero exactly between points
    of equal coordinates (names and categories play no part). *)
Theorem distance_to_metric (a b : Point.t) :
  Point.distance_to a b = Point.distance_to b a /\
  0 <= radicand (Point.distance_to a b) /\
  (radicand (Point.distance_to a b) = 0 <->
   Point.x a = Point.x b /\ Point.y a = Point.y b) /\
  (surd_val (Point.distance_to a b) = 0%R <->
   Point.x a = Point.x b /\ Point.y a = Point.y b).
Proof.
  assert (Hnn : 0 <= radicand (Point.distance_to a b)) by (simpl; nia).
  assert (Hz : radicand (Point.distance_to a b) = 0 <->
               Point.x a = Point.x b /\ Point.y a = Point.y b) by (simpl; nia).
  split; [|split; [done|split; [done|]]].
  - unfold Point.distance_to. f_equal. ring.
  - rewrite <- Hz. unfold surd_val. split.
    + intros H. apply sqrt_eq_0 in H; [|by apply IZR_le]. by apply eq_IZR.
    + intros ->. apply sqrt_0.
Qed.


(** ** The queries on an arbitrary store *)

Lemma bind_inv {A B} (m : Heap.M A) (k : A -> Heap.M B) h r :
  Heap.bind m k h = Some r -> exists a h1, m h = Some (a, h1) /\ k a h1 = Some r.
Proof.
  unfold Heap.bind. destruct (m h) as [[a h1]|]; [|done]. intros H. by exists a, h1.
Qed.

Lemma get_node_inv n h nd h1 :
  Heap.get_node n h = Some (nd, h1) -> h1 = h /\ Heap.nodes h !! n = Some nd.
Proof.
  unfold Heap.get_node, Heap.lift. destruct (Heap.nodes h !! n); [|done].
  by intros [= -> ->].
Qed.

Lemma get_rect_inv r h v h1 :
  Heap.get_rect r h = Some (v, h1) -> h1 = h /\ rect_of (Heap.rects h) (r, RTreeNode.DNode 0) = Some v.
Proof.
  unfold Heap.get_rect, Heap.lift, rect_of. simpl.
  destruct (r ≫= _); [|done]. by intros [= -> ->].
Qed.

(** A loop whose every step stays within a reflexive and transitive
    relation between accumulator-and-store pairs stays within it. *)
Lemma for_each_rel {A B} (R : B * Heap.t -> B * Heap.t -> Prop)
    `{!Reflexive R} `{!Transitive R} (l : list A) (body : B -> A -> Heap.M B) :
  (forall a acc h r, a ∈ l -> body acc a h = Some r -> R (acc, h) r) ->
  forall acc h r, Heap.for_each l body acc h = Some r -> R (acc, h) r.
Proof.
  induction l as [|a l IH]; intros Hbody acc h r; simpl.
  - by intros [= <-].
  - intros (b & h1 & Hb & Hrest)%bind_inv.
    trans (b, h1).
    + apply (Hbody a); [by left|done].
    + apply IH; [|done]. intros a' acc' h' r' Hin. apply Hbody. by right.
Qed.

Global Instance appended_refl P : Reflexive (appended P).
Proof. intros [l h]. split; [done|]. exists []. by rewrite app_nil_r. Qed.

Global Instance appended_trans P : Transitive (appended P).
Proof.
  intros [l1 h1] [l2 h2] [l3 h3] [H1 (f1 & E1 & F1)] [H2 (f2 & E2 & F2)]. simpl in *.
  split; simpl; [congruence|]. exists (f1 ++ f2). split; [|by apply Forall_app].
  by rewrite E2, E1, <- app_assoc.
Qed.

Lemma range_search_appended q fuel : forall node acc h r,
  RTree._range_search fuel node q acc h = Some r ->
  appended (fun p => Rectangle.contains_point q p = true) (acc, h) r.
Proof.
  induction fuel as [|fuel IH]; intros node acc h r; [done|].
  rewrite range_S. intros (nd & h1 & [-> Hnd]%get_node_inv & Hloop)%bind_inv.
  revert Hloop. apply for_each_rel; try apply _.
  intros [er d] acc1 h2 r1 _ (v & h3 & [-> _]%get_rect_inv & Hstep)%bind_inv.
  simpl in Hstep.
  destruct (negb _); [injection Hstep as <-; reflexivity|].
  destruct (RTreeNode.is_leaf nd).
  - destruct d as [p|c]; [|done].
    destruct (Rectangle.contains_point q p) eqn:Hp; injection Hstep as <-; [|reflexivity].
    split; [done|]. exists [p]. split; [done|]. by constructor.
  - destruct d as [p|c]; [done|]. by eapply IH.
Qed.

Lemma collect_appended fuel : forall node acc h r,
  RTree._collect_all_points fuel node acc h = Some r ->
  appended (fun _ => True) (acc, h) r.
Proof.
  induction fuel as [|fuel IH]; intros node acc h r; [done|].
  rewrite collect_S. intros (nd & h1 & [-> Hnd]%get_node_inv & Hloop)%bind_inv.
  revert Hloop. apply for_each_rel; try apply _.
  intros [er d] acc1 h2 r1 _ Hstep. simpl in Hstep.
  destruct (RTreeNode.is_leaf nd).
  - destruct d as [p|c]; [|done]. injection Hstep as <-.
    split; [done|]. exists [p]. split; [done|]. by constructor.
  - destruct d as [p|c]; [done|]. by eapply IH.
Qed.

(** X7: on any store, a [range_query] that returns leaves the store as it
    was, and every point it returns lies in the query rectangle. *)
Theorem range_query_sound (t : RTree.t) (q : Rectangle.t) (h h' : Heap.t)
    (res : list Point.t) :
  RTree.range_query t q h = Some (res, h') ->
  h' = h /\ Forall (fun p => Rectangle.contains_point q p = true) res.
Proof.
  unfold RTree.range_query. destruct h as [ns rs]. rewrite run_depth_bound.
  intros [Hh (found & E & F)]%range_search_appended. simpl in *.
  split; [done|]. by rewrite E.
Qed.

Lemma range_query_sound_witness :
  Heap.mk three_nodes three_rects = Heap.mk three_nodes three_rects /\
  Forall (fun p => Rectangle.contains_point (Rectangle.mk 0 0 1 1) p = true)
         [pt 0 0; pt 1 1].
Proof.
  apply (range_query_sound three_tree (Rectangle.mk 0 0 1 1)
           (Heap.mk three_nodes three_rects) (Heap.mk three_nodes three_rects)).
  vm_compute. reflexivity.
Defined.

Lemma slice_to_nonneg {A} (k : Z) (l : list A) :
  0 <= k -> RTree.slice_to k l = take (Z.to_nat k) l.
Proof. intros Hk. unfold RTree.slice_to. by destruct (Z.leb_spec 0 k); [|lia]. Qed.

Lemma knn_query_inv t q k h res h' :
  RTree.knn_query t q k h = Some (res, h') ->
  h' = h /\
  exists pts,
    RTree._collect_all_points (length (Heap.nodes h)) (RTree.root t) [] h = Some (pts, h) /\
    res = RTree.slice_to k
            (RTree.sort_by_distance ((fun p => (p, Point.distance_to q p)) <$> pts)).
Proof.
  unfold RTree.knn_query. destruct h as [ns rs]. rewrite run_depth_bound.
  intros (pts & h2 & Hc & Hr)%bind_inv.
  injection Hr as <- <-.
  pose proof (collect_appended _ _ _ _ _ Hc) as [Hh _]. simpl in Hh. subst h2.
  split; [done|]. by exists pts.
Qed.

(** X8: on any store, a [knn_query] that returns leaves the store as it
    was; for [0 <= k <= k'] the answer for [k] is the first [k] pairs of the
    answer for [k'], so asking for more neighbours only adds farther ones;
    the answer has at most [k] pairs and each pair holds the distance of its
    point. *)
Theorem knn_query_prefix (t : RTree.t) (q : Point.t) (k k' : Z) (h h1 h2 : Heap.t)
    (res res' : list (Point.t * surd)) :
  0 <= k <= k' ->
  RTree.knn_query t q k h = Some (res, h1) ->
  RTree.knn_query t q k' h = Some (res', h2) ->
  h1 = h /\ h2 = h /\ res = take (Z.to_nat k) res' /\
  Z.of_nat (length res) <= k /\
  Forall (fun pd => pd.2 = Point.distance_to q pd.1) res'.
Proof.
  intros Hk (-> & pts & Hc & ->)%knn_query_inv (-> & pts' & Hc' & ->)%knn_query_inv.
  assert (pts' = pts) as -> by congruence.
  rewrite !slice_to_nonneg by lia. split; [done|]. split; [done|].
  split; [|split].
  - rewrite take_take. f_equal. lia.
  - rewrite length_take. lia.
  - apply Forall_take, Forall_forall. intros [p d] Hin.
    apply sorted_pairs in Hin as [_ ->]. done.
Qed.

Lemma knn_query_prefix_witness :
  let h := Heap.mk three_nodes three_rects in
  h = h /\ h = h /\
  [(pt 0 0, Sqrt 0)] = take (Z.to_nat 1) [(pt 0 0, Sqrt 0); (pt 1 1, Sqrt 2)] /\
  Z.of_nat (length [(pt 0 0, Sqrt 0)]) <= 1 /\
  Forall (fun pd => pd.2 = Point.distance_to (pt 0 0) pd.1)
         [(pt 0 0, Sqrt 0); (pt 1 1, Sqrt 2)].
Proof.
  intros h.
  apply (knn_query_prefix three_tree (pt 0 0) 1 2 h h h); [lia|..];
    vm_compute; reflexivity.
Defined.

Lemma filter_take_prefix {A} (P : A -> Prop) `{!forall x, Decision (P x)} n (l : list A) :
  filter P (take n l) `prefix_of` filter P l.
Proof.
  rewrite <- (take_drop n l) at 2. rewrite filter_app. by apply prefix_app_r.
Qed.

(** X9: pairs of equal distance come in the order in which the traversal
    met their points: for every distance, the answer of [knn_query]
    restricted to it is a prefix of the traversal restricted to it. *)
Theorem knn_query_ties_in_traversal_order (t : RTree.t) (q : Point.t) (k : Z)
    (h h' : Heap.t) (res : list (Point.t * surd)) (v : Z) :
  0 <= k ->
  RTree.knn_query t q k h = Some (res, h') ->
  exists pts,
    RTree._collect_all_points (length (Heap.nodes h)) (RTree.root t) [] h = Some (pts, h) /\
    filter (fun pd : Point.t * surd => radicand pd.2 = v) res `prefix_of`
    filter (fun pd : Point.t * surd => radicand pd.2 = v)
           ((fun p => (p, Point.distance_to q p)) <$> pts).
Proof.
  intros Hk (-> & pts & Hc & ->)%knn_query_inv. exists pts. split; [done|].
  rewrite slice_to_nonneg by done.
  rewrite <- (sort_by_distance_stable v ((fun p => (p, Point.distance_to q p)) <$> pts)).
  apply filter_take_prefix.
Qed.

Lemma knn_query_ties_in_traversal_order_witness :
  exists pts,
    RTree._collect_all_points (length three_nodes) (RTree.root three_tree) []
      (Heap.mk three_nodes three_rects) = Some (pts, Heap.mk three_nodes three_rects) /\
    filter (fun pd : Point.t * surd => radicand pd.2 = 1)
           [(pt 0 0, Sqrt 1); (pt 1 1, Sqrt 1); (pt 2 2, Sqrt 5)] `prefix_of`
    filter (fun pd : Point.t * surd => radicand pd.2 = 1)
           ((fun p => (p, Point.distance_to (pt 1 0) p)) <$> pts).
Proof.
  apply (knn_query_ties_in_traversal_order three_tree (pt 1 0) 3
           (Heap.mk three_nodes three_rects) (Heap.mk three_nodes three_rects)); [lia|].
  vm_compute. reflexivity.
Defined.

(** ** What leaf selection does to the store *)

Lemma encloses_refl r : encloses r r.
Proof. unfold encloses. lia. Qed.

Lemma encloses_trans a b c : encloses a b -> encloses b c -> encloses a c.
Proof. unfold encloses. lia. Qed.

Lemma expand_encloses p r : encloses (Rectangle.expand_to_include p r) r.
Proof. unfold encloses. simpl. lia. Qed.

Global Instance grown_refl : Reflexive grown.
Proof.
  intros h. split; [done|]. apply Forall_Forall2_diag, Forall_forall.
  intros r _. apply encloses_refl.
Qed.

Global Instance grown_trans : Transitive grown.
Proof.
  intros h1 h2 h3 [N1 R1] [N2 R2]. split; [congruence|].
  revert R2. generalize (Heap.rects h3). induction R1 as [|a b l k Hab _ IH]; intros l3 R2.
  - by inversion R2.
  - inversion R2 as [|b' c k' l3' Hbc R2']; subst. constructor; [|by apply IH].
    by eapply encloses_trans.
Qed.

Lemma update_rect_grown er p h h1 :
  Heap.update_rect er (Rectangle.expand_to_include p) h = Some (tt, h1) -> grown h h1.
Proof.
  unfold Heap.update_rect. destruct er as [i|]; [|done].
  destruct (Heap.rects h !! i) as [v|] eqn:Hi; [|done]. intros [= <-].
  split; [done|]. simpl.
  rewrite <- (list_insert_id (Heap.rects h) i v Hi) at 1.
  apply Forall2_insert; [|apply expand_encloses].
  apply Forall_Forall2_diag, Forall_forall. intros r _. apply encloses_refl.
Qed.

Global Instance same_store_refl {B} : Reflexive (@same_store B).
Proof. by intros [b h]. Qed.

Global Instance same_store_trans {B} : Transitive (@same_store B).
Proof. intros [b1 h1] [b2 h2] [b3 h3]. unfold same_store. simpl. congruence. Qed.

Lemma scan_entry_same_store rect acc e h r :
  RTree.scan_entry rect acc e h = Some r -> same_store (acc, h) r.
Proof.
  unfold RTree.scan_entry. destruct acc as [m best], e as [er cd].
  intros (v & h1 & [-> _]%get_rect_inv & (w & h2 & [-> _]%get_rect_inv & Hr)%bind_inv)%bind_inv.
  by destruct (lt_ext _ m); injection Hr as <-.
Qed.

Lemma descend_inv fuel rect e h r :
  descend fuel rect e h = Some r ->
  exists c h1, e.2 = RTreeNode.DNode c /\ grown h h1 /\
               RTree._choose_leaf fuel c rect h1 = Some r.
Proof.
  unfold descend. destruct e as [er cd].
  intros (v & h1 & [-> _]%get_rect_inv & Hr)%bind_inv.
  apply bind_inv in Hr as ([] & h2 & Hu1 & Hr).
  apply bind_inv in Hr as (w & h3 & [-> _]%get_rect_inv & Hr).
  apply bind_inv in Hr as ([] & h4 & Hu2 & Hr).
  destruct cd as [p|c]; [done|]. exists c, h4. split; [done|]. split; [|done].
  trans h2; by eapply update_rect_grown.
Qed.

(** X10: on any store, a [_choose_leaf] that returns has only expanded
    rectangle objects: the nodes and their entries are as before, no
    rectangle object was created or removed, every rectangle encloses what
    it was, and the node returned is a leaf. *)
Theorem choose_leaf_only_expands (fuel node rect : nat) (h h' : Heap.t) (leaf : nat) :
  RTree._choose_leaf fuel node rect h = Some (leaf, h') ->
  grown h h' /\
  exists nd, Heap.nodes h' !! leaf = Some nd /\ RTreeNode.is_leaf nd = true.
Proof.
  revert node h. induction fuel as [|fuel IH]; intros node h; [done|].
  rewrite choose_leaf_S.
  intros (nd & h1 & [-> Hnd]%get_node_inv & Hr)%bind_inv.
  destruct (RTreeNode.is_leaf nd) eqn:Hl.
  - injection Hr as <- <-. split; [reflexivity|]. by exists nd.
  - apply bind_inv in Hr as (best & h2 & Hscan & Hr).
    assert (h2 = h) as ->.
    { revert Hscan. apply (for_each_rel same_store).
      intros a acc h3 r _. apply scan_entry_same_store. }
    destruct best.2 as [e|]; [|done].
    apply descend_inv in Hr as (c & h3 & _ & Hg & Hr).
    destruct (IH _ _ Hr) as [Hg' Hleaf]. split; [|done]. by trans h3.
Qed.

Lemma choose_leaf_only_expands_witness :
  grown (Heap.mk three_nodes three_rects)
        (Heap.mk three_nodes (<[7%nat := Rectangle.mk 1 1 2 2]> three_rects)) /\
  exists nd,
    Heap.nodes (Heap.mk three_nodes (<[7%nat := Rectangle.mk 1 1 2 2]> three_rects)) !! 1%nat
      = Some nd /\
    RTreeNode.is_leaf nd = true.
Proof.
  apply (choose_leaf_only_expands 2 2 4 (Heap.mk three_nodes three_rects)).
  vm_compute. reflexivity.
Defined.

(** ** [calculate_mbr] on its own *)

Lemma foldl_min_in a l : foldl Z.min a l ∈ a :: l.
Proof.
  revert a. induction l as [|b l IH]; intros a; simpl; [by left|].
  specialize (IH (Z.min a b)). apply elem_of_cons in IH as [->|IH].
  - destruct (Z.min_spec a b) as [[_ ->]|[_ ->]]; [by left|by right; left].
  - by right; right.
Qed.

Lemma foldl_max_in a l : foldl Z.max a l ∈ a :: l.
Proof.
  revert a. induction l as [|b l IH]; intros a; simpl; [by left|].
  specialize (IH (Z.max a b)). apply elem_of_cons in IH as [->|IH].
  - destruct (Z.max_spec a b) as [[_ ->]|[_ ->]]; [by right; left|by left].
  - by right; right.
Qed.

Lemma py_min_in l m : py_min l = Some m -> m ∈ l.
Proof. destruct l as [|a l]; [done|]. intros [= <-]. apply foldl_min_in. Qed.

Lemma py_max_in l m : py_max l = Some m -> m ∈ l.
Proof. destruct l as [|a l]; [done|]. intros [= <-]. apply foldl_max_in. Qed.

(** X11: on a node with at least one entry, all with a rectangle,
    [calculate_mbr] creates one new rectangle object, makes it the [mbr] of
    the node and changes nothing else (entries, other nodes and existing
    rectangle objects stay as they are).  The new rectangle encloses the
    rectangle of every entry, and each of its four bounds is the bound of
    some entry: it is the least such rectangle. *)
Theorem calculate_mbr_tight (ns : list RTreeNode.t) (rs : list Rectangle.t)
    (n : nat) (nd : RTreeNode.t) (vs : list Rectangle.t) :
  ns !! n = Some nd -> RTreeNode.entries nd <> [] ->
  mapM (rect_of rs) (RTreeNode.entries nd) = Some vs ->
  exists b,
    calculate_mbr n (Heap.mk ns rs) =
      Some (tt, Heap.mk (<[n := RTreeNode.set_mbr (Some (length rs)) nd]> ns) (rs ++ [b])) /\
    Forall (encloses b) vs /\
    Rectangle.min_x b ∈ Rectangle.min_x <$> vs /\
    Rectangle.min_y b ∈ Rectangle.min_y <$> vs /\
    Rectangle.max_x b ∈ Rectangle.max_x <$> vs /\
    Rectangle.max_y b ∈ Rectangle.max_y <$> vs.
Proof.
  intros Hn Hne Hr. apply reads_mapM in Hr.
  destruct (calculate_mbr_spec ns rs n nd vs Hn Hne Hr) as (b & Hb & Hc).
  exists b. split; [done|]. unfold bounding in Hb. simplify_option_eq.
  split; [|simpl; split; [by apply py_min_in|split; [by apply py_min_in|
           split; [by apply py_max_in|by apply py_max_in]]]].
  apply Forall_forall. intros v Hv. unfold encloses. simpl.
  pose proof (py_min_le _ _ (Rectangle.min_x v) Heqo ltac:(by apply list_elem_of_fmap_2)).
  pose proof (py_min_le _ _ (Rectangle.min_y v) Heqo0 ltac:(by apply list_elem_of_fmap_2)).
  pose proof (py_max_ge _ _ (Rectangle.max_x v) Heqo1 ltac:(by apply list_elem_of_fmap_2)).
  pose proof (py_max_ge _ _ (Rectangle.max_y v) Heqo2 ltac:(by apply list_elem_of_fmap_2)).
  lia.
Qed.

Lemma calculate_mbr_tight_witness :
  let nd := RTreeNode.mk true 2
              [(Some 2%nat, RTreeNode.DPoint (pt 1 1)); (Some 4%nat, RTreeNode.DPoint (pt 2 2))]
              (Some 7%nat) in
  let vs := [Rectangle.mk 1 1 1 1; Rectangle.mk 2 2 2 2] in
  exists b,
    calculate_mbr 1 (Heap.mk three_nodes three_rects) =
      Some (tt, Heap.mk (<[1%nat := RTreeNode.set_mbr (Some (length three_rects)) nd]> three_nodes)
                        (three_rects ++ [b])) /\
    Forall (encloses b) vs /\
    Rectangle.min_x b ∈ Rectangle.min_x <$> vs /\
    Rectangle.min_y b ∈ Rectangle.min_y <$> vs /\
    Rectangle.max_x b ∈ Rectangle.max_x <$> vs /\
    Rectangle.max_y b ∈ Rectangle.max_y <$> vs.
Proof.
  intros nd vs.
  apply (calculate_mbr_tight three_nodes three_rects 1 nd vs);
    [reflexivity|discriminate|reflexivity].
Defined.

(** ** Splitting the root *)

Lemma promote_root_run t ns rs node new_node nd nn i1 i2 b1 b2 :
  ns !! node = Some nd -> ns !! new_node = Some nn ->
  RTreeNode.mbr nd = Some i1 -> RTreeNode.mbr nn = Some i2 ->
  rs !! i1 = Some b1 -> rs !! i2 = Some b2 ->
  exists b,
    promote_root t node new_node (Heap.mk ns rs) =
    Some ({| RTree.root := length ns; RTree.max_entries := RTree.max_entries t;
             RTree.size := RTree.size t; RTree.height := RTree.height t + 1 |},
          Heap.mk (ns ++ [RTreeNode.mk false (RTree.max_entries t)
                            [(Some i1, RTreeNode.DNode node); (Some i2, RTreeNode.DNode new_node)]
                            (Some (length rs))])
                  (rs ++ [b])).
Proof.
  intros Hnd Hnn Hm1 Hm2 H1 H2.
  set (top := RTreeNode.mk false (RTree.max_entries t)
                [(Some i1, RTreeNode.DNode node); (Some i2, RTreeNode.DNode new_node)] None).
  destruct (calculate_mbr_spec (ns ++ [top]) rs (length ns) top [b1; b2]) as (b & _ & Hc);
    [apply lookup_last|done| |].
  { repeat constructor; simpl; done. }
  rewrite insert_last in Hc.
  exists b. unfold promote_root. rewrite run_new_node.
  rewrite (run_get_node _ _ _ node nd)
    by (rewrite lookup_app_l; [done|by eapply lookup_lt_Some]).
  rewrite (run_get_node _ _ _ new_node nn)
    by (rewrite lookup_app_l; [done|by eapply lookup_lt_Some]).
  rewrite (run_update_node _ _ _ (length ns) _ _ (lookup_last _ _)), insert_last.
  rewrite Hm1, Hm2. by rewrite (bind_run _ _ _ _ _ Hc).
Qed.

(** X12: [_split_node] on the root, when the root has an entry, every entry
    has a rectangle, and the root has two entries or more or an [mbr]:
    it returns; [size] and [max_entries] stay, [height] grows by one, and
    the root is a new node that is not a leaf and has exactly the two
    entries [(kept.mbr, old root)] and [(moved.mbr, new node)].  The old
    root keeps its first [len / 2] entries and the new node holds the
    others, so together they hold the entries of the old root in order;
    both keep its [is_leaf], and no other node is changed. *)
Theorem split_root_keeps_entries (t : RTree.t) (ns : list RTreeNode.t)
    (rs : list Rectangle.t) (nd : RTreeNode.t) (vs : list Rectangle.t) :
  ns !! RTree.root t = Some nd ->
  RTreeNode.entries nd <> [] ->
  mapM (rect_of rs) (RTreeNode.entries nd) = Some vs ->
  (2 <= length (RTreeNode.entries nd))%nat \/
    is_Some (RTreeNode.mbr nd ≫= fun i => rs !! i) ->
  let mid := (length (RTreeNode.entries nd) / 2)%nat in
  let sibling := length ns in
  let new_root := S (length ns) in
  exists h' kept moved top,
    RTree._split_node t (RTree.root t) (Heap.mk ns rs) =
      Some ({| RTree.root := new_root; RTree.max_entries := RTree.max_entries t;
               RTree.size := RTree.size t; RTree.height := RTree.height t + 1 |}, h') /\
    Heap.nodes h' !! RTree.root t = Some kept /\
    Heap.nodes h' !! sibling = Some moved /\
    Heap.nodes h' !! new_root = Some top /\
    RTreeNode.entries kept = take mid (RTreeNode.entries nd) /\
    RTreeNode.entries moved = drop mid (RTreeNode.entries nd) /\
    RTreeNode.entries kept ++ RTreeNode.entries moved = RTreeNode.entries nd /\
    RTreeNode.is_leaf kept = RTreeNode.is_leaf nd /\
    RTreeNode.is_leaf moved = RTreeNode.is_leaf nd /\
    RTreeNode.is_leaf top = false /\
    RTreeNode.entries top =
      [(RTreeNode.mbr kept, RTreeNode.DNode (RTree.root t));
       (RTreeNode.mbr moved, RTreeNode.DNode sibling)] /\
    (forall n, n <> RTree.root t -> (n < sibling)%nat -> Heap.nodes h' !! n = ns !! n).
Proof.
  intros Hn Hne Hr Hmbr mid sibling new_root. apply reads_mapM in Hr.
  pose proof (lookup_lt_Some _ _ _ Hn) as Hlt.
  destruct (split_node_halves t ns rs (RTree.root t) nd vs Hn Hr)
    as (m1 & m2 & rs' & Hs & Hm1 & Hm2).
  rewrite Nat.eqb_refl in Hs. fold mid in Hs, Hm1, Hm2.
  assert (Hlen : (0 < length (RTreeNode.entries nd))%nat)
    by (destruct (RTreeNode.entries nd); [done|simpl; lia]).
  assert (exists i1 b1, m1 = Some i1 /\ (rs ++ rs') !! i1 = Some b1) as (i1 & b1 & -> & Hi1).
  { destruct Hm1 as [[He ->]|(i & b & -> & _ & Hi & _)]; [|by exists i, b].
    destruct Hmbr as [H2|[b Hb]].
    - apply (f_equal length) in He. rewrite length_take in He. simpl in He.
      pose proof (Nat.div_le_lower_bound (length (RTreeNode.entries nd)) 2 1 ltac:(lia) ltac:(lia)).
      fold mid in H. lia.
    - destruct (RTreeNode.mbr nd) as [i|]; [|done]. simpl in Hb. exists i, b. split; [done|].
      rewrite lookup_app_l; [done|]. by eapply lookup_lt_Some. }
  assert (exists i2 b2, m2 = Some i2 /\ (rs ++ rs') !! i2 = Some b2) as (i2 & b2 & -> & Hi2).
  { destruct Hm2 as [[He ->]|(i & b & -> & _ & Hi & _)]; [|by exists i, b].
    apply (f_equal length) in He. rewrite length_drop in He. simpl in He.
    pose proof (Nat.div_lt (length (RTreeNode.entries nd)) 2 ltac:(lia) ltac:(lia)).
    fold mid in H. lia. }
  set (kept := RTreeNode.mk (RTreeNode.is_leaf nd) (RTreeNode.max_entries nd)
                 (take mid (RTreeNode.entries nd)) (Some i1)) in *.
  set (moved := RTreeNode.mk (RTreeNode.is_leaf nd) (RTree.max_entries t)
                  (drop mid (RTreeNode.entries nd)) (Some i2)) in *.
  set (ns2 := <[RTree.root t := kept]> ns ++ [moved]) in *.
  assert (Hk : ns2 !! RTree.root t = Some kept).
  { unfold ns2. rewrite lookup_app_l by (by rewrite length_insert).
    by apply list_lookup_insert_eq. }
  assert (Hm : ns2 !! length ns = Some moved).
  { unfold ns2. rewrite <- (length_insert ns (RTree.root t) kept). apply lookup_last. }
  assert (Hl2 : length ns2 = S (length ns)).
  { unfold ns2. rewrite length_app, length_insert. simpl. lia. }
  destruct (promote_root_run t ns2 (rs ++ rs') (RTree.root t) (length ns) kept moved
              i1 i2 b1 b2 Hk Hm eq_refl eq_refl Hi1 Hi2) as (b & Hp).
  rewrite Hp, Hl2 in Hs. clear Hp.
  eexists _, kept, moved,
    (RTreeNode.mk false (RTree.max_entries t)
       [(Some i1, RTreeNode.DNode (RTree.root t)); (Some i2, RTreeNode.DNode (length ns))]
       (Some (length (rs ++ rs')))).
  split; [exact Hs|]. cbn [Heap.nodes].
  split; [|split; [|split; [|split; [done|split; [done|split;
    [apply take_drop|split; [done|split; [done|split; [done|split; [done|]]]]]]]]]].
  - rewrite lookup_app_l; [done|]. by eapply lookup_lt_Some.
  - rewrite lookup_app_l; [done|]. by eapply lookup_lt_Some.
  - unfold new_root. rewrite <- Hl2. apply lookup_last.
  - intros n Hnn Hlt'. unfold sibling in Hlt'.
    rewrite lookup_app_l by lia. unfold ns2.
    rewrite lookup_app_l by (by rewrite length_insert).
    by apply list_lookup_insert_ne.
Qed.

Lemma split_root_keeps_entries_witness :
  let t := RTree.mk 0 2 3 1 in
  let nd := RTreeNode.mk true 2
              [(Some 0%nat, RTreeNode.DPoint (pt 0 0)); (Some 1%nat, RTreeNode.DPoint (pt 1 1));
               (Some 2%nat, RTreeNode.DPoint (pt 2 2))] None in
  let rs := [point_rect (pt 0 0); point_rect (pt 1 1); point_rect (pt 2 2)] in
  exists h' kept moved top,
    RTree._split_node t 0 (Heap.mk [nd] rs) =
      Some ({| RTree.root := 2; RTree.max_entries := 2; RTree.size := 3;
               RTree.height := 1 + 1 |}, h') /\
    Heap.nodes h' !! 0%nat = Some kept /\
    Heap.nodes h' !! 1%nat = Some moved /\
    Heap.nodes h' !! 2%nat = Some top /\
    RTreeNode.entries kept = take 1 (RTreeNode.entries nd) /\
    RTreeNode.entries moved = drop 1 (RTreeNode.entries nd) /\
    RTreeNode.entries kept ++ RTreeNode.entries moved = RTreeNode.entries nd /\
    RTreeNode.is_leaf kept = RTreeNode.is_leaf nd /\
    RTreeNode.is_leaf moved = RTreeNode.is_leaf nd /\
    RTreeNode.is_leaf top = false /\
    RTreeNode.entries top =
      [(RTreeNode.mbr kept, RTreeNode.DNode 0%nat);
       (RTreeNode.mbr moved, RTreeNode.DNode 1%nat)] /\
    (forall n, n <> 0%nat -> (n < 1)%nat -> Heap.nodes h' !! n = [nd] !! n).
Proof.
  intros t nd rs.
  apply (split_root_keeps_entries t [nd] rs nd rs);
    [reflexivity|discriminate|reflexivity|left; simpl; lia].
Defined.

(** ** Trees of height two *)

Lemma split_state_shape M rpsA rpsB t h :
  split_state M rpsA rpsB t h -> shape M t h (rpsA.*2 ++ rpsB.*2).
Proof.
  intros (sz & mA & mB & mR & ra & rb & Ra & Rb & rest & rs & -> & -> & HA & HB & Hra &
          Hrb & Hd & HcA & HcB).
  by eapply shape_split.
Qed.

Lemma after_insert_take M rps rect p :
  exists k, after_insert M rps rect p = take k (rps ++ [(rect, p)]).
Proof.
  unfold after_insert. cbv zeta.
  destruct (Z.of_nat (length (rps ++ [(rect, p)])) <=? M).
  - exists (length (rps ++ [(rect, p)])). by rewrite firstn_all.
  - by eexists.
Qed.

Lemma insert_tail_after t ns rs leaf rect p rps m M :
  ns !! leaf = Some (RTreeNode.mk true M (leaf_entries rps) m) ->
  RTree.max_entries t = M ->
  Forall (stored rs) rps ->
  rs !! rect = Some (point_rect p) ->
  leaf <> RTree.root t ->
  exists m' more rs',
    insert_tail t leaf rect p (Heap.mk ns rs) =
    Some (counted t,
          Heap.mk (<[leaf := RTreeNode.mk true M
                               (leaf_entries (after_insert M rps rect p)) m']> ns ++ more)
                  (rs ++ rs')).
Proof.
  intros Hn HM Hst Hrect Hne. unfold after_insert. cbv zeta.
  destruct (insert_tail_spec t ns rs leaf rect p rps m M Hn HM Hst Hrect)
    as [(Hle & b & ->)|(Hgt & i1 & b1 & i2 & b2 & m2 & rs' & -> & _)].
  - destruct (Z.leb_spec (Z.of_nat (length (rps ++ [(rect, p)]))) M); [|lia].
    exists (Some (length rs)), [], [b]. by rewrite app_nil_r.
  - destruct (Z.leb_spec (Z.of_nat (length (rps ++ [(rect, p)]))) M); [lia|].
    apply Nat.eqb_neq in Hne. rewrite Hne. by eexists _, _, _.
Qed.

(** An insertion into a tree of height two puts the point into one of the
    two leaves, which may overflow and lose its second half. *)
Lemma insert_split_run M rpsA rpsB t h p :
  split_state M rpsA rpsB t h ->
  exists t' h' rect,
    RTree.insert t p h = Some (t', h') /\ RTree.size t' = RTree.size t + 1 /\
    (split_state M (after_insert M rpsA rect p) rpsB t' h' \/
     split_state M rpsA (after_insert M rpsB rect p) t' h').
Proof.
  intros (sz & mA & mB & mR & ra & rb & Ra & Rb & rest & rs & -> & -> & HstA & HstB & Hra &
          Hrb & Hdis & HcA & HcB).
  apply Forall_app in Hdis as [HdA HdB].
  set (t := RTree.mk 2 M sz 2).
  set (A := RTreeNode.mk true M (leaf_entries rpsA) mA).
  set (B := RTreeNode.mk true M (leaf_entries rpsB) mB).
  set (top := RTreeNode.mk false M _ mR).
  set (rect := length rs). set (rs1 := rs ++ [point_rect p]).
  pose proof (lookup_lt_Some _ _ _ Hra) as Hlta.
  pose proof (lookup_lt_Some _ _ _ Hrb) as Hltb.
  assert (Hrect : rs1 !! rect = Some (point_rect p)) by apply lookup_last.
  assert (Hra1 : rs1 !! ra = Some Ra) by (by unfold rs1; rewrite lookup_app_l).
  assert (Hrb1 : rs1 !! rb = Some Rb) by (by unfold rs1; rewrite lookup_app_l).
  assert (Hna : rect <> ra) by (unfold rect; lia).
  assert (Hnb : rect <> rb) by (unfold rect; lia).
  rewrite insert_unfold, run_new_rect, run_depth_bound. fold rect rs1. cbn [length].
  destruct (choose_leaf_two (S (length rest)) (A :: B :: top :: rest) rs1 rect p
              ra rb Ra Rb A B mR M rest eq_refl eq_refl eq_refl Hra1 Hrb1 Hrect Hna Hnb)
    as [Hch|Hch]; rewrite (bind_run _ _ _ _ _ Hch); clear Hch.
  - set (rs2 := <[ra := expanded p Ra]> rs1).
    assert (Hrect2 : rs2 !! rect = Some (point_rect p))
      by (by unfold rs2; rewrite list_lookup_insert_ne).
    assert (HstA2 : Forall (stored rs2) rpsA).
    { rewrite <- (app_nil_r rs2). apply stored_after; [done|].
      eapply Forall_impl; [exact HdA|]. by intros rp []. }
    destruct (insert_tail_after t (A :: B :: top :: rest) rs2 0 rect p rpsA mA M
                eq_refl eq_refl HstA2 Hrect2 ltac:(done))
      as (m' & more & rs' & ->).
    cbn [list_insert insert app].
    destruct (covers_after rs p ra Ra rs' ra Ra rpsA Hra Hra HcA) as (Ra' & HRa' & _ & HeqA).
    specialize (HeqA eq_refl). subst Ra'.
    destruct (covers_after rs p ra Ra rs' rb Rb rpsB Hra Hrb HcB) as (Rb' & HRb' & HcB' & _).
    eexists _, _, rect. split; [reflexivity|]. split; [done|]. left.
    destruct (after_insert_take M rpsA rect p) as [k ->].
    exists (sz + 1), m', mB, mR, ra, rb, (expanded p Ra), Rb', (rest ++ more), (rs2 ++ rs').
    split; [done|]. split; [done|].
    split; [|split; [|split; [done|split; [done|split; [|split; [|done]]]]]].
    + apply Forall_take, Forall_app. split.
      * apply stored_after; [done|]. eapply Forall_impl; [exact HdA|]. by intros rp [].
      * constructor; [|done]. by apply stored_app.
    + apply stored_after; [done|]. eapply Forall_impl; [exact HdB|]. by intros rp [].
    + apply Forall_app. split; [|done].
      apply Forall_take, Forall_app. split; [done|]. by constructor.
    + apply Forall_take, Forall_app. split.
      * eapply Forall_impl; [exact HcA|]. intros rp. apply expanded_mono.
      * constructor; [|done]. apply expanded_contains.
  - set (rs2 := <[rb := expanded p Rb]> rs1).
    assert (Hrect2 : rs2 !! rect = Some (point_rect p))
      by (by unfold rs2; rewrite list_lookup_insert_ne).
    assert (HstB2 : Forall (stored rs2) rpsB).
    { rewrite <- (app_nil_r rs2). apply stored_after; [done|].
      eapply Forall_impl; [exact HdB|]. by intros rp []. }
    destruct (insert_tail_after t (A :: B :: top :: rest) rs2 1 rect p rpsB mB M
                eq_refl eq_refl HstB2 Hrect2 ltac:(done))
      as (m' & more & rs' & ->).
    cbn [list_insert insert app].
    destruct (covers_after rs p rb Rb rs' rb Rb rpsB Hrb Hrb HcB) as (Rb' & HRb' & _ & HeqB).
    specialize (HeqB eq_refl). subst Rb'.
    destruct (covers_after rs p rb Rb rs' ra Ra rpsA Hrb Hra HcA) as (Ra' & HRa' & HcA' & _).
    eexists _, _, rect. split; [reflexivity|]. split; [done|]. right.
    destruct (after_insert_take M rpsB rect p) as [k ->].
    exists (sz + 1), mA, m', mR, ra, rb, Ra', (expanded p Rb), (rest ++ more), (rs2 ++ rs').
    split; [done|]. split; [done|].
    split; [|split; [|split; [done|split; [done|split; [|split; [done|]]]]]].
    + apply stored_after; [done|]. eapply Forall_impl; [exact HdA|]. by intros rp [].
    + apply Forall_take, Forall_app. split.
      * apply stored_after; [done|]. eapply Forall_impl; [exact HdB|]. by intros rp [].
      * constructor; [|done]. by apply stored_app.
    + apply Forall_app. split; [done|].
      apply Forall_take, Forall_app. split; [done|]. by constructor.
    + apply Forall_take, Forall_app. split.
      * eapply Forall_impl; [exact HcB|]. intros rp. apply expanded_mono.
      * constructor; [|done]. apply expanded_contains.
Qed.

(** A property of the two leaves that every insertion keeps is kept by any
    number of insertions. *)
Lemma insert_all_split M (P : list (nat * Point.t) -> list (nat * Point.t) -> Prop) :
  (forall A B rect p, P A B -> P (after_insert M A rect p) B) ->
  (forall A B rect p, P A B -> P A (after_insert M B rect p)) ->
  forall ps t h A B,
    split_state M A B t h -> P A B ->
    exists t' h' A' B',
      insert_all t ps h = Some (t', h') /\ split_state M A' B' t' h' /\ P A' B' /\
      RTree.size t' = RTree.size t + Z.of_nat (length ps).
Proof.
  intros HA HB. induction ps as [|p ps IH]; intros t h A B Hs HP.
  - exists t, h, A, B. simpl. repeat split; [done..|lia].
  - destruct (insert_split_run M A B t h p Hs) as (t1 & h1 & rect & Hi & Hsz & [Hs1|Hs1]).
    + destruct (IH t1 h1 _ B Hs1 (HA _ _ rect p HP)) as (t' & h' & A' & B' & Hi' & Hs' & HP' & Hsz').
      exists t', h', A', B'. split; [|split; [done|split; [done|]]].
      * unfold insert_all in *. cbn [Heap.for_each]. by rewrite (bind_run _ _ _ _ _ Hi).
      * rewrite Hsz', Hsz, length_cons. lia.
    + destruct (IH t1 h1 A _ Hs1 (HB _ _ rect p HP)) as (t' & h' & A' & B' & Hi' & Hs' & HP' & Hsz').
      exists t', h', A', B'. split; [|split; [done|split; [done|]]].
      * unfold insert_all in *. cbn [Heap.for_each]. by rewrite (bind_run _ _ _ _ _ Hi).
      * rewrite Hsz', Hsz, length_cons. lia.
Qed.

Lemma build_app M ps qs :
  build M (ps ++ qs) =
  match build M ps with
  | Some (t, h) => insert_all t qs h
  | None => None
  end.
Proof.
  unfold build, insert_all.
  destruct (shape_init M) as (t0 & h0 & Hi & _).
  rewrite !(bind_run _ _ _ _ _ Hi), for_each_app. unfold Heap.bind at 1.
  by destruct (Heap.for_each ps RTree.insert t0 h0) as [[t h]|].
Qed.

(** The insertion that promotes the root: it is the first one that makes
    the number of points exceed the capacity. *)
Lemma build_first_split M ps :
  ps <> [] -> M < Z.of_nat (length ps) ->
  exists ps1 p ps2 rps rect t h,
    ps = ps1 ++ p :: ps2 /\ rps.*2 = ps1 /\
    Z.of_nat (length ps1) = Z.max M 0 /\
    build M (ps1 ++ [p]) = Some (t, h) /\
    let rps1 := rps ++ [(rect, p)] in
    split_state M (take (length rps1 / 2) rps1) (drop (length rps1 / 2) rps1) t h.
Proof.
  intros Hne Hlen.
  set (k := Z.to_nat (Z.max M 0)).
  assert (Hk : (k < length ps)%nat).
  { unfold k. destruct ps; [done|]. simpl in *. lia. }
  destruct (lookup_lt_is_Some_2 ps k Hk) as [p Hp].
  exists (take k ps), p, (drop (S k) ps).
  assert (Hl1 : length (take k ps) = k) by (rewrite length_take; lia).
  assert (exists rps m rs,
            build M (take k ps) =
              Some (RTree.mk 0 M (Z.of_nat k) 1,
                    Heap.mk [RTreeNode.mk true M (leaf_entries rps) m] rs) /\
            rps.*2 = take k ps /\ Forall (stored rs) rps) as (rps & m & rs & Hb & Hps & Hst).
  { destruct (decide (k = 0%nat)) as [->|Hk0].
    - exists [], None, []. by rewrite take_0.
    - destruct (leaf_phase M (take k ps)) as (rps & m & rs & Hb & Hps & Hst).
      { rewrite Hl1. unfold k in *. lia. }
      rewrite Hl1 in Hb. by exists rps, m, rs. }
  assert (Hl : length rps = k) by (by rewrite <- Hl1, <- Hps, length_fmap).
  exists rps, (length rs).
  destruct (insert_leaf_run M (Z.of_nat k) rps m rs p Hst)
    as [(Hle & _)|(_ & i1 & b1 & i2 & b2 & mR & rs' & Hi & Hst' & Hi1 & Hi2 & Hd & Hc1 & Hc2)].
  { rewrite length_app, Hl in Hle. simpl in Hle. unfold k in *. lia. }
  eexists _, _. split; [by rewrite <- (take_drop_middle ps k p Hp) at 1|].
  split; [done|]. split; [rewrite Hl1; unfold k; lia|].
  split; [by rewrite build_snoc, Hb|].
  cbv zeta. eexists _, _, _, _, i1, i2, b1, b2, [], rs'.
  split; [done|]. split; [done|].
  split; [by apply Forall_take|]. split; [by apply Forall_drop|].
  split; [done|]. split; [done|]. split; [by rewrite take_drop|]. done.
Qed.

Lemma reach_split h A B ra rb mR M rest rs n :
  h = Heap.mk
        (RTreeNode.mk true M (leaf_entries A) ra.1 ::
         RTreeNode.mk true M (leaf_entries B) rb.1 ::
         RTreeNode.mk false M
           [(Some ra.2, RTreeNode.DNode 0%nat); (Some rb.2, RTreeNode.DNode 1%nat)] mR ::
         rest) rs ->
  reachable h 2 n -> n = 2%nat \/ n = 0%nat \/ n = 1%nat.
Proof.
  intros ->. induction 1 as [|b c nd _ [ -> | [ -> | -> ]] Hb Href]; [by left|..];
    injection Hb as <-.
  - destruct c as [|[|c]]; [by right; left|by right; right|done].
  - by rewrite leaf_refers_to in Href.
  - by rewrite leaf_refers_to in Href.
Qed.

Lemma split_state_nodes M A B t h n nd :
  split_state M A B t h ->
  reachable h (RTree.root t) n -> Heap.nodes h !! n = Some nd ->
  (n = 0%nat /\ RTreeNode.is_leaf nd = true /\ RTreeNode.entries nd = leaf_entries A) \/
  (n = 1%nat /\ RTreeNode.is_leaf nd = true /\ RTreeNode.entries nd = leaf_entries B) \/
  (n = 2%nat /\ RTreeNode.is_leaf nd = false /\ length (RTreeNode.entries nd) = 2%nat).
Proof.
  intros (sz & mA & mB & mR & ra & rb & Ra & Rb & rest & rs & -> & -> & _) Hreach Hn.
  apply (reach_split _ A B (mA, ra) (mB, rb) mR M rest rs n eq_refl) in Hreach
    as [ -> | [ -> | -> ]]; injection Hn as <-; auto.
Qed.

(** X13: on points with integer coordinates every build returns, and the
    height of the built tree is 1 with a leaf root as long as the
    number of inserted points is zero or at most the capacity, and is 2 with
    a root of exactly two entries for every larger number of points: the
    tree never grows beyond height 2. *)
Theorem height_one_or_two (M : Z) (ps : list Point.t) :
  exists t h nd,
    build M ps = Some (t, h) /\ Heap.nodes h !! RTree.root t = Some nd /\
    (ps = [] \/ Z.of_nat (length ps) <= M ->
       RTree.height t = 1 /\ RTreeNode.is_leaf nd = true) /\
    (ps <> [] /\ M < Z.of_nat (length ps) ->
       RTree.height t = 2 /\ RTreeNode.is_leaf nd = false /\
       length (RTreeNode.entries nd) = 2%nat).
Proof.
  destruct (decide (ps = [] \/ Z.of_nat (length ps) <= M)) as [Hsmall|Hbig].
  - assert (exists rps m rs,
              build M ps =
                Some (RTree.mk 0 M (Z.of_nat (length ps)) 1,
                      Heap.mk [RTreeNode.mk true M (leaf_entries rps) m] rs))
      as (rps & m & rs & ->).
    { destruct (decide (ps = [])) as [->|Hne].
      - by exists [], None, [].
      - destruct (leaf_phase M ps) as (rps & m & rs & Hb & _); [by destruct Hsmall|].
        by exists rps, m, rs. }
    eexists _, _, _. split; [done|]. split; [done|]. split; [done|].
    intros [Hne Hgt]. exfalso. destruct Hsmall; [by apply Hne|lia].
  - assert (Hne : ps <> []) by (intros Heq; apply Hbig; by left).
    assert (Hgt : M < Z.of_nat (length ps)).
    { destruct (Z.lt_ge_cases M (Z.of_nat (length ps))); [done|].
      exfalso. apply Hbig. right. lia. }
    destruct (build_first_split M ps Hne Hgt)
      as (ps1 & p & ps2 & rps & rect & t1 & h1 & -> & _ & _ & Hb & Hs).
    cbv zeta in Hs.
    destruct (insert_all_split M (fun _ _ => True) ltac:(done) ltac:(done) ps2 t1 h1 _ _ Hs I)
      as (t & h & A & B & Hi & Hs' & _ & _).
    assert (Hbuild : build M (ps1 ++ p :: ps2) = Some (t, h))
      by (by rewrite (cons_middle p ps1 ps2), (assoc_L (++)), build_app, Hb).
    rewrite Hbuild.
    destruct Hs' as (sz & mA & mB & mR & ra & rb & Ra & Rb & rest & rs & -> & -> & _).
    eexists _, _, _. split; [done|]. split; [done|]. split; [|done].
    intros Hsmall. by destruct Hbig.
Qed.

(** X14: with capacity [M >= 1] a built index never holds more than [2 * M]
    reachable points, however many were inserted, and every leaf that can
    be reached from the root holds at most [M] entries. *)
Theorem reachable_points_bounded (M : Z) (ps : list Point.t) :
  1 <= M ->
  exists t h pts,
    build M ps = Some (t, h) /\
    RTree._collect_all_points (length (Heap.nodes h)) (RTree.root t) [] h = Some (pts, h) /\
    Z.of_nat (length pts) <= Z.min (Z.of_nat (length ps)) (2 * M) /\
    forall n nd,
      reachable h (RTree.root t) n -> Heap.nodes h !! n = Some nd ->
      RTreeNode.is_leaf nd = true -> Z.of_nat (length (RTreeNode.entries nd)) <= M.
Proof.
  intros HM.
  destruct (build_shape M ps) as (t & h & pts & Hb & Hshape & _ & Hsub).
  exists t, h, pts. split; [done|]. split; [by eapply collect_shape|].
  pose proof (submseteq_length _ _ Hsub) as HlenN.
  destruct (decide (Z.of_nat (length ps) <= M)) as [Hsmall|Hbig].
  - destruct (leaf_phase M ps Hsmall) as (rps & m & rs & Hb' & Hps & Hst).
    rewrite Hb in Hb'. injection Hb' as -> ->. split; [lia|].
    intros n nd Hreach Hn _.
    assert (n = 0%nat) as ->.
    { clear Hn. induction Hreach as [|b c nd' _ -> Hb' Href]; [done|].
      injection Hb' as <-. by rewrite leaf_refers_to in Href. }
    injection Hn as <-. simpl. rewrite leaf_entries_length.
    rewrite <- Hps, length_fmap in Hsmall. lia.
  - assert (Hne : ps <> []) by (intros ->; simpl in *; lia).
    destruct (build_first_split M ps Hne ltac:(lia))
      as (ps1 & p & ps2 & rps & rect & t1 & h1 & -> & Hps1 & Hl1 & Hb1 & Hs).
    cbv zeta in Hs.
    set (P := fun A B : list (nat * Point.t) =>
                Z.of_nat (length A) <= M /\ Z.of_nat (length B) <= M).
    assert (Hstep : forall A rect' p', Z.of_nat (length A) <= M ->
                      Z.of_nat (length (after_insert M A rect' p')) <= M).
    { intros A rect' p' HA. unfold after_insert. cbv zeta.
      destruct (Z.leb_spec (Z.of_nat (length (A ++ [(rect', p')]))) M); [done|].
      rewrite length_take, length_app in *. cbn [length] in *.
      pose proof (Nat.div_mod_eq (length A + 1) 2).
      pose proof (Nat.mod_upper_bound (length A + 1) 2). lia. }
    destruct (insert_all_split M P) with (ps := ps2) (t := t1) (h := h1)
      (A := take (length (rps ++ [(rect, p)]) / 2) (rps ++ [(rect, p)]))
      (B := drop (length (rps ++ [(rect, p)]) / 2) (rps ++ [(rect, p)]))
      as (t' & h' & A & B & Hi & Hs' & [HA HB] & _).
    { intros A B rect' p' [HA HB]. split; [by apply Hstep|done]. }
    { intros A B rect' p' [HA HB]. split; [done|by apply Hstep]. }
    { done. }
    { unfold P. rewrite length_take, length_drop, length_app.
      rewrite <- Hps1, length_fmap in Hl1. cbn [length].
      pose proof (Nat.div_mod_eq (length rps + 1) 2).
      pose proof (Nat.mod_upper_bound (length rps + 1) 2). lia. }
    rewrite (cons_middle p ps1 ps2), (assoc_L (++)), build_app, Hb1, Hi in Hb.
    injection Hb as <- <-.
    pose proof (split_state_shape _ _ _ _ _ Hs') as Hshape'.
    pose proof (collect_shape _ _ _ _ Hshape) as Hc.
    rewrite (collect_shape _ _ _ _ Hshape') in Hc. injection Hc as <-.
    split; [rewrite length_app, !length_fmap in *; lia|].
    intros n nd Hreach Hn Hleaf.
    destruct (split_state_nodes _ _ _ _ _ _ _ Hs' Hreach Hn)
      as [(_ & _ & ->)|[(_ & _ & ->)|(_ & Hl & _)]];
      [by rewrite leaf_entries_length..|congruence].
Qed.

Lemma reachable_points_bounded_witness :
  exists t h pts,
    build 2 [pt 0 0; pt 1 1; pt 2 2; pt 5 5; pt 6 6] = Some (t, h) /\
    RTree._collect_all_points (length (Heap.nodes h)) (RTree.root t) [] h = Some (pts, h) /\
    Z.of_nat (length pts) <=
      Z.min (Z.of_nat (length [pt 0 0; pt 1 1; pt 2 2; pt 5 5; pt 6 6])) (2 * 2) /\
    forall n nd,
      reachable h (RTree.root t) n -> Heap.nodes h !! n = Some nd ->
      RTreeNode.is_leaf nd = true -> Z.of_nat (length (RTreeNode.entries nd)) <= 2.
Proof.
  apply (reachable_points_bounded 2 [pt 0 0; pt 1 1; pt 2 2; pt 5 5; pt 6 6]). lia.
Defined.

(** X15: as long as no more than [max_entries + 1] points were inserted,
    no point is lost: the traversal yields the inserted points in insertion
    order, and [range_query] returns exactly the inserted points that the
    rectangle contains, in insertion order. *)
Theorem nothing_lost_up_to_capacity (M : Z) (ps : list Point.t) :
  Z.of_nat (length ps) <= M + 1 ->
  exists t h,
    build M ps = Some (t, h) /\
    RTree._collect_all_points (length (Heap.nodes h)) (RTree.root t) [] h = Some (ps, h) /\
    forall q, RTree.range_query t q h
              = Some (List.filter (Rectangle.contains_point q) ps, h).
Proof.
  intros Hlen.
  assert (exists t h, build M ps = Some (t, h) /\ shape M t h ps) as (t & h & Hb & Hs).
  { destruct ps as [|p ps _] using rev_ind.
    - destruct (shape_init M) as (t & h & Hi & Hs & _). exists t, h. split; [|done].
      unfold build. by rewrite (bind_run _ _ _ _ _ Hi).
    - rewrite length_app in Hlen. simpl in Hlen.
      destruct (leaf_phase M ps) as (rps & m & rs & Hb & Hps & Hst); [lia|].
      destruct (insert_shape_leaf M (Z.of_nat (length ps)) rps m rs p Hst)
        as (t & h & pts & Hi & Hs & _ & ->).
      exists t, h. rewrite build_snoc, Hb, Hps in *. done. }
  exists t, h. split; [done|]. split; [by eapply collect_shape|].
  intros q. by eapply range_shape.
Qed.

Lemma nothing_lost_up_to_capacity_witness :
  exists t h,
    build 2 [pt 0 0; pt 1 1; pt 2 2] = Some (t, h) /\
    RTree._collect_all_points (length (Heap.nodes h)) (RTree.root t) [] h
      = Some ([pt 0 0; pt 1 1; pt 2 2], h) /\
    forall q, RTree.range_query t q h
              = Some (List.filter (Rectangle.contains_point q) [pt 0 0; pt 1 1; pt 2 2], h).
Proof.
  apply (nothing_lost_up_to_capacity 2 [pt 0 0; pt 1 1; pt 2 2]). simpl. lia.
Defined.

(** X16: in every built index the rectangle object of each leaf entry is
    still the degenerate rectangle of its point (the in-place expansions of
    later insertions never reach it), and the rectangle of each entry of an
    internal root contains every point held by that entry's child. *)
Theorem entry_rectangles_bound (M : Z) (ps : list Point.t) :
  exists t h,
    build M ps = Some (t, h) /\
    (forall n nd r p,
       reachable h (RTree.root t) n -> Heap.nodes h !! n = Some nd ->
       (r, RTreeNode.DPoint p) ∈ RTreeNode.entries nd ->
       rect_of (Heap.rects h) (r, RTreeNode.DPoint p) = Some (point_rect p)) /\
    (forall top r c child rp p,
       Heap.nodes h !! RTree.root t = Some top ->
       (r, RTreeNode.DNode c) ∈ RTreeNode.entries top ->
       Heap.nodes h !! c = Some child ->
       (rp, RTreeNode.DPoint p) ∈ RTreeNode.entries child ->
       exists R, rect_of (Heap.rects h) (r, RTreeNode.DNode c) = Some R /\
                 Rectangle.contains_point R p = true).
Proof.
  destruct (build_shape M ps) as (t & h & pts & Hb & Hshape & _ & _).
  exists t, h. split; [done|].
  assert (Hleaf : forall rs (rps : list (nat * Point.t)) r p,
            Forall (stored rs) rps -> (r, RTreeNode.DPoint p) ∈ leaf_entries rps ->
            rect_of rs (r, RTreeNode.DPoint p) = Some (point_rect p)).
  { intros rs rps r p Hst Hin. unfold leaf_entries in Hin.
    apply list_elem_of_fmap in Hin as ([r' p'] & [= -> ->] & Hin).
    by apply (proj1 (Forall_forall _ _) Hst) in Hin. }
  assert (Hcov : forall R (rps : list (nat * Point.t)) r p,
            covers R rps -> (r, RTreeNode.DPoint p) ∈ leaf_entries rps ->
            Rectangle.contains_point R p = true).
  { intros R rps r p Hc Hin. unfold leaf_entries in Hin.
    apply list_elem_of_fmap in Hin as ([r' p'] & [= -> ->] & Hin).
    by apply (proj1 (Forall_forall _ _) Hc) in Hin. }
  destruct Hshape as [sz rps m rs Hst|sz rpsA rpsB mA mB mR ra rb Ra Rb rest rs HA HB Hra Hrb Hd HcA HcB];
    cbn [RTree.root Heap.nodes Heap.rects].
  - split.
    + intros n nd r p Hreach Hn Hin.
      assert (n = 0%nat) as ->.
      { clear Hn. induction Hreach as [|b c nd' _ -> Hb' Href]; [done|].
        injection Hb' as <-. by rewrite leaf_refers_to in Href. }
      injection Hn as <-. by eapply Hleaf.
    + intros top r c child rp p [= <-] Hin. unfold leaf_entries in Hin. simpl in Hin.
      by apply list_elem_of_fmap in Hin as (? & [=] & _).
  - split.
    + intros n nd r p Hreach Hn Hin.
      apply (reach_split _ rpsA rpsB (mA, ra) (mB, rb) mR M rest rs n eq_refl) in Hreach
        as [ -> | [ -> | -> ]]; injection Hn as <-; simpl in Hin.
      * apply elem_of_cons in Hin as [[=]|Hin].
        apply elem_of_cons in Hin as [[=]|Hin]. by apply elem_of_nil in Hin.
      * by apply (Hleaf rs rpsA).
      * by apply (Hleaf rs rpsB).
    + intros top r c child rp p [= <-] Hin Hc Hp. simpl in Hin.
      apply elem_of_cons in Hin as [[= -> ->]|Hin].
      { injection Hc as <-. exists Ra. split; [done|]. by apply (Hcov Ra rpsA rp). }
      apply elem_of_cons in Hin as [[= -> ->]|Hin]; [|by apply elem_of_nil in Hin].
      injection Hc as <-. exists Rb. split; [done|]. by apply (Hcov Rb rpsB rp).
Qed.

Lemma take_half_head {A} (x y : A) (l : list A) :
  exists l', take (length ((x :: l) ++ [y]) / 2) ((x :: l) ++ [y]) = x :: l'.
Proof.
  assert (H : (1 <= length ((x :: l) ++ [y]) / 2)%nat).
  { apply Nat.div_le_lower_bound; [done|]. rewrite length_app. cbn [length]. lia. }
  destruct (length ((x :: l) ++ [y]) / 2)%nat as [|n]; [lia|]. by eexists.
Qed.

(** X17: with capacity [M >= 1] the first point inserted is never lost: it
    is always the first point the traversal yields. *)
Theorem first_point_stays (M : Z) (p0 : Point.t) (ps : list Point.t) :
  1 <= M ->
  exists t h pts,
    build M (p0 :: ps) = Some (t, h) /\
    RTree._collect_all_points (length (Heap.nodes h)) (RTree.root t) [] h
      = Some (p0 :: pts, h).
Proof.
  intros HM.
  destruct (decide (Z.of_nat (length (p0 :: ps)) <= M)) as [Hsmall|Hbig].
  - destruct (leaf_phase M (p0 :: ps) Hsmall) as (rps & m & rs & Hb & Hps & Hst).
    eexists _, _, ps. split; [exact Hb|].
    rewrite <- Hps. apply (collect_shape M). by apply shape_leaf.
  - destruct (build_first_split M (p0 :: ps) ltac:(done) ltac:(lia))
      as (ps1 & p & ps2 & rps & rect & t1 & h1 & Hps & Hps1 & Hl1 & Hb1 & Hs).
    cbv zeta in Hs.
    set (P := fun A B : list (nat * Point.t) => exists r A', A = (r, p0) :: A').
    assert (Hrps : exists r rps', rps = (r, p0) :: rps').
    { destruct ps1 as [|p1 ps1]; [simpl in Hl1; lia|].
      injection Hps as <- _. destruct rps as [|[r p'] rps']; [done|].
      injection Hps1 as -> _. by exists r, rps'. }
    destruct Hrps as (r0 & rps' & ->).
    destruct (insert_all_split M P) with (ps := ps2) (t := t1) (h := h1)
      (A := take (length (((r0, p0) :: rps') ++ [(rect, p)]) / 2) (((r0, p0) :: rps') ++ [(rect, p)]))
      (B := drop (length (((r0, p0) :: rps') ++ [(rect, p)]) / 2) (((r0, p0) :: rps') ++ [(rect, p)]))
      as (t' & h' & A & B & Hi & Hs' & (r & A' & ->) & _).
    { intros A B rect' p' (r & A' & ->). unfold P, after_insert. cbv zeta.
      destruct (_ <=? M); [by eexists _, _|].
      destruct (take_half_head (r, p0) (rect', p') A') as [l' ->]. by eexists _, _. }
    { by intros A B rect' p' HP. }
    { done. }
    { unfold P. destruct (take_half_head (r0, p0) (rect, p) rps') as [l' ->].
      by eexists _, _. }
    rewrite Hps, (cons_middle p ps1 ps2), (assoc_L (++)), build_app, Hb1, Hi.
    exists t', h', (A'.*2 ++ B.*2). split; [done|].
    apply split_state_shape in Hs'. exact (collect_shape M t' h' _ Hs').
Qed.

Lemma first_point_stays_witness :
  exists t h pts,
    build 2 (pt 0 0 :: [pt 1 1; pt 2 2; pt 5 5]) = Some (t, h) /\
    RTree._collect_all_points (length (Heap.nodes h)) (RTree.root t) [] h
      = Some (pt 0 0 :: pts, h).
Proof.
  apply (first_point_stays 2 (pt 0 0) [pt 1 1; pt 2 2; pt 5 5]). lia.
Defined.

(** ** The query handlers of the window *)

Lemma string_lt_trans a : forall b c,
  String.ltb a b = true -> String.ltb b c = true -> String.ltb a c = true.
Proof.
  unfold String.ltb.
  induction a as [|x a IH]; intros [|y b] [|z c]; simpl; try done.
  unfold Ascii.compare.
  destruct (N.compare_spec (Ascii.N_of_ascii x) (Ascii.N_of_ascii y)) as [Hxy|Hxy|Hxy];
    destruct (N.compare_spec (Ascii.N_of_ascii y) (Ascii.N_of_ascii z)) as [Hyz|Hyz|Hyz];
    try done;
    destruct (N.compare_spec (Ascii.N_of_ascii x) (Ascii.N_of_ascii z)) as [Hxz|Hxz|Hxz];
    try done; try lia.
  apply IH.
Qed.

Lemma string_lt_connex a b : a <> b -> String.ltb b a = false -> String.ltb a b = true.
Proof.
  unfold String.ltb. rewrite (String.compare_antisym b a).
  destruct (String.compare a b) eqn:Hc; simpl; try done.
  intros Hne. by apply String.compare_eq_iff in Hc.
Qed.

Lemma sorted_insert_perm item l : GeoSpatialGUI.sorted_insert item l ≡ₚ item :: l.
Proof.
  induction l as [|h l IH]; [done|]. simpl.
  destruct (String.ltb h.1 item.1); [|done]. rewrite IH. apply Permutation_swap.
Qed.

Lemma sorted_items_perm d : GeoSpatialGUI.sorted_items d ≡ₚ d.
Proof.
  induction d as [|x d IH]; [done|].
  unfold GeoSpatialGUI.sorted_items in *. simpl. by rewrite sorted_insert_perm, IH.
Qed.

Lemma sorted_insert_ascending item l :
  ascending l -> item.1 ∉ l.*1 -> ascending (GeoSpatialGUI.sorted_insert item l).
Proof.
  unfold ascending. induction 1 as [|h l Hl IH Hh]; intros Hni; simpl.
  - by repeat constructor.
  - apply not_elem_of_cons in Hni as [Hne Hni].
    destruct (String.ltb h.1 item.1) eqn:Hlt.
    + constructor; [by apply IH|].
      rewrite sorted_insert_perm. by constructor.
    + assert (Hih : String.ltb item.1 h.1 = true) by by apply string_lt_connex.
      constructor; [by constructor|]. constructor; [done|].
      eapply Forall_impl; [exact Hh|]. intros x Hx. by eapply string_lt_trans.
Qed.

Lemma sorted_items_ascending d : NoDup d.*1 -> ascending (GeoSpatialGUI.sorted_items d).
Proof.
  induction d as [|x d IH]; [constructor|]. rewrite fmap_cons. intros [Hni Hnd]%NoDup_cons.
  unfold GeoSpatialGUI.sorted_items in *. simpl. apply sorted_insert_ascending; [by apply IH|].
  by rewrite (sorted_items_perm d).
Qed.

Lemma of_category_snoc c rs p :
  of_category c (rs ++ [p]) =
  of_category c rs ++ (if String.eqb c (Point.category p) then [p] else []).
Proof. unfold of_category. by rewrite List.filter_app. Qed.

Lemma of_category_nil c rs :
  (forall p, p ∈ rs -> Point.category p <> c) -> of_category c rs = [].
Proof.
  induction rs as [|p rs IH]; [done|]. intros H. unfold of_category in *. simpl.
  destruct (String.eqb_spec c (Point.category p)) as [->|_].
  - exfalso. apply (H p); [by left|done].
  - apply IH. intros p' Hp'. apply H. by right.
Qed.

Lemma dict_append_keys d p :
  (GeoSpatialGUI.dict_append d p).*1 = d.*1 /\ Point.category p ∈ d.*1 \/
  (GeoSpatialGUI.dict_append d p).*1 = d.*1 ++ [Point.category p] /\ Point.category p ∉ d.*1.
Proof.
  induction d as [|[c l] d IH]; cbn [GeoSpatialGUI.dict_append].
  - right. split; [done|]. apply not_elem_of_nil.
  - destruct (String.eqb_spec c (Point.category p)) as [->|Hne].
    + left. split; [done|]. rewrite fmap_cons. by left.
    + rewrite !fmap_cons. cbn [fst]. destruct IH as [[-> Hin]|[-> Hni]].
      * left. split; [done|]. by right.
      * right. split; [done|]. apply not_elem_of_cons. split; [congruence|done].
Qed.

Lemma dict_append_concat d p :
  concat (GeoSpatialGUI.dict_append d p).*2 ≡ₚ concat d.*2 ++ [p].
Proof.
  induction d as [|[c l] d IH]; simpl; [done|].
  destruct (String.eqb c (Point.category p)); simpl.
  - rewrite <- !app_assoc. f_equiv. apply Permutation_app_comm.
  - by rewrite IH, app_assoc.
Qed.

Lemma dict_append_items rs d p :
  NoDup d.*1 ->
  Forall (fun it => it.2 = of_category it.1 rs /\ it.2 <> []) d ->
  (Point.category p ∉ d.*1 -> of_category (Point.category p) rs = []) ->
  Forall (fun it => it.2 = of_category it.1 (rs ++ [p]) /\ it.2 <> [])
    (GeoSpatialGUI.dict_append d p).
Proof.
  induction d as [|[c l] d IH]; simpl; intros Hnd Hall Hnew.
  - constructor; [|done]. simpl. rewrite of_category_snoc, String.eqb_refl.
    rewrite Hnew by apply not_elem_of_nil. done.
  - apply NoDup_cons in Hnd as [Hc Hnd]. apply Forall_cons in Hall as [[Hl Hne] Hall].
    simpl in Hl, Hne. destruct (String.eqb_spec c (Point.category p)) as [->|Hcp].
    + constructor; simpl.
      * rewrite of_category_snoc, String.eqb_refl, <- Hl. split; [done|].
        by destruct l.
      * eapply Forall_impl; [apply Forall_forall; intros it Hit;
          exact (conj (proj1 (Forall_forall _ _) Hall it Hit) Hit)|].
        intros it [[Hi Hn] Hit]. split; [|done].
        rewrite of_category_snoc.
        destruct (String.eqb_spec it.1 (Point.category p)) as [He|_]; [|by rewrite app_nil_r].
        exfalso. apply Hc. rewrite <- He. apply list_elem_of_fmap. by exists it.
    + constructor; simpl.
      * rewrite of_category_snoc. destruct (String.eqb_spec c (Point.category p)); [done|].
        by rewrite app_nil_r.
      * apply IH; [done|done|]. intros Hni. apply Hnew.
        apply not_elem_of_cons. split; [congruence|done].
Qed.

Lemma dict_append_grouped rs d p :
  grouped rs d -> grouped (rs ++ [p]) (GeoSpatialGUI.dict_append d p).
Proof.
  intros (Hnd & Hall & Hcov & Hperm).
  pose proof (dict_append_keys d p) as Hk.
  repeat split.
  - destruct Hk as [[-> _]|[-> Hni]]; [done|].
    apply NoDup_app. split; [done|]. split; [|apply NoDup_singleton].
    intros c Hc ->%list_elem_of_singleton. done.
  - apply dict_append_items; [done|done|]. intros Hni. apply of_category_nil.
    intros p' Hp' He. apply Hni. rewrite <- He. by apply Hcov.
  - intros p' [Hp'| ->%list_elem_of_singleton]%elem_of_app.
    + apply Hcov in Hp'. destruct Hk as [[-> _]|[-> _]]; [done|].
      apply elem_of_app. by left.
    + destruct Hk as [[-> Hin]|[-> _]]; [done|]. apply elem_of_app. right. by left.
  - by rewrite dict_append_concat, Hperm.
Qed.

Lemma group_by_category_grouped rs : grouped rs (GeoSpatialGUI.group_by_category rs).
Proof.
  unfold GeoSpatialGUI.group_by_category.
  induction rs as [|p rs IH] using rev_ind.
  - repeat split; simpl; [constructor|constructor|by intros p ?%elem_of_nil|done].
  - rewrite foldl_app. simpl. by apply dict_append_grouped.
Qed.

Lemma block_counts d :
  sum_list (GeoSpatialGUI.count <$> (GeoSpatialGUI.block_of <$> d)) = length (concat d.*2).
Proof.
  induction d as [|[c l] d IH]; [done|]. rewrite !fmap_cons.
  cbn [sum_list_with concat snd GeoSpatialGUI.block_of GeoSpatialGUI.count].
  rewrite length_app. f_equal. exact IH.
Qed.

(** X18: the categories of the panel after a range query.  Whatever the
    query found, the blocks come in strictly ascending order of category;
    each block lists the found points of its category, in the order in
    which they were found, and there is no block without a point; the
    blocks together hold exactly the found points, so their counts add up
    to [Puntos encontrados]; and a block shows at most ten points and
    counts the others in [more]. *)
Theorem range_panel_groups (results : list Point.t) :
  let items := GeoSpatialGUI.sorted_items (GeoSpatialGUI.group_by_category results) in
  let blocks := GeoSpatialGUI.block_of <$> items in
  ascending items /\
  Forall (fun it => it.2 = of_category it.1 results /\ it.2 <> []) items /\
  concat items.*2 ≡ₚ results /\
  sum_list (GeoSpatialGUI.count <$> blocks) = length results /\
  Forall (fun b => (length (GeoSpatialGUI.shown b) + default 0 (GeoSpatialGUI.more b)
                     = GeoSpatialGUI.count b)%nat /\
                   (length (GeoSpatialGUI.shown b) <= 10)%nat /\
                   (GeoSpatialGUI.more b = None <-> GeoSpatialGUI.count b <= 10)%nat) blocks.
Proof.
  intros items blocks.
  destruct (group_by_category_grouped results) as (Hnd & Hall & Hcov & Hperm).
  assert (Hitems : items ≡ₚ GeoSpatialGUI.group_by_category results)
    by apply sorted_items_perm.
  assert (Hc : concat items.*2 ≡ₚ results) by (by rewrite Hitems).
  split; [by apply sorted_items_ascending|].
  split; [by rewrite Hitems|]. split; [done|].
  split; [unfold blocks; by rewrite block_counts, Hc|].
  apply Forall_fmap, Forall_forall. intros [c l] _.
  cbn [compose GeoSpatialGUI.block_of GeoSpatialGUI.shown GeoSpatialGUI.more GeoSpatialGUI.count].
  rewrite length_take.
  destruct (Nat.ltb_spec 10 (length l)); cbn [from_option id]; repeat split; try lia; done.
Qed.

(** X19: the range handler never queries with an inverted rectangle.
    Whatever corner the drag started at, the rectangle it builds is
    well-formed and the same for the four ways of naming two opposite
    corners; on a built index the handler raises nothing, leaves the store
    and the query point alone, stores the rectangle, and stores and reports
    exactly the reachable points that lie between the two corners on both
    axes, in traversal order. *)
Theorem perform_range_query_normalises (M : Z) (ps : list Point.t)
    (results0 : list Point.t) (rect0 : option Rectangle.t) (point0 : option Point.t)
    (x1 y1 x2 y2 : Z) :
  let q := Rectangle.mk (Z.min x1 x2) (Z.min y1 y2) (Z.max x1 x2) (Z.max y1 y2) in
  well_formed q /\
  (forall self h,
     GeoSpatialGUI.perform_range_query self x2 y2 x1 y1 h
       = GeoSpatialGUI.perform_range_query self x1 y1 x2 y2 h /\
     GeoSpatialGUI.perform_range_query self x1 y2 x2 y1 h
       = GeoSpatialGUI.perform_range_query self x1 y1 x2 y2 h /\
     GeoSpatialGUI.perform_range_query self x2 y1 x1 y2 h
       = GeoSpatialGUI.perform_range_query self x1 y1 x2 y2 h) /\
  exists t h reachable,
    build M ps = Some (t, h) /\
    RTree._collect_all_points (length (Heap.nodes h)) (RTree.root t) [] h
      = Some (reachable, h) /\
    let found := List.filter (Rectangle.contains_point q) reachable in
    GeoSpatialGUI.perform_range_query (GeoSpatialGUI.mk t results0 rect0 point0) x1 y1 x2 y2 h
      = Some ((GeoSpatialGUI.mk t found (Some q) point0,
               (length found,
                GeoSpatialGUI.block_of <$>
                  GeoSpatialGUI.sorted_items (GeoSpatialGUI.group_by_category found))), h) /\
    forall p, p ∈ found <->
      p ∈ reachable /\
      Z.min x1 x2 <= Point.x p <= Z.max x1 x2 /\
      Z.min y1 y2 <= Point.y p <= Z.max y1 y2.
Proof.
  intros q. split; [unfold well_formed, q; simpl; lia|]. split.
  - intros self h. unfold GeoSpatialGUI.perform_range_query.
    by rewrite (Z.min_comm x2 x1), (Z.max_comm x2 x1), (Z.min_comm y2 y1), (Z.max_comm y2 y1).
  - destruct (build_shape M ps) as (t & h & pts & Hb & Hs & _ & _).
    exists t, h, pts. split; [done|]. split; [by eapply collect_shape|]. split.
    + unfold GeoSpatialGUI.perform_range_query,
        PerformanceAnalyzer.measure_range_query_time. cbn [GeoSpatialGUI.rtree].
      fold q. by rewrite (bind_run _ _ _ _ _ (range_shape M t h pts q Hs)).
    + intros p. rewrite list_elem_of_In, List.filter_In, <- list_elem_of_In.
      by rewrite contains_point_spec.
Qed.

(** X20: the k-NN handler keeps non-positive [k] away from the index.
    On a built index the handler raises nothing and leaves the store alone.
    It shows an error, and then assigns nothing, exactly when the text of K
    is not an integer or the integer is not positive.  Otherwise it calls
    [knn_query] with that [k] and a point at the click, stores the points
    of the answer and the query point, keeps the rectangle of an earlier
    range query, and the answer has [min k n] pairs for [n] reachable
    points. *)
Theorem perform_knn_query_guard (M : Z) (ps : list Point.t)
    (results0 : list Point.t) (rect0 : option Rectangle.t) (point0 : option Point.t)
    (k_var : option Z) (x y : Z) :
  exists t h reachable,
    build M ps = Some (t, h) /\
    RTree._collect_all_points (length (Heap.nodes h)) (RTree.root t) [] h
      = Some (reachable, h) /\
    let self := GeoSpatialGUI.mk t results0 rect0 point0 in
    let q := Point.mk x y "Query Point" "" in
    exists self' out,
      GeoSpatialGUI.perform_knn_query self k_var x y h = Some ((self', out), h) /\
      (out = inl GeoSpatialGUI.K_not_a_number <-> k_var = None) /\
      (out = inl GeoSpatialGUI.K_not_positive <-> exists k, k_var = Some k /\ k <= 0) /\
      (forall e, out = inl e -> self' = self) /\
      (forall k, k_var = Some k -> 0 < k ->
         exists results,
           out = inr results /\
           RTree.knn_query t q k h = Some (results, h) /\
           self' = GeoSpatialGUI.mk t results.*1 rect0 (Some q) /\
           length results = Nat.min (Z.to_nat k) (length reachable)).
Proof.
  destruct (build_shape M ps) as (t & h & pts & Hb & Hs & _ & _).
  exists t, h, pts. split; [done|]. split; [by eapply collect_shape|].
  intros self q. unfold GeoSpatialGUI.perform_knn_query.
  destruct k_var as [k|].
  - destruct (Z.leb_spec k 0) as [Hk|Hk].
    + exists self, (inl GeoSpatialGUI.K_not_positive). split; [done|].
      split; [done|]. split; [split; [by exists k|done]|]. split; [done|].
      intros k' [= <-] ?. lia.
    + unfold PerformanceAnalyzer.measure_knn_query_time. cbn [GeoSpatialGUI.rtree self].
      rewrite (bind_run _ _ _ _ _ (knn_shape M t h pts q k Hs)).
      eexists _, _. split; [reflexivity|].
      split; [done|]. split; [split; [done|intros (k' & [= <-] & ?); lia]|].
      split; [done|]. intros k' [= <-] _. eexists. split; [done|].
      split; [by apply knn_shape with (M := M)|]. split; [done|].
      rewrite slice_to_nonneg, length_take by lia.
      by rewrite (Permutation_length (sort_by_distance_perm _)), length_fmap.
  - exists self, (inl GeoSpatialGUI.K_not_a_number). split; [done|].
    split; [done|]. split; [split; [done|by intros (k & ? & _)]|]. split; [done|].
    done.
Qed.
